(** * ExternalPyomoModel: implicit-function grey-box model

    A shallow embedding of
    [pyomo/contrib/pynumero/interfaces/external_pyomo_model.py]:
    the sparse-fill conversion [_dense_to_full_sparse], the constraint
    Hessian extraction [get_hessian_of_constraint] and the class
    [ExternalPyomoModel] with its first- and second-order implicit
    function machinery.

    Conventions of the embedding.
    - Floating-point scalars are an abstract carrier with the operations
      the code applies to them ([Scalar]); no algebraic law is assumed
      unless a theorem lists it as a hypothesis.
    - Python exceptions are values of [PyError]; pure library calls live in
      the error monad [result], methods of the class in the state-and-error
      monad [M], whose state survives a raised exception (Python does not
      roll back mutations when an exception propagates).
    - NumPy/SciPy arrays are modelled by their shape and their entries;
      coordinate format matrices keep their explicit [row]/[col]/[data]
      arrays where the module returns them or receives them from
      [get_hessian_of_constraint], and are read through [toarray] where the
      module computes with them.
    - The automatic-differentiation evaluator behind [PyomoNLP], the sparse
      LU routine [scipy.sparse.linalg.splu] and the nonlinear solver are
      interfaces ([Evaluator], [SparseLU], [Solver]).  An evaluator knows
      the variables that appear in the equations of its block: it refuses a
      block without any ([ValueError]) and a derivative with respect to a
      variable it does not know ([KeyError]); it places the derivatives of
      a variable or an equation listed twice at the last position, and
      stores the Hessian entries its structure holds. *)

From Stdlib Require Import String List Arith Lia Bool ZArith Permutation.
From Stdlib Require DecimalString DecimalNat.
Import ListNotations.

Set Implicit Arguments.

(* ===================================================================== *)
(** ** Exceptions and the error monad *)
(* ===================================================================== *)

Inductive PyError : Type :=
| AssertionError
| AttributeError
| IndexError
| KeyError
| TypeError
| ValueError
| RuntimeError
| SolverFailure (code : nat).

Inductive result (A : Type) : Type :=
| Ok (a : A)
| Raise (e : PyError).
Arguments Ok {A} a.
Arguments Raise {A} e.

Definition rbind {A B} (c : result A) (k : A -> result B) : result B :=
  match c with
  | Ok a => k a
  | Raise e => Raise e
  end.

Declare Scope err_scope.
Delimit Scope err_scope with err.
Notation "x <- c ;; k" := (rbind c (fun x => k))
  (at level 61, c at next level, right associativity) : err_scope.

(** List comprehension whose body may raise. *)
Fixpoint mapE {A B} (f : A -> result B) (l : list A) : result (list B) :=
  match l with
  | [] => Ok []
  | a :: l' =>
      match f a with
      | Raise e => Raise e
      | Ok b =>
          match mapE f l' with
          | Raise e => Raise e
          | Ok bs => Ok (b :: bs)
          end
      end
  end.

(** [range(n)] and [itertools.product]. *)
Definition range (n : nat) : list nat := seq 0 n.

Definition product {A B} (xs : list A) (ys : list B) : list (A * B) :=
  flat_map (fun x => map (fun y => (x, y)) ys) xs.

(* ===================================================================== *)
(** ** Scalars and arrays *)
(* ===================================================================== *)

(** The arithmetic the module performs on matrix entries. *)
Class Scalar (R : Type) : Type := {
  r0 : R;
  r1 : R;
  radd : R -> R -> R;
  rmul : R -> R -> R;
  ropp : R -> R
}.

Section Arrays.
Context {R : Type} {SR : Scalar R}.

(** One-dimensional arrays. *)
Definition vector := list R.

(** A two-dimensional array (or [np.matrix], or the dense value of a
    sparse matrix): its [shape] and its entries. *)
Record ndarray : Type := NDArray {
  nrow : nat;
  ncol : nat;
  item : nat -> nat -> R
}.

Definition shape (m : ndarray) : nat * nat := (nrow m, ncol m).

(** [matrix[i, j]] with non-negative indices. *)
Definition getitem (m : ndarray) (i j : nat) : result R :=
  if (i <? nrow m) && (j <? ncol m) then Ok (item m i j) else Raise IndexError.

(** [vec[i]]. *)
Definition vgetitem (v : vector) (i : nat) : result R :=
  match nth_error v i with
  | Some x => Ok x
  | None => Raise IndexError
  end.

(** [np.array(rows)] for a rectangular list of rows. *)
Definition array2d (rows : list (list R)) : ndarray :=
  {| nrow := length rows;
     ncol := length (hd [] rows);
     item := fun i j => nth j (nth i rows []) r0 |}.

(** [m.transpose()]. *)
Definition transpose (m : ndarray) : ndarray :=
  {| nrow := ncol m; ncol := nrow m; item := fun i j => item m j i |}.

(** Unary minus, and [-1 * m]. *)
Definition mneg (m : ndarray) : ndarray :=
  {| nrow := nrow m; ncol := ncol m; item := fun i j => ropp (item m i j) |}.

(** [0 + m] for the integer [0]. *)
Definition zero_plus (m : ndarray) : ndarray :=
  {| nrow := nrow m; ncol := ncol m; item := fun i j => radd r0 (item m i j) |}.

(** [mult * m] for a scalar [mult]. *)
Definition mscale (c : R) (m : ndarray) : ndarray :=
  {| nrow := nrow m; ncol := ncol m; item := fun i j => rmul c (item m i j) |}.

(** Sum of a list of scalars, accumulated from the left starting at zero. *)
Definition rsum (l : list R) : R := fold_left radd l r0.

(** Entrywise sum and matrix products, for operands whose shapes agree. *)
Definition matadd (a b : ndarray) : ndarray :=
  {| nrow := nrow a; ncol := ncol a;
     item := fun i j => radd (item a i j) (item b i j) |}.

Definition matmul (a b : ndarray) : ndarray :=
  {| nrow := nrow a; ncol := ncol b;
     item := fun i j =>
       rsum (map (fun k => rmul (item a i k) (item b k j)) (range (ncol a))) |}.

Definition matvec (a : ndarray) (v : vector) : vector :=
  map (fun i => rsum (map (fun k => rmul (item a i k) (nth k v r0))
                          (range (ncol a))))
      (range (nrow a)).

(** [a + b] on arrays of equal shape. *)
Definition madd (a b : ndarray) : result ndarray :=
  if (nrow a =? nrow b) && (ncol a =? ncol b)
  then Ok (matadd a b)
  else Raise ValueError.

(** [a.dot(b)] for two-dimensional [a], [b]. *)
Definition dot (a b : ndarray) : result ndarray :=
  if ncol a =? nrow b then Ok (matmul a b) else Raise ValueError.

(** [a.dot(v)] for a one-dimensional [v]. *)
Definition dotv (a : ndarray) (v : vector) : result vector :=
  if ncol a =? length v then Ok (matvec a v) else Raise ValueError.

(** Column [j] of a two-dimensional array. *)
Definition column (m : ndarray) (j : nat) : vector :=
  map (fun i => item m i j) (range (nrow m)).

(** A SciPy coordinate-format matrix: explicit parallel index and data
    arrays. *)
Record coo_matrix : Type := COO {
  coo_shape : nat * nat;
  coo_row : list nat;
  coo_col : list nat;
  coo_data : list R
}.

(** The explicit coordinates and the explicit entries of a [coo_matrix]. *)
Definition coords (m : coo_matrix) : list (nat * nat) :=
  combine (coo_row m) (coo_col m).

Definition entries (m : coo_matrix) : list (nat * nat * R) :=
  combine (coords m) (coo_data m).

(** [m.toarray()], and the dense value with which [m.dot(b)] and [m + b]
    compute: the entry stored at a coordinate, zero where none is stored
    (the matrices converted here store no coordinate twice). *)
Definition toarray (m : coo_matrix) : ndarray :=
  {| nrow := fst (coo_shape m);
     ncol := snd (coo_shape m);
     item := fun i j =>
       match find (fun e => (fst (fst e) =? i) && (snd (fst e) =? j))
                  (entries m) with
       | Some e => snd e
       | None => r0
       end |}.

(** What a Python name may be bound to where the module calls
    [_dense_to_full_sparse]: an array, or the integer [0] that the builtin
    [sum] returns for an empty iterable. *)
Inductive pyobj : Type :=
| PyInt0
| PyArray (a : ndarray).

(** [matrix.shape] *)
Definition py_shape (o : pyobj) : result (nat * nat) :=
  match o with
  | PyInt0 => Raise AttributeError
  | PyArray a => Ok (shape a)
  end.

(** [matrix[i, j]] *)
Definition py_getitem (o : pyobj) (i j : nat) : result R :=
  match o with
  | PyInt0 => Raise TypeError
  | PyArray a => getitem a i j
  end.

(* ===================================================================== *)
(** ** [_dense_to_full_sparse] *)
(* ===================================================================== *)

(** The loop
    [for i, j in itertools.product(range(nrow), range(ncol))], threading the
    three lists it appends to. *)
Fixpoint fill_loop (matrix : pyobj) (ijs : list (nat * nat))
    (acc : list nat * list nat * list R)
  : result (list nat * list nat * list R) :=
  match ijs with
  | [] => Ok acc
  | (i, j) :: rest =>
      let '(row, col, data) := acc in
      match py_getitem matrix i j with
      | Raise e => Raise e
      | Ok x => fill_loop matrix rest (row ++ [i], col ++ [j], data ++ [x])
      end
  end.

Definition _dense_to_full_sparse (matrix : pyobj) : result coo_matrix :=
  (sh <- py_shape matrix ;;
   let '(nrow, ncol) := sh in
   acc <- fill_loop matrix (product (range nrow) (range ncol)) ([], [], []) ;;
   let '(row, col, data) := acc in
   Ok {| coo_shape := (nrow, ncol);
         coo_row := row; coo_col := col; coo_data := data |})%err.

(** [scipy.sparse.tril(A)] of a coordinate matrix: the explicit entries
    with [row >= col], in their stored order. *)
Definition tril_keep (e : nat * nat * R) : bool :=
  let '(i, j, _) := e in j <=? i.

Definition tril (a : coo_matrix) : coo_matrix :=
  let kept := filter tril_keep (entries a) in
  {| coo_shape := coo_shape a;
     coo_row := map (fun e => fst (fst e)) kept;
     coo_col := map (fun e => snd (fst e)) kept;
     coo_data := map snd kept |}.

(** The coordinate matrix with one explicit entry per coordinate, built
    from entries [f] on an [nr]-by-[nc] block. *)
Definition full_sparse (nr nc : nat) (f : nat -> nat -> R) : coo_matrix :=
  let p := product (range nr) (range nc) in
  {| coo_shape := (nr, nc);
     coo_row := map fst p;
     coo_col := map snd p;
     coo_data := map (fun ij => f (fst ij) (snd ij)) p |}.

(** The coordinate matrix that stores, row by row, the entries [f] of an
    [nr]-by-[nc] block at the coordinates [keep] selects. *)
Definition sparse_where (nr nc : nat) (keep : nat -> nat -> bool)
    (f : nat -> nat -> R) : coo_matrix :=
  let p := filter (fun ij => keep (fst ij) (snd ij))
                  (product (range nr) (range nc)) in
  {| coo_shape := (nr, nc);
     coo_row := map fst p;
     coo_col := map snd p;
     coo_data := map (fun ij => f (fst ij) (snd ij)) p |}.

End Arrays.

Arguments ndarray R : clear implicits.
Arguments coo_matrix R : clear implicits.
Arguments pyobj R : clear implicits.
Arguments vector R : clear implicits.

(* ===================================================================== *)
(** ** Pyomo components and the sub-model evaluator *)
(* ===================================================================== *)

(** Pyomo variables are identified by the object they are; [DummyVar] is
    the fresh [Var()] that [get_hessian_of_constraint] puts on its block. *)
Inductive Var : Type :=
| PyVar (id : nat)
| DummyVar.

(** A constraint of the user's model, or the presence constraint
    [sum(variables) == _dummy_var]. *)
Inductive Constraint : Type :=
| PyCon (id : nat)
| SumEq (variables : list Var) (rhs : Var).

Definition Var_eq_dec (a b : Var) : {a = b} + {a <> b}.
Proof. decide equality. apply Nat.eq_dec. Defined.

Definition Constraint_eq_dec (a b : Constraint) : {a = b} + {a <> b}.
Proof.
  decide equality.
  - apply Nat.eq_dec.
  - apply Var_eq_dec.
  - apply (list_eq_dec Var_eq_dec).
Defined.

(** [var in ComponentSet(vars)] *)
Definition var_in (v : Var) (vars : list Var) : bool :=
  if in_dec Var_eq_dec v vars then true else false.

(** Position of a component in a list, if it is there. *)
Fixpoint index_of (c : Constraint) (l : list Constraint) : option nat :=
  match l with
  | [] => None
  | c' :: l' =>
      if Constraint_eq_dec c c' then Some 0
      else match index_of c l' with
           | Some n => Some (S n)
           | None => None
           end
  end.

Fixpoint var_index (v : Var) (l : list Var) : option nat :=
  match l with
  | [] => None
  | v' :: l' =>
      if Var_eq_dec v v' then Some 0
      else match var_index v l' with
           | Some n => Some (S n)
           | None => None
           end
  end.

Definition Var_eqb (a b : Var) : bool :=
  if Var_eq_dec a b then true else false.

Definition Constraint_eqb (a b : Constraint) : bool :=
  if Constraint_eq_dec a b then true else false.

(** Whether position [i] of [l] is the one the dictionary
    [{j: i for i, j in enumerate(l)}] keeps for the component it holds:
    a later pair overwrites an earlier one, so the last position of each
    component is kept. *)
Definition is_last {A} (eqb : A -> A -> bool) (l : list A) (i : nat) : bool :=
  match nth_error l i with
  | Some a => negb (existsb (eqb a) (skipn (S i) l))
  | None => false
  end.

(** [lst[i] = val] on a Python list. *)
Fixpoint list_setitem {A} (l : list A) (i : nat) (val : A) : result (list A) :=
  match l, i with
  | [], _ => Raise IndexError
  | _ :: l', 0 => Ok (val :: l')
  | a :: l', S i' =>
      match list_setitem l' i' val with
      | Ok l'' => Ok (a :: l'')
      | Raise e => Raise e
      end
  end.

(** A subsystem block: the constraints and variables it references, and the
    other variables its constraints mention ([input_vars]). *)
Record Block : Type := {
  block_cons : list Constraint;
  block_vars : list Var;
  block_input_vars : list Var
}.

Section Evaluation.
Context {R : Type} {SR : Scalar R}.

(** Current values of the Pyomo variables: mutable objects shared between
    the user's model, the blocks and the solver. *)
Definition Values := Var -> R.

(** [var.set_value(val)] *)
Definition set_value (s : Values) (var : Var) (val : R) : Values :=
  fun v => if Var_eq_dec v var then val else s v.

(** Modelled from the spec: the sub-model evaluator ([PyomoNLP] and the
    expression and subsystem utilities of Pyomo, which are not part of the
    module), "given a set of equations and variables, returns equation
    residual values, first Jacobians, and second Hessians with respect to
    requested variable pairs, at the current variable values".  Its
    primitives: the variables of a constraint body, the other variables a
    subsystem's constraints mention, the order in which the constraints of
    a block are numbered, the value and the first and second partial
    derivatives of a constraint body at a point, and the pairs of variables
    at which the Hessian of a constraint body has an entry that "could
    possibly be nonzero". *)
Class Evaluator : Type := {
  con_vars : nat -> list Var;
  subsystem_input_vars : list Constraint -> list Var -> list Var;
  nl_order : list Constraint -> list Constraint;
  con_value : Constraint -> Values -> R;
  con_jac : Constraint -> Var -> Values -> R;
  con_hess : Constraint -> Var -> Var -> Values -> R;
  hess_struct : nat -> Var -> Var -> bool
}.

Context {EV : Evaluator}.

(** Modelled from the spec: [identify_variables(constraint.expr,
    include_fixed=False)], the variables that appear in an expression (the
    presence constraint is "summing all such variables equal to an
    auxiliary variable"); the fixed flag of variables is not part of the
    state modelled here. *)
Definition identify_variables (c : Constraint) : list Var :=
  match c with
  | PyCon id => con_vars id
  | SumEq variables rhs => variables ++ [rhs]
  end.

(** Modelled from the spec: the derivatives the evaluator holds, "only
    variables actually appearing in supplied equations yield derivatives".
    The Jacobian has an entry for a constraint and a variable that appears
    in it; the Hessian of a constraint has an entry for two of its
    variables that its structure pairs, and none for the presence
    constraint, which is linear.  Where no entry is held the derivative
    reads as zero. *)
Definition first_derivative (c : Constraint) (v : Var) (p : Values) : R :=
  if var_in v (identify_variables c) then con_jac c v p else r0.

Definition structural (c : Constraint) (u v : Var) : bool :=
  match c with
  | PyCon id =>
      var_in u (con_vars id) && var_in v (con_vars id) && hess_struct id u v
  | SumEq _ _ => false
  end.

Definition second_derivative (c : Constraint) (u v : Var) (p : Values) : R :=
  if structural c u v then con_hess c u v p else r0.

(** Modelled from the spec: [create_subsystem_block(constraints,
    variables=variables)], the "minimal evaluable sub-model" on the given
    equations and variables. *)
Definition create_subsystem_block (constraints : list Constraint)
    (variables : list Var) : Block :=
  {| block_cons := constraints;
     block_vars := variables;
     block_input_vars := subsystem_input_vars constraints variables |}.

(** Modelled from the spec: a [PyomoNLP], "the evaluator instance holding
    values/derivatives at [(x,y)]": the constraints in the evaluator's
    order, the variables it knows (those that appear in its equations),
    the primal point captured when it was built, and the constraint
    multipliers. *)
Record NLP : Type := {
  nlp_cons : list Constraint;
  nlp_vars : list Var;
  nlp_primals : Values;
  nlp_duals : list R
}.

(** Modelled from the spec: the variables that appear in the equations of a
    block (its objective is the constant [0.0]). *)
Definition block_variables (block : Block) : list Var :=
  flat_map identify_variables (block_cons block).

(** Modelled from the spec: the first step of [PyomoNLP(block)], writing the
    block for the evaluator, which is refused with [ValueError] when no
    variable appears in the equations of the block. *)
Definition write_nl (block : Block) : result unit :=
  match block_variables block with
  | [] => Raise ValueError
  | _ :: _ => Ok tt
  end.

(** Modelled from the spec: the evaluator [PyomoNLP(block)] gives once the
    block is written, while the variables hold [values] ("rebuilds the full
    evaluator at [(x, y)]"). *)
Definition PyomoNLP (block : Block) (values : Values) : NLP :=
  {| nlp_cons := nl_order (block_cons block);
     nlp_vars := block_variables block;
     nlp_primals := values;
     nlp_duals := map (fun _ => r0) (block_cons block) |}.

(** Modelled from the spec: [nlp.get_constraint_indices(constraints)], the
    positions of the given equations in the evaluator's numbering. *)
Definition get_constraint_indices (nlp : NLP) (constraints : list Constraint)
  : result (list nat) :=
  mapE (fun c => match index_of c (nlp_cons nlp) with
                 | Some i => Ok i
                 | None => Raise KeyError
                 end) constraints.

(** Modelled from the spec: [nlp.get_primal_indices(variables)], the
    positions of the given variables among those the evaluator knows;
    a variable that appears in none of its equations is a [KeyError]. *)
Definition get_primal_indices (nlp : NLP) (variables : list Var)
  : result (list nat) :=
  mapE (fun v => match var_index v (nlp_vars nlp) with
                 | Some i => Ok i
                 | None => Raise KeyError
                 end) variables.

(** Modelled from the spec: [nlp.set_duals(duals)], which stores one
    multiplier per equation of the evaluator. *)
Definition set_duals (nlp : NLP) (duals : list R) : result NLP :=
  if length duals =? length (nlp_cons nlp)
  then Ok {| nlp_cons := nlp_cons nlp;
             nlp_vars := nlp_vars nlp;
             nlp_primals := nlp_primals nlp;
             nlp_duals := duals |}
  else Raise ValueError.

(** Modelled from the spec: [nlp.extract_subvector_constraints(cons)],
    "evaluate(equations, variables) -> values". *)
Definition extract_subvector_constraints (nlp : NLP)
    (cons : list Constraint) : vector R :=
  map (fun c => con_value c (nlp_primals nlp)) cons.

(** Modelled from the spec: the dense value of the matrix
    [nlp.extract_submatrix_jacobian(vars, cons)] returns, "jacobian(equations,
    variables) -> matrix": one row per constraint, one column per variable.
    The entry of a constraint and a variable is put in the row and the
    column that the dictionaries built over the two lists keep for them,
    so that of a component listed twice only the last position is
    filled. *)
Definition submatrix_jacobian (p : Values) (vars : list Var)
    (cons : list Constraint) : ndarray R :=
  {| nrow := length cons;
     ncol := length vars;
     item := fun i j =>
       if is_last Constraint_eqb cons i && is_last Var_eqb vars j
       then first_derivative (nth i cons (PyCon 0)) (nth j vars DummyVar) p
       else r0 |}.

(** Modelled from the spec: [nlp.extract_submatrix_jacobian(vars, cons)],
    which first looks the variables up.  The equations the module asks for
    are those of its own lists, which are the equations of the block the
    evaluator was built on; only a variable can be unknown to it.  The
    module reads the sparse matrix it returns through [toarray], [tocsc],
    [dot] and [+] only, so it is given by its dense value. *)
Definition extract_submatrix_jacobian (nlp : NLP) (vars : list Var)
    (cons : list Constraint) : result (ndarray R) :=
  (primal_indices <- get_primal_indices nlp vars ;;
   Ok (submatrix_jacobian (nlp_primals nlp) vars cons))%err.

(** Modelled from the spec: an entry of the Hessian of the Lagrangian of
    the evaluator (whose objective is the constant [0.0]), the
    multiplier-weighted sum of the second derivatives of its equations;
    the entry is held when the structure of one of the equations pairs the
    two variables. *)
Definition hess_lag (nlp : NLP) (u v : Var) : R :=
  rsum (map (fun dc =>
               rmul (fst dc) (second_derivative (snd dc) u v (nlp_primals nlp)))
            (combine (nlp_duals nlp) (nlp_cons nlp))).

Definition hess_lag_struct (nlp : NLP) (u v : Var) : bool :=
  existsb (fun c => structural c u v) (nlp_cons nlp).

(** Modelled from the spec: the coordinate matrix
    [nlp.extract_submatrix_hessian_lag(rows, cols)] returns once the
    variables are looked up: the entries the Hessian holds for a row
    variable and a column variable, each at the position the dictionaries
    built over the two lists keep for them. *)
Definition submatrix_hessian_lag (nlp : NLP) (rows cols : list Var)
  : coo_matrix R :=
  sparse_where (length rows) (length cols)
    (fun i j =>
       is_last Var_eqb rows i && is_last Var_eqb cols j
       && hess_lag_struct nlp (nth i rows DummyVar) (nth j cols DummyVar))
    (fun i j => hess_lag nlp (nth i rows DummyVar) (nth j cols DummyVar)).

(** Modelled from the spec: [nlp.extract_submatrix_hessian_lag(rows, cols)],
    "hessian_of_lagrangian(equations, multipliers, vars1, vars2) -> matrix",
    "the Hessian-of-Lagrangian block restricted to [(v1, v2)]". *)
Definition extract_submatrix_hessian_lag (nlp : NLP) (rows cols : list Var)
  : result (coo_matrix R) :=
  (primal_indices_rows <- get_primal_indices nlp rows ;;
   primal_indices_cols <- get_primal_indices nlp cols ;;
   Ok (submatrix_hessian_lag nlp rows cols))%err.

(* ===================================================================== *)
(** ** [get_hessian_of_constraint] *)
(* ===================================================================== *)

(** The block the function hands to [PyomoNLP]: the subsystem block of
    [constraint] with [_dummy_var], [_dummy_con] and a zero objective
    added. *)
Definition hessian_block (constraint : Constraint) (variables : list Var)
  : Block :=
  let block := create_subsystem_block [constraint] variables in
  let _dummy_con := SumEq variables DummyVar in
  {| block_cons := block_cons block ++ [_dummy_con];
     block_vars := block_vars block ++ [DummyVar];
     block_input_vars := block_input_vars block |}.

(** The three ways of calling the function: the row variables, the column
    variables, and the variables the block is built on. *)
Definition resolve_wrt (constraint : Constraint) (wrt1 wrt2 : option (list Var))
  : list Var * list Var * list Var :=
  match wrt1, wrt2 with
  | None, None =>
      let variables := identify_variables constraint in
      (variables, variables, variables)
  | Some wrt1, Some wrt2 => (wrt1, wrt2, wrt1 ++ wrt2)
  | Some wrt1, None => (wrt1, wrt1, wrt1)
  | None, Some wrt2 => (wrt2, wrt2, wrt2)
  end.

(** The NLP of the padded block with its multipliers set: [1.0] at the
    index of [constraint], [0.0] at the other index. *)
Definition hessian_nlp (values : Values) (constraint : Constraint)
    (variables : list Var) : result NLP :=
  let constraints := [constraint] in
  let block := hessian_block constraint variables in
  (_ <- write_nl block ;;
   let nlp := PyomoNLP block values in
   let duals := [r0; r0] in
   idxs <- get_constraint_indices nlp constraints ;;
   match idxs with
   | [] => Raise IndexError
   | idx :: _ =>
       duals <- list_setitem duals idx r1 ;;
       set_duals nlp duals
   end)%err.

Definition get_hessian_of_constraint (values : Values)
    (constraint : Constraint) (wrt1 wrt2 : option (list Var))
  : result (coo_matrix R) :=
  let '(wrt1, wrt2, variables) := resolve_wrt constraint wrt1 wrt2 in
  (nlp <- hessian_nlp values constraint variables ;;
   extract_submatrix_hessian_lag nlp wrt1 wrt2)%err.

End Evaluation.

Arguments Evaluator R : clear implicits.
Arguments NLP R : clear implicits.
Arguments Values R : clear implicits.

(* ===================================================================== *)
(** ** Sparse LU factorization *)
(* ===================================================================== *)

(** [scipy.sparse.linalg.splu] and the [solve] method of the object it
    returns, on a one-dimensional right-hand side. [lu_factor] answers
    [None] for a matrix it finds singular. *)
Class SparseLU (R : Type) {SR : Scalar R} : Type := {
  LU : Type;
  lu_factor : ndarray R -> option LU;
  lu_solve : LU -> vector R -> vector R
}.
Arguments SparseLU R {SR}.

Section Factorization.
Context {R : Type} {SR : Scalar R} {SLU : SparseLU R}.

(** The [SuperLU] object: the order of the factored matrix and the
    factors. *)
Record SuperLU : Type := {
  lu_n : nat;
  lu_factors : LU
}.

(** [splu(a)], without the bookkeeping of calls. *)
Definition splu_factor (a : ndarray R) : result SuperLU :=
  if nrow a =? ncol a
  then match lu_factor a with
       | Some f => Ok {| lu_n := nrow a; lu_factors := f |}
       | None => Raise RuntimeError
       end
  else Raise ValueError.

(** [fact.solve(vector)] *)
Definition solve (fact : SuperLU) (b : vector R) : result (vector R) :=
  if length b =? lu_n fact
  then Ok (lu_solve (lu_factors fact) b)
  else Raise ValueError.

(** [fact.solve(matrix)]: every column of the right-hand side is solved
    against the same factors. *)
Definition solved_columns (fact : SuperLU) (b : ndarray R) : ndarray R :=
  {| nrow := nrow b;
     ncol := ncol b;
     item := fun i j => nth i (lu_solve (lu_factors fact) (column b j)) r0 |}.

Definition solve_matrix (fact : SuperLU) (b : ndarray R) : result (ndarray R) :=
  if nrow b =? lu_n fact then Ok (solved_columns fact b) else Raise ValueError.

End Factorization.

Arguments SuperLU R {SR SLU}.

(* ===================================================================== *)
(** ** The class [ExternalPyomoModel] *)
(* ===================================================================== *)

Section Model.
Context {R : Type} {SR : Scalar R} {EV : Evaluator R} {SLU : SparseLU R}.

(** What [solver.solve(block)] hands back. *)
Record SolverResults : Type := {
  converged : bool
}.

(** Modelled from the spec: the nested equation solver,
    "solve(equations, free_variables, fixed_variables) -> status, values",
    which "may fail to converge": given a block, the variables held fixed
    and the current values, it either returns results or raises, and in
    both cases leaves the variables at some values. *)
Definition Solver : Type :=
  Block -> list Var -> Values R -> result SolverResults * Values R.

(** The attributes of an [ExternalPyomoModel] instance. *)
Record ExternalPyomoModel : Type := {
  _solver : Solver;
  _block : Block;
  _nlp : NLP R;
  input_vars : list Var;
  external_vars : list Var;
  residual_cons : list Constraint;
  external_cons : list Constraint;
  residual_con_multipliers : list (option R)
}.

(** The mutable world a method runs in: the instance, the values of the
    Pyomo variables, and the number of calls made to [splu] so far. *)
Record World : Type := {
  self : ExternalPyomoModel;
  var_values : Values R;
  splu_calls : nat
}.

(** Methods: state and exceptions; the state reached when an exception is
    raised is kept. *)
Definition M (A : Type) : Type := World -> result A * World.

Definition ret {A} (a : A) : M A := fun w => (Ok a, w).

Definition bind {A B} (c : M A) (k : A -> M B) : M B :=
  fun w =>
    match c w with
    | (Ok a, w') => k a w'
    | (Raise e, w') => (Raise e, w')
    end.

Definition lift {A} (c : result A) : M A := fun w => (c, w).

Definition get_self : M ExternalPyomoModel := fun w => (Ok (self w), w).

Definition get_values : M (Values R) := fun w => (Ok (var_values w), w).

Definition put_values (values : Values R) : M unit :=
  fun w => (Ok tt, {| self := self w; var_values := values;
                      splu_calls := splu_calls w |}).

Definition put_self (s : ExternalPyomoModel) : M unit :=
  fun w => (Ok tt, {| self := s; var_values := var_values w;
                      splu_calls := splu_calls w |}).

Declare Scope method_scope.
Delimit Scope method_scope with method.
Notation "x <- c ;; k" := (bind c (fun x => k))
  (at level 61, c at next level, right associativity) : method_scope.
Notation "c ;;; k" := (bind c (fun _ => k))
  (at level 61, right associativity) : method_scope.

(** [sps.linalg.splu(a)]: every call is counted. *)
Definition splu (a : ndarray R) : M (SuperLU R) :=
  fun w =>
    (splu_factor a,
     {| self := self w; var_values := var_values w;
        splu_calls := S (splu_calls w) |}).

(** [ExternalPyomoModel(input_vars, external_vars, residual_cons,
    external_cons, solver)], called while the variables hold [values];
    [ipopt] is the solver [SolverFactory("ipopt")] provides.  The evaluator
    is built before the lengths are compared. *)
Definition __init__ (ipopt : Solver) (values : Values R)
    (input_vars external_vars : list Var)
    (residual_cons external_cons : list Constraint)
    (solver : option Solver) : result ExternalPyomoModel :=
  let solver := match solver with None => ipopt | Some s => s end in
  let block := create_subsystem_block (residual_cons ++ external_cons)
                                      (input_vars ++ external_vars) in
  (_ <- write_nl block ;;
   let nlp := PyomoNLP block values in
   if length external_vars =? length external_cons
   then Ok {| _solver := solver;
              _block := block;
              _nlp := nlp;
              input_vars := input_vars;
              external_vars := external_vars;
              residual_cons := residual_cons;
              external_cons := external_cons;
              residual_con_multipliers := map (fun _ => None) residual_cons |}
   else Raise AssertionError)%err.

Definition n_inputs (s : ExternalPyomoModel) : nat := length (input_vars s).

Definition n_equality_constraints (s : ExternalPyomoModel) : nat :=
  length (residual_cons s).

Definition with_nlp (s : ExternalPyomoModel) (nlp : NLP R) : ExternalPyomoModel :=
  {| _solver := _solver s; _block := _block s; _nlp := nlp;
     input_vars := input_vars s; external_vars := external_vars s;
     residual_cons := residual_cons s; external_cons := external_cons s;
     residual_con_multipliers := residual_con_multipliers s |}.

Definition with_multipliers (s : ExternalPyomoModel) (ms : list (option R))
  : ExternalPyomoModel :=
  {| _solver := _solver s; _block := _block s; _nlp := _nlp s;
     input_vars := input_vars s; external_vars := external_vars s;
     residual_cons := residual_cons s; external_cons := external_cons s;
     residual_con_multipliers := ms |}.

(** [for var, val in zip(input_vars, input_values): var.set_value(val)] *)
Definition assign_inputs (input_vars : list Var) (input_values : list R)
    (values : Values R) : Values R :=
  fold_left (fun s vv => set_value s (fst vv) (snd vv))
            (combine input_vars input_values) values.

(** [with TemporarySubsystemManager(to_fix=input_vars): solver.solve(_temp)].
    The value [solve] returns is dropped; an exception it raises leaves the
    [with] block (which only restores the fixed flags) and propagates. *)
Definition solve_subsystem (solver : Solver) (_temp : Block)
    (to_fix : list Var) : M unit :=
  fun w =>
    match solver _temp to_fix (var_values w) with
    | (Ok _, values') =>
        (Ok tt, {| self := self w; var_values := values';
                   splu_calls := splu_calls w |})
    | (Raise e, values') =>
        (Raise e, {| self := self w; var_values := values';
                     splu_calls := splu_calls w |})
    end.

(** The last statement rebuilds the evaluator of [self._block], the block
    [__init__] has already built one on; no method changes that block, so
    the evaluator accepts it as it did then ([rebuild_is_accepted]
    below). *)
Definition set_input_values (input_values : list R) : M unit :=
  (self <- get_self ;;
   let solver := _solver self in
   let external_cons := external_cons self in
   let external_vars := external_vars self in
   let input_vars := input_vars self in
   values <- get_values ;;
   put_values (assign_inputs input_vars input_values values) ;;;
   let _temp := create_subsystem_block external_cons external_vars in
   let possible_input_vars := input_vars in
   (if forallb (fun var => var_in var possible_input_vars)
               (block_input_vars _temp)
    then ret tt else lift (Raise AssertionError)) ;;;
   solve_subsystem solver _temp input_vars ;;;
   values <- get_values ;;
   put_self (with_nlp self (PyomoNLP (_block self) values)))%method.

(** [for i, val in enumerate(eq_con_multipliers):
       self.residual_con_multipliers[i] = val] *)
Fixpoint set_multipliers_loop (i : nat) (vals : list R) : M unit :=
  match vals with
  | [] => ret tt
  | val :: rest =>
      (self <- get_self ;;
       ms <- lift (list_setitem (residual_con_multipliers self) i (Some val)) ;;
       put_self (with_multipliers self ms) ;;;
       set_multipliers_loop (S i) rest)%method
  end.

Definition set_equality_constraint_multipliers (eq_con_multipliers : list R)
  : M unit :=
  set_multipliers_loop 0 eq_con_multipliers.

Definition evaluate_equality_constraints : M (vector R) :=
  (self <- get_self ;;
   ret (extract_subvector_constraints (_nlp self) (residual_cons self)))%method.

Definition evaluate_jacobian_equality_constraints : M (coo_matrix R) :=
  (self <- get_self ;;
   let nlp := _nlp self in
   let x := input_vars self in
   let y := external_vars self in
   let f := residual_cons self in
   let g := external_cons self in
   jfx <- lift (extract_submatrix_jacobian nlp x f) ;;
   jfy <- lift (extract_submatrix_jacobian nlp y f) ;;
   jgx <- lift (extract_submatrix_jacobian nlp x g) ;;
   jgy <- lift (extract_submatrix_jacobian nlp y g) ;;
   fact <- splu jgy ;;
   lift (sol <- solve_matrix fact jgx ;;
         let dydx := mneg sol in
         prod <- dot jfy dydx ;;
         dfdx <- madd jfx prod ;;
         _dense_to_full_sparse (PyArray dfdx))%err)%method.

Definition evaluate_jacobian_external_variables : M (ndarray R) :=
  (self <- get_self ;;
   let nlp := _nlp self in
   let x := input_vars self in
   let y := external_vars self in
   let g := external_cons self in
   jgx <- lift (extract_submatrix_jacobian nlp x g) ;;
   jgy <- lift (extract_submatrix_jacobian nlp y g) ;;
   let jgy_csc := jgy in
   fact <- splu jgy_csc ;;
   lift (sol <- solve_matrix fact jgx ;;
         let dydx := mneg sol in
         Ok dydx)%err)%method.

(** [zip] of three and of four lists. *)
Definition zip3 {A B C} (a : list A) (b : list B) (c : list C)
  : list (A * B * C) :=
  combine (combine a b) c.

Definition zip4 {A B C D} (a : list A) (b : list B) (c : list C) (d : list D)
  : list (A * B * C * D) :=
  combine (zip3 a b c) d.

Definition evaluate_hessian_external_variables : M (list (ndarray R)) :=
  (self <- get_self ;;
   let nlp := _nlp self in
   let x := input_vars self in
   let y := external_vars self in
   let g := external_cons self in
   jgx <- lift (extract_submatrix_jacobian nlp x g) ;;
   jgy <- lift (extract_submatrix_jacobian nlp y g) ;;
   let jgy_csc := jgy in
   jgy_fact <- splu jgy_csc ;;
   values <- get_values ;;
   lift (sol <- solve_matrix jgy_fact jgx ;;
         let dydx := mneg sol in
         let ny := length y in
         let nx := length x in
         hgxx <- mapE (fun con =>
                   get_hessian_of_constraint values con (Some x) None) g ;;
         hgxy <- mapE (fun con =>
                   get_hessian_of_constraint values con (Some x) (Some y)) g ;;
         hgyy <- mapE (fun con =>
                   get_hessian_of_constraint values con (Some y) None) g ;;
         let term1 := hgxx in
         term2 <- mapE (fun hessian =>
                    _prod <- dot (toarray hessian) dydx ;;
                    madd _prod (transpose _prod)) hgxy ;;
         term3 <- mapE (fun hessian =>
                    left <- dot (transpose dydx) (toarray hessian) ;;
                    dot left dydx) hgyy ;;
         sum_ <- mapE (fun t =>
                   let '(t1, t2, t3) := t in
                   s12 <- madd (toarray t1) t2 ;;
                   madd s12 t3) (zip3 term1 term2 term3) ;;
         vectors <- mapE (fun i =>
                      mapE (fun j =>
                        mapE (fun matrix => getitem matrix i j) sum_)
                      (range nx)) (range nx) ;;
         solved_vectors <- mapE (fun vlist =>
                             mapE (fun vector => solve jgy_fact vector) vlist)
                           vectors ;;
         d2ydx2 <- mapE (fun i =>
                     rows <- mapE (fun vlist =>
                               mapE (fun vec => vgetitem vec i) vlist)
                             solved_vectors ;;
                     Ok (mneg (array2d rows))) (range ny) ;;
         Ok d2ydx2)%err)%method.

Definition evaluate_hessians_of_residuals : M (list (ndarray R)) :=
  (self <- get_self ;;
   let nlp := _nlp self in
   let x := input_vars self in
   let y := external_vars self in
   let f := residual_cons self in
   let g := external_cons self in
   jfx <- lift (extract_submatrix_jacobian nlp x f) ;;
   jfy <- lift (extract_submatrix_jacobian nlp y f) ;;
   dydx <- evaluate_jacobian_external_variables ;;
   let nf := length f in
   let nx := length x in
   values <- get_values ;;
   hfxx <- lift (mapE (fun con =>
             get_hessian_of_constraint values con (Some x) None) f) ;;
   hfxy <- lift (mapE (fun con =>
             get_hessian_of_constraint values con (Some x) (Some y)) f) ;;
   hfyy <- lift (mapE (fun con =>
             get_hessian_of_constraint values con (Some y) None) f) ;;
   d2ydx2 <- evaluate_hessian_external_variables ;;
   lift (let term1 := hfxx in
         term2 <- mapE (fun hessian =>
                    _prod <- dot (toarray hessian) dydx ;;
                    madd _prod (transpose _prod)) hfxy ;;
         term3 <- mapE (fun hessian =>
                    left <- dot (transpose dydx) (toarray hessian) ;;
                    dot left dydx) hfyy ;;
         vectors <- mapE (fun i =>
                      mapE (fun j =>
                        mapE (fun matrix => getitem matrix i j) d2ydx2)
                      (range nx)) (range nx) ;;
         product_vectors <- mapE (fun vlist =>
                              mapE (fun vector => dotv jfy vector) vlist)
                            vectors ;;
         term4 <- mapE (fun i =>
                    rows <- mapE (fun vlist =>
                              mapE (fun vec => vgetitem vec i) vlist)
                            product_vectors ;;
                    Ok (array2d rows)) (range nf) ;;
         d2fdx2 <- mapE (fun t =>
                     let '(t1, t2, t3, t4) := t in
                     s12 <- madd (toarray t1) t2 ;;
                     s123 <- madd s12 t3 ;;
                     madd s123 t4) (zip4 term1 term2 term3 term4) ;;
         Ok d2fdx2)%err)%method.

(** [mult*matrix], where [mult] may still be the initial [None]. *)
Definition py_mul (mult : option R) (matrix : ndarray R) : result (ndarray R) :=
  match mult with
  | None => Raise TypeError
  | Some c => Ok (mscale c matrix)
  end.

(** [acc + term] inside the builtin [sum], whose accumulator starts as the
    integer [0]. *)
Definition py_add (acc : pyobj R) (term : ndarray R) : result (pyobj R) :=
  match acc with
  | PyInt0 => Ok (PyArray (zero_plus term))
  | PyArray a =>
      match madd a term with
      | Ok s => Ok (PyArray s)
      | Raise e => Raise e
      end
  end.

(** [sum(mult*matrix for mult, matrix in pairs)] from accumulator [acc]. *)
Fixpoint py_sum (pairs : list (option R * ndarray R)) (acc : pyobj R)
  : result (pyobj R) :=
  match pairs with
  | [] => Ok acc
  | (mult, matrix) :: rest =>
      (term <- py_mul mult matrix ;;
       acc' <- py_add acc term ;;
       py_sum rest acc')%err
  end.

Definition evaluate_hessian_equality_constraints : M (coo_matrix R) :=
  (d2fdx2 <- evaluate_hessians_of_residuals ;;
   self <- get_self ;;
   let multipliers := residual_con_multipliers self in
   lift (sum_ <- py_sum (combine multipliers d2fdx2) PyInt0 ;;
         sparse <- _dense_to_full_sparse sum_ ;;
         Ok (tril sparse))%err)%method.

End Model.

Arguments ExternalPyomoModel R : clear implicits.
Arguments World R : clear implicits.
Arguments Solver R : clear implicits.
Arguments M R : clear implicits.

(* ===================================================================== *)
(** ** Specification-level notions *)
(* ===================================================================== *)

(** The formulas of the implicit function theorem, written on entries as
    the specification states them; the theorems below compare what the
    methods compute with these. *)
Section Specification.
Context {R : Type} {SR : Scalar R} {EV : Evaluator R} {SLU : SparseLU R}.

(** Matrices as entry functions, with the inner dimension of a product
    given explicitly. *)
Definition spec_mul (n : nat) (a b : nat -> nat -> R) : nat -> nat -> R :=
  fun i j => rsum (map (fun k => rmul (a i k) (b k j)) (range n)).

Definition spec_T (a : nat -> nat -> R) : nat -> nat -> R :=
  fun i j => a j i.

Definition spec_add (a b : nat -> nat -> R) : nat -> nat -> R :=
  fun i j => radd (a i j) (b i j).

(** [H_xx + (H_xy.J + J^T.H_xy^T) + J^T.H_yy.J] with [J] of [ny] rows. *)
Definition spec_second_order (ny : nat) (hxx hxy hyy j : nat -> nat -> R)
  : nat -> nat -> R :=
  spec_add
    (spec_add hxx (spec_add (spec_mul ny hxy j)
                            (spec_mul ny (spec_T j) (spec_T hxy))))
    (spec_mul ny (spec_mul ny (spec_T j) hyy) j).

(** [sum_i lam_i * H_i] at entry [(a, b)]. *)
Definition spec_weighted_sum (lam : list R) (hs : list (ndarray R))
  : nat -> nat -> R :=
  fun a b => rsum (map (fun p => rmul (fst p) (item (snd p) a b))
                       (combine lam hs)).

(** The lower-triangular coordinates of an [n]-by-[n] matrix, row by row. *)
Definition lower_triangle (n : nat) : list (nat * nat) :=
  filter (fun ij => snd ij <=? fst ij) (product (range n) (range n)).

(** The evaluator knows the variables of a list: each appears in one of
    its equations. *)
Definition known (nlp : NLP R) (variables : list Var) : Prop :=
  forall v, In v variables -> In v (nlp_vars nlp).

(** The constraint-level Hessian block [d2c/d(rows)d(cols)] at [values]:
    the second derivative of [c] alone with respect to the row and the
    column variable, at the position the evaluator keeps for a variable
    (its last one in the list, the only one when no variable is
    repeated). *)
Definition spec_hessian (values : Values R) (c : Constraint)
    (rows cols : list Var) : nat -> nat -> R :=
  fun a b =>
    if is_last Var_eqb rows a && is_last Var_eqb cols b
    then second_derivative c (nth a rows DummyVar) (nth b cols DummyVar) values
    else r0.

(** The coordinate matrix [get_hessian_of_constraint] returns for [c], and
    the dense block the module computes with. *)
Definition constraint_hessian_coo (values : Values R) (c : Constraint)
    (wrt1 wrt2 : option (list Var)) : coo_matrix R :=
  match get_hessian_of_constraint values c wrt1 wrt2 with
  | Ok h => h
  | Raise _ => {| coo_shape := (0, 0); coo_row := []; coo_col := [];
                  coo_data := [] |}
  end.

Definition constraint_hessian_block (values : Values R) (c : Constraint)
    (wrt1 wrt2 : option (list Var)) : ndarray R :=
  toarray (constraint_hessian_coo values c wrt1 wrt2).

Definition constraint_hessian (values : Values R) (c : Constraint)
    (wrt1 wrt2 : option (list Var)) : nat -> nat -> R :=
  item (constraint_hessian_block values c wrt1 wrt2).

(** The four Jacobian blocks of the instance's evaluator. *)
Definition jac_fx (s : ExternalPyomoModel R) : ndarray R :=
  submatrix_jacobian (nlp_primals (_nlp s)) (input_vars s) (residual_cons s).
Definition jac_fy (s : ExternalPyomoModel R) : ndarray R :=
  submatrix_jacobian (nlp_primals (_nlp s)) (external_vars s) (residual_cons s).
Definition jac_gx (s : ExternalPyomoModel R) : ndarray R :=
  submatrix_jacobian (nlp_primals (_nlp s)) (input_vars s) (external_cons s).
Definition jac_gy (s : ExternalPyomoModel R) : ndarray R :=
  submatrix_jacobian (nlp_primals (_nlp s)) (external_vars s) (external_cons s).

(** [dy/dx] as the solution of the factored system: entry [(k, j)] is minus
    the [k]-th component of the solve against column [j] of [dg/dx]. *)
Definition spec_dydx (s : ExternalPyomoModel R) (fact : SuperLU R)
  : nat -> nat -> R :=
  fun k j => ropp (nth k (lu_solve (lu_factors fact) (column (jac_gx s) j)) r0).

(** The second-order formulas on the derivatives of the constraints:
    the three-term decomposition of an equation [c], the component [k] of
    [d2y/dx2], and the second derivative of the residual [i]. *)
Definition spec_three_terms (values : Values R) (s : ExternalPyomoModel R)
    (fact : SuperLU R) (c : Constraint) : nat -> nat -> R :=
  let x := input_vars s in
  let y := external_vars s in
  spec_second_order (length y)
    (spec_hessian values c x x)
    (spec_hessian values c x y)
    (spec_hessian values c y y)
    (spec_dydx s fact).

Definition spec_d2ydx2 (values : Values R) (s : ExternalPyomoModel R)
    (fact : SuperLU R) (k : nat) : nat -> nat -> R :=
  fun a b =>
    ropp (nth k (lu_solve (lu_factors fact)
                   (map (fun c => spec_three_terms values s fact c a b)
                        (external_cons s))) r0).

Definition spec_d2fdx2 (values : Values R) (s : ExternalPyomoModel R)
    (fact : SuperLU R) (i : nat) : nat -> nat -> R :=
  fun a b =>
    radd (spec_three_terms values s fact (nth i (residual_cons s) (PyCon 0)) a b)
         (rsum (map (fun k => rmul (item (jac_fy s) i k)
                                   (spec_d2ydx2 values s fact k a b))
                    (range (length (external_vars s))))).

(** *** The values the methods compute when no exception is raised *)

Definition dydx_matrix (s : ExternalPyomoModel R) (fact : SuperLU R)
  : ndarray R :=
  mneg (solved_columns fact (jac_gx s)).

Definition term2_of (dydx hessian : ndarray R) : ndarray R :=
  let _prod := matmul hessian dydx in
  matadd _prod (transpose _prod).

Definition term3_of (dydx hessian : ndarray R) : ndarray R :=
  matmul (matmul (transpose dydx) hessian) dydx.

Definition sum_of (values : Values R) (s : ExternalPyomoModel R)
    (dydx : ndarray R) (con : Constraint) : ndarray R :=
  let x := input_vars s in
  let y := external_vars s in
  matadd
    (matadd (constraint_hessian_block values con (Some x) None)
            (term2_of dydx (constraint_hessian_block values con (Some x) (Some y))))
    (term3_of dydx (constraint_hessian_block values con (Some y) None)).

Definition entry_vectors (nx : nat) (ms : list (ndarray R))
  : list (list (vector R)) :=
  map (fun i => map (fun j => map (fun matrix => item matrix i j) ms) (range nx))
      (range nx).

Definition component_rows (vss : list (list (vector R))) (i : nat)
  : list (list R) :=
  map (fun vlist => map (fun vec => nth i vec r0) vlist) vss.

Definition d2ydx2_of (values : Values R) (s : ExternalPyomoModel R)
    (fact : SuperLU R) : list (ndarray R) :=
  let nx := length (input_vars s) in
  let ny := length (external_vars s) in
  let sum_ := map (sum_of values s (dydx_matrix s fact)) (external_cons s) in
  let solved_vectors :=
    map (fun vlist => map (fun vector => lu_solve (lu_factors fact) vector) vlist)
        (entry_vectors nx sum_) in
  map (fun i => mneg (array2d (component_rows solved_vectors i))) (range ny).

Definition d2fdx2_of (values : Values R) (s : ExternalPyomoModel R)
    (fact : SuperLU R) : list (ndarray R) :=
  let nx := length (input_vars s) in
  let nf := length (residual_cons s) in
  let product_vectors :=
    map (fun vlist => map (fun vector => matvec (jac_fy s) vector) vlist)
        (entry_vectors nx (d2ydx2_of values s fact)) in
  map (fun i =>
         matadd (sum_of values s (dydx_matrix s fact)
                        (nth i (residual_cons s) (PyCon 0)))
                (array2d (component_rows product_vectors i)))
      (range nf).

(** The arithmetic the second-order formulas are read with: [0] neutral for
    the sum, [1] for the product, and a commutative product. *)
Definition second_order_laws : Prop :=
  (forall a : R, radd r0 a = a) /\
  (forall a : R, radd a r0 = a) /\
  (forall a : R, rmul r1 a = a) /\
  rmul r0 r0 = r0 /\
  (forall u v : R, rmul u v = rmul v u).

(** The world after [n] more calls of [splu]. *)
Definition count_splu (n : nat) (w : World R) : World R :=
  {| self := self w; var_values := var_values w;
     splu_calls := n + splu_calls w |}.

(** The evaluator of the model knows every input and external variable. *)
Definition evaluable (s : ExternalPyomoModel R) : Prop :=
  known (_nlp s) (input_vars s) /\ known (_nlp s) (external_vars s).

(** A method that changes nothing but the count of [splu] calls, makes at
    most [n] of them, and exactly [n] when it returns. *)
Definition factors {A} (n : nat) (c : M R A) : Prop :=
  forall w, exists k,
    snd (c w) = count_splu k w /\ k <= n /\
    forall r, fst (c w) = Ok r -> k = n.

End Specification.

(* ===================================================================== *)
(** ** Names, and queries *)
(* ===================================================================== *)

Section Names.
Context {R : Type}.

(** ["prefix%i" % i]: the prefix followed by the decimal digits of [i]. *)
Definition format_index (prefix : string) (i : nat) : string :=
  String.append prefix (DecimalString.NilEmpty.string_of_uint (Nat.to_uint i)).

Definition input_names (s : ExternalPyomoModel R) : list string :=
  map (fun i => format_index "input_" i) (range (n_inputs s)).

Definition equality_constraint_names (s : ExternalPyomoModel R) : list string :=
  map (fun i => format_index "residual_" i) (range (n_equality_constraints s)).

(** A method that reads the instance and the variables and, apart from
    counting the factorizations it makes, writes nothing: from a given
    instance and given values it always returns the same result and makes
    the same number of [splu] calls. *)
Definition read_only {A} (c : M R A) : Prop :=
  forall s v, exists r k, forall n,
    c {| self := s; var_values := v; splu_calls := n |}
    = (r, {| self := s; var_values := v; splu_calls := k + n |}).

End Names.

(* ===================================================================== *)
(** ** Sequences of calls *)
(* ===================================================================== *)

Section Calls.
Context {R : Type} {SR : Scalar R} {EV : Evaluator R} {SLU : SparseLU R}.

(** A call of one of the methods that set or evaluate the model. *)
Inductive call : Type :=
| CallSetInputValues (input_values : list R)
| CallSetMultipliers (eq_con_multipliers : list R)
| CallEqualityConstraints
| CallJacobianEqualityConstraints
| CallJacobianExternalVariables
| CallHessianExternalVariables
| CallHessiansOfResiduals
| CallHessianEqualityConstraints.

(** The world a call leaves, whether it returns or raises; a caller that
    catches the exception goes on from there. *)
Definition run_call (c : call) (w : World R) : World R :=
  match c with
  | CallSetInputValues input_values => snd (set_input_values input_values w)
  | CallSetMultipliers lam => snd (set_equality_constraint_multipliers lam w)
  | CallEqualityConstraints => snd (evaluate_equality_constraints w)
  | CallJacobianEqualityConstraints =>
      snd (evaluate_jacobian_equality_constraints w)
  | CallJacobianExternalVariables =>
      snd (evaluate_jacobian_external_variables w)
  | CallHessianExternalVariables =>
      snd (evaluate_hessian_external_variables w)
  | CallHessiansOfResiduals => snd (evaluate_hessians_of_residuals w)
  | CallHessianEqualityConstraints =>
      snd (evaluate_hessian_equality_constraints w)
  end.

Definition run_calls (calls : list call) (w : World R) : World R :=
  fold_left (fun w c => run_call c w) calls w.

End Calls.

(* ===================================================================== *)
(** ** A concrete instance *)
(* ===================================================================== *)

(** Integer scalars, inputs [x0], [x1], one external variable [y], the
    residual [f = x0*y + y*y + x0*x1] and the external equation
    [g = y - x0*x0], whose solution is [y = x0*x0]; [x3] is a variable that
    appears in neither equation. *)
Module Toy.

#[export] Instance ZScalar : Scalar Z :=
  {| r0 := 0%Z; r1 := 1%Z; radd := Z.add; rmul := Z.mul; ropp := Z.opp |}.

Definition x0 : Var := PyVar 0.
Definition x1 : Var := PyVar 2.
Definition y : Var := PyVar 1.
Definition x3 : Var := PyVar 3.
Definition f : Constraint := PyCon 0.
Definition g : Constraint := PyCon 1.

Definition same (a b : Var) : bool := if Var_eq_dec a b then true else false.

Definition toy_vars (id : nat) : list Var :=
  match id with
  | 0 => [x0; y; x1]
  | 1 => [x0; y]
  | _ => []
  end.

Definition toy_all_vars (c : Constraint) : list Var :=
  match c with
  | PyCon id => toy_vars id
  | SumEq vs rhs => vs ++ [rhs]
  end.

Definition toy_input_vars (cons : list Constraint) (vars : list Var) : list Var :=
  nodup Var_eq_dec
    (filter (fun v => negb (var_in v vars)) (flat_map toy_all_vars cons)).

Definition toy_value (c : Constraint) (s : Values Z) : Z :=
  match c with
  | PyCon 0 => s x0 * s y + s y * s y + s x0 * s x1
  | PyCon 1 => s y - s x0 * s x0
  | PyCon _ => 0
  | SumEq vs rhs => fold_left Z.add (map s vs) 0 - s rhs
  end%Z.

Definition toy_jac (c : Constraint) (v : Var) (s : Values Z) : Z :=
  match c with
  | PyCon 0 =>
      if same v x0 then s y + s x1
      else if same v y then s x0 + 2 * s y
      else if same v x1 then s x0 else 0
  | PyCon 1 =>
      if same v x0 then - (2 * s x0) else if same v y then 1 else 0
  | PyCon _ => 0
  | SumEq vs rhs =>
      Z.of_nat (count_occ Var_eq_dec vs v) - (if same v rhs then 1 else 0)
  end%Z.

Definition toy_hess (c : Constraint) (u v : Var) (s : Values Z) : Z :=
  match c with
  | PyCon 0 =>
      if (same u x0 && same v y) || (same u y && same v x0) then 1
      else if (same u x0 && same v x1) || (same u x1 && same v x0) then 1
      else if same u y && same v y then 2 else 0
  | PyCon 1 => if same u x0 && same v x0 then -2 else 0
  | PyCon _ => 0
  | SumEq _ _ => 0
  end%Z.

(** The pairs of variables that the bodies multiply: [x0*y], [y*y] and
    [x0*x1] in [f], [x0*x0] in [g]. *)
Definition toy_struct (id : nat) (u v : Var) : bool :=
  match id with
  | 0 => (same u x0 && same v y) || (same u y && same v x0)
         || (same u x0 && same v x1) || (same u x1 && same v x0)
         || (same u y && same v y)
  | 1 => same u x0 && same v x0
  | _ => false
  end.

#[export] Instance ZEvaluator : Evaluator Z :=
  {| con_vars := toy_vars;
     subsystem_input_vars := toy_input_vars;
     nl_order := fun l => l;
     con_value := toy_value;
     con_jac := toy_jac;
     con_hess := toy_hess;
     hess_struct := toy_struct |}.

(** Factorization of one-by-one matrices over the integers: the matrix
    [[0]] is singular, and a unit entry is its own inverse; the instance is
    used at those. *)
Definition toy_factor (a : ndarray Z) : option Z :=
  if (nrow a =? 1) && (ncol a =? 1)
  then (if Z.eqb (Z.abs (item a 0 0)) 1 then Some (item a 0 0) else None)
  else None.

#[export] Instance ZLU : SparseLU Z :=
  {| LU := Z; lu_factor := toy_factor;
     lu_solve := fun p b => map (Z.mul p) b |}.

(** A solver that puts [y] at [x0*x0], and raises for a negative [x0]. *)
Definition toy_solver : Solver Z :=
  fun _ _ s =>
    if (s x0 <? 0)%Z then (Raise (SolverFailure 1), s)
    else (Ok {| converged := true |}, set_value s y (s x0 * s x0)%Z).

(** A solver that gives up without raising. *)
Definition lazy_solver : Solver Z :=
  fun _ _ s => (Ok {| converged := false |}, s).

Definition values0 : Values Z := fun _ => 1%Z.

Definition model0 : result (ExternalPyomoModel Z) :=
  __init__ toy_solver values0 [x0; x1] [y] [f] [g] None.

(** The external equation alone, without residual equations. *)
Definition model_no_residuals : result (ExternalPyomoModel Z) :=
  __init__ toy_solver values0 [x0] [y] [] [g] None.

(** The partition with a third input, [x3], that no equation mentions. *)
Definition model_unused : result (ExternalPyomoModel Z) :=
  __init__ toy_solver values0 [x0; x1; x3] [y] [f] [g] None.

(** A solver for the partition that takes [x0] for the external variable:
    it puts [x0] at the square root of [y]. *)
Definition root_solver : Solver Z :=
  fun _ _ s => (Ok {| converged := true |}, set_value s x0 (Z.sqrt (s y))).

Definition model_root : result (ExternalPyomoModel Z) :=
  __init__ toy_solver values0 [y; x1] [x0] [f] [g] (Some root_solver).

(** The same partition with the solver that gives up. *)
Definition model_lazy : result (ExternalPyomoModel Z) :=
  __init__ toy_solver values0 [x0; x1] [y] [f] [g] (Some lazy_solver).

Definition empty_model : ExternalPyomoModel Z :=
  {| _solver := toy_solver;
     _block := create_subsystem_block [] [];
     _nlp := PyomoNLP (create_subsystem_block [] []) values0;
     input_vars := []; external_vars := [];
     residual_cons := []; external_cons := [];
     residual_con_multipliers := [] |}.

(** The world right after a construction. *)
Definition fresh_world (m : result (ExternalPyomoModel Z)) : World Z :=
  {| self := match m with Ok m => m | Raise _ => empty_model end;
     var_values := values0;
     splu_calls := 0 |}.

Definition w_fresh : World Z := fresh_world model0.

(** The world after [set_input_values([2, 5])] and
    [set_equality_constraint_multipliers([3])]. *)
Definition w_ready : World Z :=
  snd (set_equality_constraint_multipliers [3%Z]
         (snd (set_input_values [2%Z; 5%Z] w_fresh))).

Definition w_no_residuals : World Z :=
  snd (set_input_values [2%Z] (fresh_world model_no_residuals)).

(** The world of the model with the unused input after
    [set_input_values([2, 5, 7])] and
    [set_equality_constraint_multipliers([3])]. *)
Definition w_unused : World Z :=
  snd (set_equality_constraint_multipliers [3%Z]
         (snd (set_input_values [2%Z; 5%Z; 7%Z] (fresh_world model_unused)))).

(** The world of the model solved for [x0] after [set_input_values([0, 5])]
    and [set_equality_constraint_multipliers([3])]: there [x0 = 0] and
    [dg/dx0 = -2*x0] is the singular [[0]]. *)
Definition w_singular : World Z :=
  snd (set_equality_constraint_multipliers [3%Z]
         (snd (set_input_values [0%Z; 5%Z] (fresh_world model_root)))).

(** The factors of [dg/dy = [[1]]]. *)
Definition fact1 : SuperLU Z := {| lu_n := 1; lu_factors := 1%Z |}.

End Toy.

(* ===================================================================== *)
(** * Properties *)
(* ===================================================================== *)

(** ** Lists, comprehensions and products *)

Section ListFacts.
Context {A B : Type}.

Lemma mapE_ok (f : A -> result B) (g : A -> B) (l : list A) :
  (forall a, In a l -> f a = Ok (g a)) -> mapE f l = Ok (map g l).
Proof.
  induction l as [|a l IH]; intros Hf; simpl; [reflexivity|].
  rewrite (Hf a (or_introl eq_refl)), IH; [reflexivity|].
  intros a' Ha'. apply Hf. now right.
Qed.

Lemma in_product (xs : list A) (ys : list B) (x : A) (y : B) :
  In (x, y) (product xs ys) <-> In x xs /\ In y ys.
Proof.
  unfold product. rewrite in_flat_map. split.
  - intros (x' & Hx' & Hin). apply in_map_iff in Hin.
    destruct Hin as (y' & Heq & Hy'). inversion Heq; subst. now split.
  - intros [Hx Hy]. exists x. split; [assumption|].
    apply in_map_iff. now exists y.
Qed.

Lemma NoDup_product (xs : list A) (ys : list B) :
  NoDup xs -> NoDup ys -> NoDup (product xs ys).
Proof.
  intros Hxs Hys. induction Hxs as [|x xs Hx Hxs IH]; simpl; [constructor|].
  apply NoDup_app.
  - apply Finite.Injective_map_NoDup; [|assumption].
    intros y1 y2 Heq. now inversion Heq.
  - exact IH.
  - intros [x' y'] Hin1 Hin2. apply in_map_iff in Hin1.
    destruct Hin1 as (y1 & Heq & _). inversion Heq; subst.
    apply (in_product xs ys x' y') in Hin2. now destruct Hin2.
Qed.

Lemma length_product (xs : list A) (ys : list B) :
  length (product xs ys) = length xs * length ys.
Proof.
  induction xs as [|x xs IH]; simpl; [reflexivity|].
  now rewrite length_app, length_map, IH.
Qed.

Lemma combine_fst_snd (l : list (A * B)) :
  combine (map fst l) (map snd l) = l.
Proof.
  induction l as [|[a b] l IH]; simpl; [reflexivity|]. now rewrite IH.
Qed.

Lemma combine_map_r (f : A -> B) (l : list A) :
  combine l (map f l) = map (fun a => (a, f a)) l.
Proof.
  induction l as [|a l IH]; simpl; [reflexivity|]. now rewrite IH.
Qed.

End ListFacts.

Lemma in_range (n i : nat) : In i (range n) <-> i < n.
Proof. unfold range. rewrite in_seq. lia. Qed.

Lemma length_range (n : nat) : length (range n) = n.
Proof. apply length_seq. Qed.

Lemma NoDup_range (n : nat) : NoDup (range n).
Proof. apply seq_NoDup. Qed.

Lemma nth_range (n i d : nat) : i < n -> nth i (range n) d = i.
Proof. intros Hi. unfold range. now rewrite seq_nth. Qed.

(** ** The sparse-fill conversion *)

Section SparseFill.
Context {R : Type} {SR : Scalar R}.

Lemma fill_loop_ok (m : ndarray R) (ijs : list (nat * nat)) :
  (forall i j, In (i, j) ijs -> i < nrow m /\ j < ncol m) ->
  forall row col data,
    fill_loop (PyArray m) ijs (row, col, data)
    = Ok (row ++ map fst ijs, col ++ map snd ijs,
          data ++ map (fun ij => item m (fst ij) (snd ij)) ijs).
Proof.
  induction ijs as [|[i j] ijs IH]; intros Hin row col data; simpl.
  - now rewrite !app_nil_r.
  - destruct (Hin i j (or_introl eq_refl)) as [Hi Hj].
    unfold getitem.
    apply Nat.ltb_lt in Hi, Hj. rewrite Hi, Hj. simpl.
    rewrite IH by (intros; apply Hin; now right).
    now rewrite <- !app_assoc.
Qed.

Lemma dense_to_full_sparse_eq (m : ndarray R) :
  _dense_to_full_sparse (PyArray m) = Ok (full_sparse (nrow m) (ncol m) (item m)).
Proof.
  unfold _dense_to_full_sparse. simpl.
  rewrite fill_loop_ok.
  - reflexivity.
  - intros i j Hin. apply in_product in Hin. now rewrite !in_range in Hin.
Qed.

Lemma coords_full_sparse (nr nc : nat) (f : nat -> nat -> R) :
  coords (full_sparse nr nc f) = product (range nr) (range nc).
Proof. unfold coords, full_sparse. simpl. apply combine_fst_snd. Qed.

Lemma entries_full_sparse (nr nc : nat) (f : nat -> nat -> R) :
  entries (full_sparse nr nc f)
  = map (fun ij => (ij, f (fst ij) (snd ij))) (product (range nr) (range nc)).
Proof.
  unfold entries. rewrite coords_full_sparse. simpl. apply combine_map_r.
Qed.

Lemma in_entries_full_sparse (nr nc : nat) (f : nat -> nat -> R) i j v :
  In (i, j, v) (entries (full_sparse nr nc f))
  <-> i < nr /\ j < nc /\ v = f i j.
Proof.
  rewrite entries_full_sparse, in_map_iff. split.
  - intros ([i' j'] & Heq & Hin). inversion Heq; subst.
    apply in_product in Hin. rewrite !in_range in Hin. tauto.
  - intros (Hi & Hj & ->). exists (i, j). split; [reflexivity|].
    apply in_product. now rewrite !in_range.
Qed.

(** C4. For a dense matrix of any shape, [_dense_to_full_sparse] succeeds
    and returns a coordinate-format matrix of the same shape whose explicit
    coordinates are, without repetition, exactly the pairs [(i, j)] with
    [i < nrow] and [j < ncol], each stored with the dense entry at
    [(i, j)], whatever the values of the entries are. *)
Theorem dense_to_full_sparse_full_pattern (m : ndarray R) :
  exists s,
    _dense_to_full_sparse (PyArray m) = Ok s /\
    coo_shape s = (nrow m, ncol m) /\
    length (coo_row s) = nrow m * ncol m /\
    length (coo_col s) = nrow m * ncol m /\
    length (coo_data s) = nrow m * ncol m /\
    NoDup (coords s) /\
    (forall i j, In (i, j) (coords s) <-> i < nrow m /\ j < ncol m) /\
    (forall i j v,
        In (i, j, v) (entries s) <-> i < nrow m /\ j < ncol m /\ v = item m i j).
Proof.
  exists (full_sparse (nrow m) (ncol m) (item m)).
  split; [apply dense_to_full_sparse_eq|].
  split; [reflexivity|].
  assert (Hlen : length (product (range (nrow m)) (range (ncol m)))
                 = nrow m * ncol m)
    by now rewrite length_product, !length_range.
  repeat split; simpl; rewrite ?length_map; try exact Hlen.
  - rewrite coords_full_sparse. apply NoDup_product; apply NoDup_range.
  - rewrite coords_full_sparse in H. apply in_product in H.
    rewrite !in_range in H. tauto.
  - rewrite coords_full_sparse in H. apply in_product in H.
    rewrite !in_range in H. tauto.
  - intros [Hi Hj]. rewrite coords_full_sparse. apply in_product.
    now rewrite !in_range.
  - apply (in_entries_full_sparse (nrow m) (ncol m) (item m)) in H. tauto.
  - apply (in_entries_full_sparse (nrow m) (ncol m) (item m)) in H. tauto.
  - apply (in_entries_full_sparse (nrow m) (ncol m) (item m)) in H. tauto.
  - intros H. now apply in_entries_full_sparse.
Qed.

End SparseFill.

(** ** What the evaluator knows and keeps *)

Section EvaluatorFacts.
Context {R : Type} {SR : Scalar R} {EV : Evaluator R}.

Lemma is_last_lt {A} (eqb : A -> A -> bool) (l : list A) (i : nat) :
  is_last eqb l i = true -> i < length l.
Proof.
  unfold is_last. destruct (nth_error l i) eqn:E; [|discriminate].
  intros _. apply nth_error_Some. congruence.
Qed.

Lemma Var_eqb_eq (a b : Var) : Var_eqb a b = true <-> a = b.
Proof. unfold Var_eqb. destruct (Var_eq_dec a b); split; congruence. Qed.

Lemma Constraint_eqb_eq (a b : Constraint) : Constraint_eqb a b = true <-> a = b.
Proof.
  unfold Constraint_eqb. destruct (Constraint_eq_dec a b); split; congruence.
Qed.

(** In a list without repetition every position is the last of its
    component. *)
Lemma is_last_NoDup {A} (eqb : A -> A -> bool) (l : list A) (i : nat) :
  (forall a b, eqb a b = true <-> a = b) ->
  NoDup l -> i < length l -> is_last eqb l i = true.
Proof.
  intros Heq Hnd Hi. unfold is_last.
  destruct (nth_error l i) as [a|] eqn:E;
    [|apply nth_error_None in E; lia].
  apply negb_true_iff. apply not_true_is_false. intros Hex.
  apply existsb_exists in Hex. destruct Hex as (b & Hin & Hab).
  apply Heq in Hab. subst b.
  apply In_nth_error in Hin. destruct Hin as [k Hk].
  rewrite nth_error_skipn in Hk.
  rewrite NoDup_nth_error in Hnd.
  assert (i = S i + k); [|lia].
  apply Hnd; [exact Hi | congruence].
Qed.

Lemma var_index_in (v : Var) (l : list Var) :
  In v l -> exists i, var_index v l = Some i.
Proof.
  induction l as [|a l IH]; intros Hin; [contradiction|].
  simpl. destruct (Var_eq_dec v a) as [|Hne]; [now exists 0|].
  destruct Hin as [-> | Hin]; [contradiction|].
  destruct (IH Hin) as [i Hi]. rewrite Hi. now exists (S i).
Qed.

Lemma var_index_out (v : Var) (l : list Var) :
  ~ In v l -> var_index v l = None.
Proof.
  induction l as [|a l IH]; intros Hout; [reflexivity|].
  simpl. destruct (Var_eq_dec v a) as [-> | Hne].
  - exfalso. apply Hout. now left.
  - rewrite IH; [reflexivity|]. intros Hin. apply Hout. now right.
Qed.

(** The evaluator looks up the variables it knows, and raises [KeyError]
    at the first one it does not. *)
Lemma get_primal_indices_known (nlp : NLP R) (variables : list Var) :
  known nlp variables ->
  exists idx, get_primal_indices nlp variables = Ok idx.
Proof.
  unfold get_primal_indices, known.
  induction variables as [|v vs IH]; intros Hk; [now exists []|].
  cbn [mapE].
  destruct (var_index_in v (nlp_vars nlp)) as [i Hi]; [apply Hk; now left|].
  rewrite Hi.
  destruct IH as [idx Hidx]; [intros u Hu; apply Hk; now right|].
  rewrite Hidx. now exists (i :: idx).
Qed.

Lemma get_primal_indices_unknown (nlp : NLP R) (variables : list Var) :
  ~ known nlp variables ->
  get_primal_indices nlp variables = Raise KeyError.
Proof.
  unfold get_primal_indices, known.
  induction variables as [|v vs IH]; intros Hk.
  - exfalso. apply Hk. intros u [].
  - cbn [mapE].
    destruct (in_dec Var_eq_dec v (nlp_vars nlp)) as [Hin | Hout].
    + destruct (var_index_in v (nlp_vars nlp) Hin) as [i Hi]. rewrite Hi.
      rewrite IH; [reflexivity|].
      intros Hvs. apply Hk. intros u [<- | Hu]; [exact Hin | now apply Hvs].
    + now rewrite (var_index_out _ _ Hout).
Qed.

Lemma known_dec (nlp : NLP R) (variables : list Var) :
  known nlp variables \/ ~ known nlp variables.
Proof.
  unfold known. induction variables as [|v vs IH].
  - left. intros u [].
  - destruct (in_dec Var_eq_dec v (nlp_vars nlp)) as [Hin | Hout].
    + destruct IH as [IH | IH].
      * left. intros u [<- | Hu]; [exact Hin | now apply IH].
      * right. intros H. apply IH. intros u Hu. apply H. now right.
    + right. intros H. apply Hout. apply H. now left.
Qed.

Lemma get_primal_indices_raises (nlp : NLP R) (variables : list Var)
    (e : PyError) :
  get_primal_indices nlp variables = Raise e ->
  e = KeyError /\ ~ known nlp variables.
Proof.
  intros H. destruct (known_dec nlp variables) as [Hk | Hk].
  - destruct (get_primal_indices_known Hk) as [idx Hidx]. congruence.
  - rewrite (get_primal_indices_unknown Hk) in H. inversion H. now split.
Qed.

Lemma extract_submatrix_jacobian_known (nlp : NLP R) (vars : list Var)
    (cons : list Constraint) :
  known nlp vars ->
  extract_submatrix_jacobian nlp vars cons
  = Ok (submatrix_jacobian (nlp_primals nlp) vars cons).
Proof.
  intros Hk. unfold extract_submatrix_jacobian.
  destruct (get_primal_indices_known Hk) as [idx ->]. reflexivity.
Qed.

Lemma extract_submatrix_jacobian_unknown (nlp : NLP R) (vars : list Var)
    (cons : list Constraint) :
  ~ known nlp vars ->
  extract_submatrix_jacobian nlp vars cons = Raise KeyError.
Proof.
  intros Hk. unfold extract_submatrix_jacobian.
  now rewrite (get_primal_indices_unknown Hk).
Qed.

(** Without repetition in the two lists, the dense value of the extracted
    Jacobian holds the derivative of each constraint with respect to each
    variable. *)
Lemma submatrix_jacobian_entry (p : Values R) (vars : list Var)
    (cons : list Constraint) (i j : nat) :
  NoDup cons -> NoDup vars -> i < length cons -> j < length vars ->
  item (submatrix_jacobian p vars cons) i j
  = first_derivative (nth i cons (PyCon 0)) (nth j vars DummyVar) p.
Proof.
  intros Hc Hv Hi Hj. cbn [item submatrix_jacobian].
  rewrite (is_last_NoDup _ Constraint_eqb_eq Hc Hi).
  now rewrite (is_last_NoDup _ Var_eqb_eq Hv Hj).
Qed.

(** *** Coordinate matrices read densely *)

Lemma find_map_key {K V} (test : K -> bool) (h : K -> V) (l : list K) :
  find (fun e => test (fst e)) (map (fun k => (k, h k)) l)
  = option_map (fun k => (k, h k)) (find test l).
Proof.
  induction l as [|k l IH]; [reflexivity|].
  cbn [map find fst]. destruct (test k); [reflexivity | exact IH].
Qed.

Lemma entries_sparse_where (nr nc : nat) (keep : nat -> nat -> bool)
    (f : nat -> nat -> R) :
  entries (sparse_where nr nc keep f)
  = map (fun ij => (ij, f (fst ij) (snd ij)))
        (filter (fun ij => keep (fst ij) (snd ij))
                (product (range nr) (range nc))).
Proof.
  unfold entries, coords, sparse_where. cbn [coo_row coo_col coo_data].
  rewrite combine_fst_snd. apply combine_map_r.
Qed.

Lemma coords_sparse_where (nr nc : nat) (keep : nat -> nat -> bool)
    (f : nat -> nat -> R) :
  coords (sparse_where nr nc keep f)
  = filter (fun ij => keep (fst ij) (snd ij)) (product (range nr) (range nc)).
Proof.
  unfold coords, sparse_where. cbn [coo_row coo_col]. apply combine_fst_snd.
Qed.

Lemma in_coords_sparse_where (nr nc : nat) (keep : nat -> nat -> bool)
    (f : nat -> nat -> R) (i j : nat) :
  In (i, j) (coords (sparse_where nr nc keep f))
  <-> i < nr /\ j < nc /\ keep i j = true.
Proof.
  rewrite coords_sparse_where, filter_In, in_product, !in_range.
  cbn [fst snd]. tauto.
Qed.

Lemma toarray_sparse_where (nr nc : nat) (keep : nat -> nat -> bool)
    (f : nat -> nat -> R) (i j : nat) :
  item (toarray (sparse_where nr nc keep f)) i j
  = if (i <? nr) && (j <? nc) && keep i j then f i j else r0.
Proof.
  cbn [item toarray]. rewrite entries_sparse_where.
  rewrite (find_map_key (fun k => (fst k =? i) && (snd k =? j))
             (fun ij => f (fst ij) (snd ij))).
  set (kept := filter (fun ij => keep (fst ij) (snd ij))
                      (product (range nr) (range nc))).
  destruct (find (fun k => (fst k =? i) && (snd k =? j)) kept)
    as [[i' j']|] eqn:E; cbn [option_map snd fst].
  - apply find_some in E. destruct E as [Hin Ht].
    apply andb_true_iff in Ht. cbn [fst snd] in Ht.
    destruct Ht as [Hi' Hj']. apply Nat.eqb_eq in Hi', Hj'. subst i' j'.
    unfold kept in Hin. apply filter_In in Hin. destruct Hin as [Hin Hk].
    apply in_product in Hin. rewrite !in_range in Hin. cbn [fst snd] in Hk.
    destruct Hin as [Hi Hj]. apply Nat.ltb_lt in Hi, Hj.
    now rewrite Hi, Hj, Hk.
  - destruct ((i <? nr) && (j <? nc) && keep i j) eqn:Hc; [|reflexivity].
    apply andb_true_iff in Hc. destruct Hc as [Hc Hk].
    apply andb_true_iff in Hc. destruct Hc as [Hi Hj].
    apply Nat.ltb_lt in Hi, Hj.
    assert (Hin : In (i, j) kept).
    { unfold kept. apply filter_In. split; [|exact Hk].
      apply in_product. now rewrite !in_range. }
    pose proof (find_none _ _ E _ Hin) as Hf. cbn [fst snd] in Hf.
    now rewrite !Nat.eqb_refl in Hf.
Qed.

End EvaluatorFacts.

(** ** The constraint Hessian extraction *)

Section HessianExtraction.
Context {R : Type} {SR : Scalar R} {EV : Evaluator R}.

(** The evaluator numbers exactly the constraints of the block it is
    given. *)
Hypothesis nl_order_perm : forall l, Permutation (nl_order l) l.

Lemma index_of_self_head (c : Constraint) (l : list Constraint) :
  index_of c (c :: l) = Some 0.
Proof. simpl. destruct (Constraint_eq_dec c c); congruence. Qed.

Lemma index_of_second (c d : Constraint) :
  c <> d -> index_of c [d; c] = Some 1.
Proof.
  intros Hne. simpl.
  destruct (Constraint_eq_dec c d); [contradiction|].
  destruct (Constraint_eq_dec c c); congruence.
Qed.

(** The padded block can always be written: the presence constraint
    mentions [_dummy_var]. *)
Lemma write_nl_hessian_block (c : Constraint) (variables : list Var) :
  write_nl (hessian_block c variables) = Ok tt.
Proof.
  unfold write_nl, block_variables, hessian_block.
  cbn [block_cons create_subsystem_block app flat_map identify_variables].
  destruct (identify_variables c ++ (variables ++ [DummyVar]) ++ [])
    as [|v l] eqn:E; [|reflexivity].
  apply app_eq_nil in E. destruct E as [_ E].
  apply app_eq_nil in E. destruct E as [E _].
  apply app_eq_nil in E. destruct E as [_ E]. discriminate.
Qed.

(** The padded block always yields an NLP, which knows the variables of
    the constraint, the requested variables and [_dummy_var], and whose
    multipliers pair [1.0] with the constraint and [0.0] with the presence
    constraint, in the evaluator's order. *)
Lemma hessian_nlp_ok (values : Values R) (c : Constraint)
    (variables : list Var) :
  let d := SumEq variables DummyVar in
  exists nlp,
    hessian_nlp values c variables = Ok nlp /\
    nlp_primals nlp = values /\
    nlp_vars nlp = identify_variables c ++ (variables ++ [DummyVar]) ++ [] /\
    (nlp_cons nlp = [c; d] \/ nlp_cons nlp = [d; c]) /\
    (combine (nlp_duals nlp) (nlp_cons nlp) = [(r1, c); (r0, d)] \/
     combine (nlp_duals nlp) (nlp_cons nlp) = [(r0, d); (r1, c)]).
Proof.
  intros d. unfold hessian_nlp. rewrite write_nl_hessian_block.
  cbn [rbind]. unfold get_constraint_indices, PyomoNLP, hessian_block.
  cbn [block_cons create_subsystem_block app nlp_cons mapE].
  fold d.
  destruct (Permutation_length_2_inv (Permutation_sym (nl_order_perm [c; d])))
    as [Ho | Ho]; rewrite Ho.
  - rewrite index_of_self_head. simpl.
    eexists. split; [reflexivity|]. simpl. auto 6.
  - destruct (Constraint_eq_dec c d) as [Heq | Hne].
    + assert (Hidx : index_of c [d; c] = Some 0)
        by (rewrite <- Heq; apply index_of_self_head).
      rewrite Hidx. simpl.
      eexists. split; [reflexivity|]. simpl.
      repeat (split; [reflexivity|]). split; [now right|].
      left. now rewrite Heq.
    + rewrite index_of_second by assumption. simpl.
      eexists. split; [reflexivity|]. simpl. auto 6.
Qed.

Lemma hessian_nlp_knows (values : Values R) (c : Constraint)
    (variables : list Var) (nlp : NLP R) :
  hessian_nlp values c variables = Ok nlp ->
  forall vars, incl vars variables -> known nlp vars.
Proof.
  intros Hnlp vars Hincl v Hv.
  destruct (hessian_nlp_ok values c variables)
    as (nlp' & Hnlp' & _ & Hvars & _).
  rewrite Hnlp in Hnlp'. inversion Hnlp'; subst nlp'.
  rewrite Hvars. apply in_or_app. right. apply in_or_app. left.
  apply in_or_app. left. now apply Hincl.
Qed.

(** With the multipliers [get_hessian_of_constraint] sets, the Hessian of
    the Lagrangian of the padded block is the Hessian of the constraint
    alone, in its entries and in its structure: the presence equation is
    linear and weighted by zero. *)
Lemma isolated_hess_lag (values : Values R) (c : Constraint)
    (variables : list Var) (nlp : NLP R) (u v : Var) :
  (forall a, radd r0 a = a) ->
  (forall a, radd a r0 = a) ->
  (forall a, rmul r1 a = a) ->
  rmul r0 r0 = r0 ->
  hessian_nlp values c variables = Ok nlp ->
  hess_lag nlp u v = second_derivative c u v values.
Proof.
  intros add0l add0r mul1 mul00 Hnlp.
  destruct (hessian_nlp_ok values c variables)
    as (nlp' & Hnlp' & Hp & _ & _ & Hd).
  rewrite Hnlp in Hnlp'. inversion Hnlp'; subst nlp'. clear Hnlp'.
  unfold hess_lag, rsum. rewrite Hp.
  destruct Hd as [Hd | Hd]; rewrite Hd; cbn [map fold_left fst snd];
    change (second_derivative (SumEq variables DummyVar) u v values) with r0;
    rewrite mul00, mul1.
  - now rewrite add0l, add0r.
  - now rewrite !add0l.
Qed.

Lemma isolated_hess_lag_struct (values : Values R) (c : Constraint)
    (variables : list Var) (nlp : NLP R) (u v : Var) :
  hessian_nlp values c variables = Ok nlp ->
  hess_lag_struct nlp u v = structural c u v.
Proof.
  intros Hnlp.
  destruct (hessian_nlp_ok values c variables)
    as (nlp' & Hnlp' & _ & _ & Hc & _).
  rewrite Hnlp in Hnlp'. inversion Hnlp'; subst nlp'. clear Hnlp'.
  unfold hess_lag_struct.
  destruct Hc as [Hc | Hc]; rewrite Hc; cbn [existsb structural].
  - now rewrite !orb_false_r.
  - now rewrite orb_false_r.
Qed.

Lemma resolve_wrt_incl (c : Constraint) (wrt1 wrt2 : option (list Var)) :
  incl (fst (fst (resolve_wrt c wrt1 wrt2))) (snd (resolve_wrt c wrt1 wrt2)) /\
  incl (snd (fst (resolve_wrt c wrt1 wrt2))) (snd (resolve_wrt c wrt1 wrt2)).
Proof.
  destruct wrt1 as [w1|], wrt2 as [w2|]; cbn [resolve_wrt fst snd];
    split; try apply incl_refl.
  - apply incl_appl, incl_refl.
  - apply incl_appr, incl_refl.
Qed.

(** Thanks to the padding [get_hessian_of_constraint] never raises: it
    returns the coordinate matrix the evaluator of the padded block
    extracts. *)
Lemma get_hessian_of_constraint_run (values : Values R) (c : Constraint)
    (wrt1 wrt2 : option (list Var)) :
  exists nlp,
    hessian_nlp values c (snd (resolve_wrt c wrt1 wrt2)) = Ok nlp /\
    get_hessian_of_constraint values c wrt1 wrt2
    = Ok (submatrix_hessian_lag nlp (fst (fst (resolve_wrt c wrt1 wrt2)))
                                    (snd (fst (resolve_wrt c wrt1 wrt2)))).
Proof.
  destruct (resolve_wrt_incl c wrt1 wrt2) as [Hrows Hcols].
  unfold get_hessian_of_constraint.
  destruct (resolve_wrt c wrt1 wrt2) as [[rows cols] variables].
  cbn [fst snd] in *.
  destruct (hessian_nlp_ok values c variables) as (nlp & Hnlp & _).
  exists nlp. split; [exact Hnlp|]. rewrite Hnlp. cbn [rbind].
  unfold extract_submatrix_hessian_lag.
  destruct (get_primal_indices_known (hessian_nlp_knows _ _ Hnlp Hrows))
    as [ir ->].
  destruct (get_primal_indices_known (hessian_nlp_knows _ _ Hnlp Hcols))
    as [ic ->].
  reflexivity.
Qed.

Lemma get_hessian_of_constraint_ok (values : Values R) (c : Constraint)
    (wrt1 wrt2 : option (list Var)) :
  get_hessian_of_constraint values c wrt1 wrt2
  = Ok (constraint_hessian_coo values c wrt1 wrt2) /\
  nrow (constraint_hessian_block values c wrt1 wrt2)
  = length (fst (fst (resolve_wrt c wrt1 wrt2))) /\
  ncol (constraint_hessian_block values c wrt1 wrt2)
  = length (snd (fst (resolve_wrt c wrt1 wrt2))).
Proof.
  unfold constraint_hessian_block, constraint_hessian_coo.
  destruct (get_hessian_of_constraint_run values c wrt1 wrt2)
    as (nlp & _ & ->).
  now repeat split.
Qed.

(** The blocks the second-order methods ask for hold the second partial
    derivatives of the constraint at the current values. *)
Lemma constraint_hessian_entry (values : Values R) (c : Constraint)
    (wrt1 wrt2 : option (list Var)) (a b : nat) :
  (forall a, radd r0 a = a) ->
  (forall a, radd a r0 = a) ->
  (forall a, rmul r1 a = a) ->
  rmul r0 r0 = r0 ->
  constraint_hessian values c wrt1 wrt2 a b
  = spec_hessian values c (fst (fst (resolve_wrt c wrt1 wrt2)))
                          (snd (fst (resolve_wrt c wrt1 wrt2))) a b.
Proof.
  intros add0l add0r mul1 mul00.
  unfold constraint_hessian, constraint_hessian_block, constraint_hessian_coo.
  destruct (get_hessian_of_constraint_run values c wrt1 wrt2)
    as (nlp & Hnlp & ->).
  set (rows := fst (fst (resolve_wrt c wrt1 wrt2))).
  set (cols := snd (fst (resolve_wrt c wrt1 wrt2))).
  unfold submatrix_hessian_lag. rewrite toarray_sparse_where.
  unfold spec_hessian.
  rewrite (isolated_hess_lag _ _ _ _ _ add0l add0r mul1 mul00 Hnlp).
  rewrite (isolated_hess_lag_struct _ _ _ _ _ Hnlp).
  destruct (is_last Var_eqb rows a) eqn:Ha;
    [|now rewrite andb_false_r].
  destruct (is_last Var_eqb cols b) eqn:Hb;
    [|now rewrite andb_false_r].
  apply is_last_lt in Ha, Hb. apply Nat.ltb_lt in Ha, Hb.
  rewrite Ha, Hb. cbn [andb].
  unfold second_derivative.
  destruct (structural c (nth a rows DummyVar) (nth b cols DummyVar));
    reflexivity.
Qed.

(** A second derivative with respect to a variable that does not appear in
    the constraint reads as zero. *)
Lemma second_derivative_absent (c : Constraint) (u v : Var) (p : Values R) :
  ~ In u (identify_variables c) \/ ~ In v (identify_variables c) ->
  second_derivative c u v p = r0.
Proof.
  intros Hout. unfold second_derivative.
  replace (structural c u v) with false; [reflexivity|].
  symmetry. destruct c as [id | vs rhs]; [|reflexivity].
  cbn [structural identify_variables] in *. unfold var_in.
  destruct (in_dec Var_eq_dec u (con_vars id)),
           (in_dec Var_eq_dec v (con_vars id)); try reflexivity.
  tauto.
Qed.

Lemma spec_hessian_NoDup (values : Values R) (c : Constraint)
    (rows cols : list Var) (a b : nat) :
  NoDup rows -> NoDup cols -> a < length rows -> b < length cols ->
  spec_hessian values c rows cols a b
  = second_derivative c (nth a rows DummyVar) (nth b cols DummyVar) values.
Proof.
  intros Hr Hc Ha Hb. unfold spec_hessian.
  rewrite (is_last_NoDup _ Var_eqb_eq Hr Ha).
  now rewrite (is_last_NoDup _ Var_eqb_eq Hc Hb).
Qed.

(** C5, as the code has it.  For a single equation [c] and variable lists
    [v1], [v2], [get_hessian_of_constraint] works on a block holding [c]
    and one presence equation [sum(v1 + v2) == _dummy_var]; the evaluator
    of that block knows every requested variable, where the evaluator of
    the block without the presence equation raises [KeyError] for a
    requested variable that does not appear in [c]; the multipliers it sets
    pair [1.0] with [c] and [0.0] with the presence equation, whichever
    order the evaluator numbers them in; and it returns a coordinate matrix
    of shape [len(v1)]-by-[len(v2)] that stores an entry exactly at the
    pairs the Hessian structure of [c] holds, not at every pair.  Each
    stored entry is the second derivative of [c] with respect to the two
    variables, and read densely the matrix has that derivative at every
    pair, zero where one of the two variables does not appear in [c]
    (a variable repeated in a list has its entries at its last position).
    The arithmetic is taken with [0] and [1] neutral. *)
Theorem hessian_of_constraint_isolates_equation
    (values : Values R) (c : Constraint) (v1 v2 : list Var) :
  (forall a, radd r0 a = a) ->
  (forall a, radd a r0 = a) ->
  (forall a, rmul r1 a = a) ->
  rmul r0 r0 = r0 ->
  let presence := SumEq (v1 ++ v2) DummyVar in
  let kept i j :=
    is_last Var_eqb v1 i = true /\ is_last Var_eqb v2 j = true /\
    structural c (nth i v1 DummyVar) (nth j v2 DummyVar) = true in
  block_cons (hessian_block c (v1 ++ v2)) = [c; presence] /\
  (forall v, In v v1 \/ In v v2 -> ~ In v (identify_variables c) ->
     extract_submatrix_hessian_lag
       (PyomoNLP (create_subsystem_block [c] (v1 ++ v2)) values) v1 v2
     = Raise KeyError) /\
  exists nlp h,
    hessian_nlp values c (v1 ++ v2) = Ok nlp /\
    known nlp v1 /\ known nlp v2 /\
    Permutation (combine (nlp_duals nlp) (nlp_cons nlp))
                [(r1, c); (r0, presence)] /\
    get_hessian_of_constraint values c (Some v1) (Some v2) = Ok h /\
    coo_shape h = (length v1, length v2) /\
    NoDup (coords h) /\
    (forall i j, In (i, j) (coords h) <-> kept i j) /\
    (forall i j v,
        In (i, j, v) (entries h)
        <-> kept i j /\
            v = second_derivative c (nth i v1 DummyVar) (nth j v2 DummyVar)
                                  values) /\
    (forall i j, item (toarray h) i j = spec_hessian values c v1 v2 i j) /\
    (forall i j, NoDup v1 -> NoDup v2 -> i < length v1 -> j < length v2 ->
       item (toarray h) i j
       = second_derivative c (nth i v1 DummyVar) (nth j v2 DummyVar) values) /\
    (forall i j,
       ~ In (nth i v1 DummyVar) (identify_variables c) \/
       ~ In (nth j v2 DummyVar) (identify_variables c) ->
       item (toarray h) i j = r0).
Proof.
  intros add0l add0r mul1 mul00 presence kept.
  split; [reflexivity|].
  split.
  { intros v Hv Hout. unfold extract_submatrix_hessian_lag.
    set (nlp0 := PyomoNLP (create_subsystem_block [c] (v1 ++ v2)) values).
    assert (Hunknown : ~ In v (nlp_vars nlp0)).
    { unfold nlp0, PyomoNLP, block_variables.
      cbn [nlp_vars block_cons create_subsystem_block flat_map].
      now rewrite app_nil_r. }
    destruct (known_dec nlp0 v1) as [Hk1 | Hk1].
    - destruct (get_primal_indices_known Hk1) as [ir ->]. cbn [rbind].
      rewrite get_primal_indices_unknown; [reflexivity|].
      intros Hk2. destruct Hv as [Hv | Hv]; apply Hunknown; auto.
    - now rewrite (get_primal_indices_unknown Hk1). }
  destruct (get_hessian_of_constraint_run values c (Some v1) (Some v2))
    as (nlp & Hnlp & Hrun).
  cbn [resolve_wrt fst snd] in Hnlp, Hrun.
  pose proof (fun u v => isolated_hess_lag_struct _ _ _ u v Hnlp) as Hstruct.
  pose proof (fun u v => isolated_hess_lag _ _ _ u v
                           add0l add0r mul1 mul00 Hnlp) as Hentry.
  exists nlp, (submatrix_hessian_lag nlp v1 v2).
  split; [exact Hnlp|].
  split; [apply (hessian_nlp_knows _ _ Hnlp); apply incl_appl, incl_refl|].
  split; [apply (hessian_nlp_knows _ _ Hnlp); apply incl_appr, incl_refl|].
  split.
  { destruct (hessian_nlp_ok values c (v1 ++ v2))
      as (nlp' & Hnlp' & _ & _ & _ & Hd).
    rewrite Hnlp in Hnlp'. inversion Hnlp'; subst nlp'.
    destruct Hd as [Hd | Hd]; rewrite Hd; [reflexivity | apply perm_swap]. }
  split; [exact Hrun|].
  split; [reflexivity|].
  assert (Hcoords : forall i j,
             In (i, j) (coords (submatrix_hessian_lag nlp v1 v2)) <-> kept i j).
  { intros i j. unfold submatrix_hessian_lag.
    rewrite in_coords_sparse_where, Hstruct, !andb_true_iff. unfold kept.
    split; [tauto|]. intros (Hi & Hj & Hs).
    pose proof (is_last_lt _ _ _ Hi). pose proof (is_last_lt _ _ _ Hj). tauto. }
  assert (Hdense : forall i j,
             item (toarray (submatrix_hessian_lag nlp v1 v2)) i j
             = spec_hessian values c v1 v2 i j).
  { intros i j.
    pose proof (constraint_hessian_entry values c (Some v1) (Some v2) i j
                  add0l add0r mul1 mul00) as H.
    unfold constraint_hessian, constraint_hessian_block,
      constraint_hessian_coo in H.
    rewrite Hrun in H. exact H. }
  split.
  { unfold submatrix_hessian_lag. rewrite coords_sparse_where.
    apply NoDup_filter, NoDup_product; apply NoDup_range. }
  split; [exact Hcoords|].
  split.
  { intros i j v. unfold submatrix_hessian_lag at 1.
    rewrite entries_sparse_where, in_map_iff. split.
    - intros ([i' j'] & Heq & Hin). inversion Heq; subst. cbn [fst snd].
      rewrite Hentry. split; [|reflexivity].
      apply Hcoords. unfold submatrix_hessian_lag.
      now rewrite coords_sparse_where.
    - intros (Hk & ->). exists (i, j). cbn [fst snd]. rewrite Hentry.
      split; [reflexivity|].
      apply Hcoords in Hk. unfold submatrix_hessian_lag in Hk.
      now rewrite coords_sparse_where in Hk. }
  split; [exact Hdense|].
  split.
  { intros i j Hn1 Hn2 Hi Hj. rewrite Hdense. now apply spec_hessian_NoDup. }
  intros i j Hout. rewrite Hdense. unfold spec_hessian.
  rewrite (second_derivative_absent _ _ _ values Hout).
  now destruct (is_last Var_eqb v1 i && is_last Var_eqb v2 j).
Qed.

End HessianExtraction.

(** ** Running a method step by step *)

Section MonadFacts.
Context {R : Type} {SR : Scalar R} {EV : Evaluator R} {SLU : SparseLU R}.

Lemma bind_get_self {A} (k : ExternalPyomoModel R -> M R A) (w : World R) :
  bind get_self k w = k (self w) w.
Proof. reflexivity. Qed.

Lemma bind_get_values {A} (k : Values R -> M R A) (w : World R) :
  bind get_values k w = k (var_values w) w.
Proof. reflexivity. Qed.

Lemma bind_lift_ok {A B} (a : A) (k : A -> M R B) (w : World R) :
  bind (lift (Ok a)) k w = k a w.
Proof. reflexivity. Qed.

Lemma bind_lift_raise {A B} (e : PyError) (k : A -> M R B) (w : World R) :
  bind (lift (Raise e)) k w = (Raise e, w).
Proof. reflexivity. Qed.

Lemma bind_splu {B} (a : ndarray R) (k : SuperLU R -> M R B) (w : World R) :
  bind (splu a) k w
  = match splu_factor a with
    | Ok fact => k fact (count_splu 1 w)
    | Raise e => (Raise e, count_splu 1 w)
    end.
Proof. unfold bind, splu. now destruct (splu_factor a). Qed.

Lemma count_splu_0 (w : World R) : count_splu 0 w = w.
Proof. now destruct w. Qed.

Lemma count_splu_add (n m : nat) (w : World R) :
  count_splu n (count_splu m w) = count_splu (n + m) w.
Proof. unfold count_splu. cbn [self var_values splu_calls]. f_equal. lia. Qed.

(** A model that is not evaluable stops at the first Jacobian block asked
    of a list with a variable the evaluator does not know. *)
Lemma first_blocks_unknown {B} (s : ExternalPyomoModel R)
    (c1 c2 : list Constraint) (k : ndarray R -> ndarray R -> M R B)
    (w : World R) :
  ~ evaluable s ->
  bind (lift (extract_submatrix_jacobian (_nlp s) (input_vars s) c1))
       (fun a => bind (lift (extract_submatrix_jacobian (_nlp s)
                                                        (external_vars s) c2))
                      (fun b => k a b)) w
  = (Raise KeyError, w).
Proof.
  intros Hne.
  destruct (known_dec (_nlp s) (input_vars s)) as [Hx | Hx].
  - rewrite (extract_submatrix_jacobian_known _ Hx), bind_lift_ok.
    rewrite extract_submatrix_jacobian_unknown; [apply bind_lift_raise|].
    intros Hy. apply Hne. now split.
  - rewrite (extract_submatrix_jacobian_unknown _ Hx). apply bind_lift_raise.
Qed.

End MonadFacts.

(** ** First-order sensitivities *)

Section FirstOrder.
Context {R : Type} {SR : Scalar R} {EV : Evaluator R} {SLU : SparseLU R}.

Lemma nth_map_lt {A B} (f : A -> B) (l : list A) (i : nat) (d : A) (d' : B) :
  i < length l -> nth i (map f l) d' = f (nth i l d).
Proof.
  intros Hi. rewrite (nth_indep _ d' (f d)) by now rewrite length_map.
  apply map_nth.
Qed.

Lemma nth_map_range {B} (f : nat -> B) (n i : nat) (d' : B) :
  i < n -> nth i (map f (range n)) d' = f i.
Proof.
  intros Hi. rewrite (nth_map_lt f (range n) 0) by now rewrite length_range.
  now rewrite nth_range.
Qed.

Lemma splu_factor_inv (a : ndarray R) (fact : SuperLU R) :
  splu_factor a = Ok fact ->
  nrow a = ncol a /\ lu_n fact = nrow a /\ lu_factor a = Some (lu_factors fact).
Proof.
  unfold splu_factor. destruct (Nat.eqb_spec (nrow a) (ncol a)); [|discriminate].
  destruct (lu_factor a); [|discriminate].
  intros H. inversion H; subst. simpl. auto.
Qed.

(** A successful factorization of [dg/dy] makes the inner system square. *)
Lemma factor_square (s : ExternalPyomoModel R) (fact : SuperLU R) :
  splu_factor (jac_gy s) = Ok fact ->
  length (external_cons s) = length (external_vars s) /\
  lu_n fact = length (external_cons s).
Proof.
  intros H. apply splu_factor_inv in H. simpl in H. tauto.
Qed.

(** *** The three ways a first-order query ends *)

Lemma run_jacobian_external_variables (w : World R) (fact : SuperLU R) :
  evaluable (self w) ->
  splu_factor (jac_gy (self w)) = Ok fact ->
  evaluate_jacobian_external_variables w
  = (Ok (dydx_matrix (self w) fact), count_splu 1 w).
Proof.
  intros [Hx Hy] Hf. destruct (factor_square _ Hf) as [Hsq Hn].
  unfold evaluate_jacobian_external_variables.
  rewrite bind_get_self. cbv zeta.
  rewrite (extract_submatrix_jacobian_known _ Hx), bind_lift_ok.
  rewrite (extract_submatrix_jacobian_known _ Hy), bind_lift_ok.
  rewrite bind_splu. fold (jac_gy (self w)). rewrite Hf.
  fold (jac_gx (self w)). unfold lift.
  unfold solve_matrix. rewrite Hn. simpl. rewrite Nat.eqb_refl. reflexivity.
Qed.

Lemma run_jacobian_external_variables_singular (w : World R) (e : PyError) :
  evaluable (self w) ->
  splu_factor (jac_gy (self w)) = Raise e ->
  evaluate_jacobian_external_variables w = (Raise e, count_splu 1 w).
Proof.
  intros [Hx Hy] Hf.
  unfold evaluate_jacobian_external_variables.
  rewrite bind_get_self. cbv zeta.
  rewrite (extract_submatrix_jacobian_known _ Hx), bind_lift_ok.
  rewrite (extract_submatrix_jacobian_known _ Hy), bind_lift_ok.
  rewrite bind_splu. fold (jac_gy (self w)). now rewrite Hf.
Qed.

Lemma run_jacobian_external_variables_unknown (w : World R) :
  ~ evaluable (self w) ->
  evaluate_jacobian_external_variables w = (Raise KeyError, w).
Proof.
  intros Hne. unfold evaluate_jacobian_external_variables.
  rewrite bind_get_self. cbv zeta.
  now apply (first_blocks_unknown (s := self w)).
Qed.

Lemma run_jacobian_equality_constraints (w : World R) (fact : SuperLU R) :
  evaluable (self w) ->
  splu_factor (jac_gy (self w)) = Ok fact ->
  evaluate_jacobian_equality_constraints w
  = (Ok (full_sparse (length (residual_cons (self w)))
                     (length (input_vars (self w)))
                     (item (matadd (jac_fx (self w))
                                   (matmul (jac_fy (self w))
                                           (dydx_matrix (self w) fact))))),
     count_splu 1 w).
Proof.
  intros [Hx Hy] Hf. destruct (factor_square _ Hf) as [Hsq Hn].
  unfold evaluate_jacobian_equality_constraints.
  rewrite bind_get_self. cbv zeta.
  rewrite (extract_submatrix_jacobian_known _ Hx), bind_lift_ok.
  rewrite (extract_submatrix_jacobian_known _ Hy), bind_lift_ok.
  rewrite (extract_submatrix_jacobian_known _ Hx), bind_lift_ok.
  rewrite (extract_submatrix_jacobian_known _ Hy), bind_lift_ok.
  rewrite bind_splu.
  fold (jac_gy (self w)). rewrite Hf.
  fold (jac_gx (self w)) (jac_fx (self w)) (jac_fy (self w)).
  unfold lift, solve_matrix. rewrite Hn.
  replace (nrow (jac_gx (self w)) =? length (external_cons (self w)))
    with true by (symmetry; apply Nat.eqb_refl).
  cbn [rbind]. fold (dydx_matrix (self w) fact).
  unfold dot.
  replace (ncol (jac_fy (self w)) =? nrow (dydx_matrix (self w) fact))
    with true by (symmetry; apply Nat.eqb_eq; simpl; congruence).
  cbn [rbind]. unfold madd.
  replace ((nrow (jac_fx (self w)) =?
            nrow (matmul (jac_fy (self w)) (dydx_matrix (self w) fact))) &&
           (ncol (jac_fx (self w)) =?
            ncol (matmul (jac_fy (self w)) (dydx_matrix (self w) fact))))
    with true by (simpl; now rewrite !Nat.eqb_refl).
  cbn [rbind]. rewrite dense_to_full_sparse_eq. reflexivity.
Qed.

Lemma run_jacobian_equality_constraints_singular (w : World R) (e : PyError) :
  evaluable (self w) ->
  splu_factor (jac_gy (self w)) = Raise e ->
  evaluate_jacobian_equality_constraints w = (Raise e, count_splu 1 w).
Proof.
  intros [Hx Hy] Hf.
  unfold evaluate_jacobian_equality_constraints.
  rewrite bind_get_self. cbv zeta.
  rewrite (extract_submatrix_jacobian_known _ Hx), bind_lift_ok.
  rewrite (extract_submatrix_jacobian_known _ Hy), bind_lift_ok.
  rewrite (extract_submatrix_jacobian_known _ Hx), bind_lift_ok.
  rewrite (extract_submatrix_jacobian_known _ Hy), bind_lift_ok.
  rewrite bind_splu. fold (jac_gy (self w)). now rewrite Hf.
Qed.

Lemma run_jacobian_equality_constraints_unknown (w : World R) :
  ~ evaluable (self w) ->
  evaluate_jacobian_equality_constraints w = (Raise KeyError, w).
Proof.
  intros Hne. unfold evaluate_jacobian_equality_constraints.
  rewrite bind_get_self. cbv zeta.
  now apply (first_blocks_unknown (s := self w)).
Qed.

Lemma evaluable_dec (s : ExternalPyomoModel R) : evaluable s \/ ~ evaluable s.
Proof.
  unfold evaluable.
  destruct (known_dec (_nlp s) (input_vars s));
    destruct (known_dec (_nlp s) (external_vars s)); tauto.
Qed.

(** Without repetition in the lists of the model, the four Jacobian blocks
    hold the first partial derivatives of the equations at the point the
    evaluator was built at. *)
Lemma jacobian_blocks_entries (s : ExternalPyomoModel R) :
  let p := nlp_primals (_nlp s) in
  let x := input_vars s in
  let y := external_vars s in
  let f := residual_cons s in
  let g := external_cons s in
  (forall i j, NoDup f -> NoDup x -> i < length f -> j < length x ->
     item (jac_fx s) i j
     = first_derivative (nth i f (PyCon 0)) (nth j x DummyVar) p) /\
  (forall i k, NoDup f -> NoDup y -> i < length f -> k < length y ->
     item (jac_fy s) i k
     = first_derivative (nth i f (PyCon 0)) (nth k y DummyVar) p) /\
  (forall l j, NoDup g -> NoDup x -> l < length g -> j < length x ->
     item (jac_gx s) l j
     = first_derivative (nth l g (PyCon 0)) (nth j x DummyVar) p) /\
  (forall l k, NoDup g -> NoDup y -> l < length g -> k < length y ->
     item (jac_gy s) l k
     = first_derivative (nth l g (PyCon 0)) (nth k y DummyVar) p).
Proof.
  cbv zeta. unfold jac_fx, jac_fy, jac_gx, jac_gy.
  repeat split; intros; now apply submatrix_jacobian_entry.
Qed.

(** Negation commutes with the accumulated sum of products. *)
Lemma rsum_mul_opp (a b : nat -> R) (l : list nat) :
  (forall u v, rmul u (ropp v) = ropp (rmul u v)) ->
  (forall u v, radd (ropp u) (ropp v) = ropp (radd u v)) ->
  ropp r0 = r0 ->
  rsum (map (fun k => rmul (a k) (ropp (b k))) l)
  = ropp (rsum (map (fun k => rmul (a k) (b k)) l)).
Proof.
  intros Hmul Hadd H0. unfold rsum. rewrite <- H0 at 1.
  generalize r0 as acc. induction l as [|k l IH]; intros acc; simpl.
  - reflexivity.
  - rewrite Hmul, Hadd. apply IH.
Qed.

(** C1, as the code has it.  When the evaluator of the model knows every
    input and external variable (each appears in one of the equations) and
    the factorization of [dg/dy] succeeds,
    [evaluate_jacobian_equality_constraints] returns a coordinate matrix of
    shape [|f|]-by-[|x|] with exactly one explicit entry per coordinate,
    whose value at [(i, j)] is
    [df/dx[i,j] + sum_k df/dy[i,k] * dydx[k,j]], where column [j] of [dydx]
    is minus the solve of the LU factors of [dg/dy] against column [j] of
    [dg/dx]; one factorization is made and no inverse is formed.  The four
    blocks are those of the evaluator, which hold the first partial
    derivatives of the equations when no variable or equation is listed
    twice.  When the solve is exact, [dydx] satisfies
    [dg/dy . dydx = - dg/dx]. *)
Theorem jacobian_equality_constraints_implicit
    (w : World R) (fact : SuperLU R) :
  evaluable (self w) ->
  splu_factor (jac_gy (self w)) = Ok fact ->
  let s := self w in
  let p := nlp_primals (_nlp s) in
  let x := input_vars s in
  let y := external_vars s in
  let f := residual_cons s in
  let g := external_cons s in
  let nf := length f in
  let nx := length x in
  let ny := length y in
  let dydx := spec_dydx s fact in
  let dfdx := spec_add (item (jac_fx s)) (spec_mul ny (item (jac_fy s)) dydx) in
  exists jac,
    evaluate_jacobian_equality_constraints w = (Ok jac, count_splu 1 w) /\
    coo_shape jac = (nf, nx) /\
    NoDup (coords jac) /\
    (forall i j, In (i, j) (coords jac) <-> i < nf /\ j < nx) /\
    (forall i j v,
        In (i, j, v) (entries jac) <-> i < nf /\ j < nx /\ v = dfdx i j) /\
    ((forall i j, NoDup f -> NoDup x -> i < nf -> j < nx ->
        item (jac_fx s) i j
        = first_derivative (nth i f (PyCon 0)) (nth j x DummyVar) p) /\
     (forall i k, NoDup f -> NoDup y -> i < nf -> k < ny ->
        item (jac_fy s) i k
        = first_derivative (nth i f (PyCon 0)) (nth k y DummyVar) p) /\
     (forall l j, NoDup g -> NoDup x -> l < length g -> j < nx ->
        item (jac_gx s) l j
        = first_derivative (nth l g (PyCon 0)) (nth j x DummyVar) p) /\
     (forall l k, NoDup g -> NoDup y -> l < length g -> k < ny ->
        item (jac_gy s) l k
        = first_derivative (nth l g (PyCon 0)) (nth k y DummyVar) p)) /\
    ((forall u v, rmul u (ropp v) = ropp (rmul u v)) ->
     (forall u v, radd (ropp u) (ropp v) = ropp (radd u v)) ->
     ropp r0 = r0 ->
     (forall b i, length b = ny -> i < ny ->
        rsum (map (fun k => rmul (item (jac_gy s) i k)
                                 (nth k (lu_solve (lu_factors fact) b) r0))
                  (range ny))
        = nth i b r0) ->
     forall i j, i < ny -> j < nx ->
       spec_mul ny (item (jac_gy s)) dydx i j = ropp (item (jac_gx s) i j)).
Proof.
  intros Hev Hf s p x y f g nf nx ny dydx dfdx.
  destruct (factor_square _ Hf) as [Hsq Hn]. fold s in Hsq, Hn.
  eexists. split; [apply (run_jacobian_equality_constraints w Hev Hf)|].
  fold s nf nx.
  split; [reflexivity|].
  split.
  { rewrite coords_full_sparse. apply NoDup_product; apply NoDup_range. }
  split.
  { intros i j. rewrite coords_full_sparse, in_product, !in_range. tauto. }
  split.
  { intros i j v. rewrite in_entries_full_sparse. reflexivity. }
  split; [exact (jacobian_blocks_entries s)|].
  intros Hmul Hadd H0 Hexact i j Hi Hj.
  unfold spec_mul, dydx, spec_dydx.
  rewrite (rsum_mul_opp (item (jac_gy s) i)
             (fun k => nth k (lu_solve (lu_factors fact) (column (jac_gx s) j)) r0))
    by assumption.
  rewrite Hexact.
  - unfold column. rewrite nth_map_range; [reflexivity|]. simpl.
    unfold ny, y in Hi. lia.
  - unfold column. rewrite length_map, length_range. simpl.
    unfold ny, y. lia.
  - exact Hi.
Qed.

End FirstOrder.

(** ** Second-order sensitivities *)

Section ComprehensionFacts.
Context {A B C : Type}.

Lemma mapE_map_ok (f : B -> result C) (h : A -> B) (g : A -> C) (l : list A) :
  (forall a, In a l -> f (h a) = Ok (g a)) ->
  mapE f (map h l) = Ok (map g l).
Proof.
  induction l as [|a l IH]; intros Hf; simpl; [reflexivity|].
  rewrite (Hf a (or_introl eq_refl)), IH; [reflexivity|].
  intros a' Ha'. apply Hf. now right.
Qed.

Lemma mapE2_ok (f : A -> result B) (g : A -> B) (ll : list (list A)) :
  (forall l a, In l ll -> In a l -> f a = Ok (g a)) ->
  mapE (fun l => mapE f l) ll = Ok (map (fun l => map g l) ll).
Proof.
  intros Hf. apply mapE_ok. intros l Hl. apply mapE_ok.
  intros a Ha. now apply (Hf l).
Qed.

Lemma combine_map_map (f : A -> B) (g : A -> C) (l : list A) :
  combine (map f l) (map g l) = map (fun a => (f a, g a)) l.
Proof.
  induction l as [|a l IH]; simpl; [reflexivity|]. now rewrite IH.
Qed.

Lemma combine_map_seq (f : A -> B) (g : nat -> C) (d : A) (l : list A) :
  forall start,
    combine (map f l) (map g (seq start (length l)))
    = map (fun i => (f (nth (i - start) l d), g i)) (seq start (length l)).
Proof.
  induction l as [|a l IH]; intros start; simpl; [reflexivity|].
  rewrite Nat.sub_diag. f_equal. rewrite IH.
  apply map_ext_in. intros i Hi. apply in_seq in Hi.
  replace (i - start) with (S (i - S start)) by lia. reflexivity.
Qed.

Lemma combine_map_range (f : A -> B) (g : nat -> C) (d : A) (l : list A) :
  combine (map f l) (map g (range (length l)))
  = map (fun i => (f (nth i l d), g i)) (range (length l)).
Proof.
  unfold range. rewrite (combine_map_seq f g d l 0).
  apply map_ext. intros i. now rewrite Nat.sub_0_r.
Qed.

End ComprehensionFacts.

Section ArrayFacts.
Context {R : Type} {SR : Scalar R}.

Lemma dot_ok (a b : ndarray R) :
  ncol a = nrow b -> dot a b = Ok (matmul a b).
Proof. intros H. unfold dot. now rewrite H, Nat.eqb_refl. Qed.

Lemma madd_ok (a b : ndarray R) :
  nrow a = nrow b -> ncol a = ncol b -> madd a b = Ok (matadd a b).
Proof. intros Hr Hc. unfold madd. now rewrite Hr, Hc, !Nat.eqb_refl. Qed.

Lemma dotv_ok (a : ndarray R) (v : vector R) :
  ncol a = length v -> dotv a v = Ok (matvec a v).
Proof. intros H. unfold dotv. now rewrite H, Nat.eqb_refl. Qed.

Lemma getitem_ok (m : ndarray R) (i j : nat) :
  i < nrow m -> j < ncol m -> getitem m i j = Ok (item m i j).
Proof.
  intros Hi Hj. unfold getitem.
  apply Nat.ltb_lt in Hi, Hj. now rewrite Hi, Hj.
Qed.

Lemma vgetitem_ok (v : vector R) (i : nat) :
  i < length v -> vgetitem v i = Ok (nth i v r0).
Proof.
  intros Hi. unfold vgetitem.
  destruct (nth_error v i) as [a|] eqn:E.
  - now rewrite (nth_error_nth v i r0 E).
  - apply nth_error_None in E. lia.
Qed.

End ArrayFacts.

Section SecondOrder.
Context {R : Type} {SR : Scalar R} {EV : Evaluator R} {SLU : SparseLU R}.

Hypothesis nl_order_perm : forall l, Permutation (nl_order l) l.

Variable w : World R.
Variable fact : SuperLU R.

Local Abbreviation s := (self w).
Local Abbreviation values := (var_values w).
Local Abbreviation x := (input_vars (self w)).
Local Abbreviation y := (external_vars (self w)).
Local Abbreviation f := (residual_cons (self w)).
Local Abbreviation g := (external_cons (self w)).
Local Abbreviation nx := (length (input_vars (self w))).
Local Abbreviation ny := (length (external_vars (self w))).
Local Abbreviation nf := (length (residual_cons (self w))).
Local Abbreviation dydx := (dydx_matrix (self w) fact).

Hypothesis evaluable_s : evaluable s.

Hypothesis factored : splu_factor (jac_gy s) = Ok fact.

(** The solve returns a vector as long as its right-hand side. *)
Hypothesis lu_solve_length :
  forall b, length b = ny -> length (lu_solve (lu_factors fact) b) = length b.

Lemma square : length g = ny /\ lu_n fact = ny.
Proof.
  destruct (factor_square _ factored) as [Hsq Hn]. split; congruence.
Qed.

Lemma hxx_shape (c : Constraint) :
  nrow (constraint_hessian_block values c (Some x) None) = nx /\
  ncol (constraint_hessian_block values c (Some x) None) = nx.
Proof.
  destruct (get_hessian_of_constraint_ok nl_order_perm values c (Some x) None)
    as (_ & Hr & Hc). simpl in Hr, Hc. now split.
Qed.

Lemma hxy_shape (c : Constraint) :
  nrow (constraint_hessian_block values c (Some x) (Some y)) = nx /\
  ncol (constraint_hessian_block values c (Some x) (Some y)) = ny.
Proof.
  destruct (get_hessian_of_constraint_ok nl_order_perm values c (Some x) (Some y))
    as (_ & Hr & Hc). simpl in Hr, Hc. now split.
Qed.

Lemma hyy_shape (c : Constraint) :
  nrow (constraint_hessian_block values c (Some y) None) = ny /\
  ncol (constraint_hessian_block values c (Some y) None) = ny.
Proof.
  destruct (get_hessian_of_constraint_ok nl_order_perm values c (Some y) None)
    as (_ & Hr & Hc). simpl in Hr, Hc. now split.
Qed.

Lemma dydx_shape : nrow dydx = ny /\ ncol dydx = nx.
Proof. destruct square as [Hg _]. simpl. now split. Qed.

Lemma term2_ok (c : Constraint) :
  (_prod <- dot (constraint_hessian_block values c (Some x) (Some y)) dydx ;;
   madd _prod (transpose _prod))%err
  = Ok (term2_of dydx (constraint_hessian_block values c (Some x) (Some y))).
Proof.
  destruct (hxy_shape c) as [Hr Hc]. destruct dydx_shape as [Jr Jc].
  rewrite dot_ok by congruence. cbn [rbind].
  apply madd_ok; cbn [nrow ncol matmul transpose]; congruence.
Qed.

Lemma term3_ok (c : Constraint) :
  (left <- dot (transpose dydx) (constraint_hessian_block values c (Some y) None) ;;
   dot left dydx)%err
  = Ok (term3_of dydx (constraint_hessian_block values c (Some y) None)).
Proof.
  destruct (hyy_shape c) as [Hr Hc]. destruct dydx_shape as [Jr Jc].
  rewrite dot_ok by (cbn [nrow ncol transpose]; congruence). cbn [rbind].
  apply dot_ok; cbn [nrow ncol matmul transpose]; congruence.
Qed.

Lemma sum_of_shape (c : Constraint) :
  nrow (sum_of values s dydx c) = nx /\ ncol (sum_of values s dydx c) = nx.
Proof. unfold sum_of. cbn [nrow ncol matadd]. apply hxx_shape. Qed.

Lemma sum_ok (c : Constraint) :
  (s12 <- madd (constraint_hessian_block values c (Some x) None)
               (term2_of dydx (constraint_hessian_block values c (Some x) (Some y))) ;;
   madd s12 (term3_of dydx (constraint_hessian_block values c (Some y) None)))%err
  = Ok (sum_of values s dydx c).
Proof.
  destruct (hxx_shape c) as [Hr Hc]. destruct (hxy_shape c) as [Hr' Hc'].
  destruct dydx_shape as [Jr Jc].
  rewrite madd_ok
    by (unfold term2_of; cbn [nrow ncol matmul matadd transpose]; congruence).
  cbn [rbind].
  apply madd_ok;
    unfold term3_of; cbn [nrow ncol matmul matadd transpose]; congruence.
Qed.

Lemma entry_vectors_length (n : nat) (ms : list (ndarray R)) vlist vector :
  In vlist (entry_vectors n ms) -> In vector vlist -> length vector = length ms.
Proof.
  unfold entry_vectors. intros Hvl Hv.
  apply in_map_iff in Hvl. destruct Hvl as (i & <- & _).
  apply in_map_iff in Hv. destruct Hv as (j & <- & _).
  apply length_map.
Qed.

Lemma entry_vectors_ok (ms : list (ndarray R)) :
  (forall m, In m ms -> nrow m = nx /\ ncol m = nx) ->
  mapE (fun i =>
          mapE (fun j => mapE (fun matrix => getitem matrix i j) ms) (range nx))
       (range nx)
  = Ok (entry_vectors nx ms).
Proof.
  intros Hshape. unfold entry_vectors.
  apply mapE_ok. intros i Hi. apply mapE_ok. intros j Hj. apply mapE_ok.
  intros m Hm. destruct (Hshape m Hm) as [Hr Hc]. apply in_range in Hi, Hj.
  apply getitem_ok; congruence.
Qed.

Lemma component_rows_ok (vss : list (list (vector R))) (n i : nat) :
  (forall vlist vec, In vlist vss -> In vec vlist -> length vec = n) ->
  i < n ->
  mapE (fun vlist => mapE (fun vec => vgetitem vec i) vlist) vss
  = Ok (component_rows vss i).
Proof.
  intros Hlen Hi. unfold component_rows. apply mapE2_ok.
  intros vlist vec Hvl Hv. apply vgetitem_ok. rewrite (Hlen vlist vec Hvl Hv).
  exact Hi.
Qed.

Lemma run_hessian_external_variables :
  evaluate_hessian_external_variables w
  = (Ok (d2ydx2_of values s fact), count_splu 1 w).
Proof.
  destruct evaluable_s as [Hx Hy]. destruct square as [Hg Hn].
  unfold evaluate_hessian_external_variables.
  rewrite bind_get_self. cbv zeta.
  rewrite (extract_submatrix_jacobian_known _ Hx), bind_lift_ok.
  rewrite (extract_submatrix_jacobian_known _ Hy), bind_lift_ok.
  rewrite bind_splu. fold (jac_gy s). rewrite factored.
  rewrite bind_get_values. unfold lift. cbn [self var_values count_splu].
  fold (jac_gx s).
  unfold solve_matrix.
  replace (nrow (jac_gx s) =? lu_n fact) with true
    by (symmetry; apply Nat.eqb_eq; simpl; congruence).
  cbn [rbind]. fold dydx.
  rewrite (mapE_ok _ (fun con => constraint_hessian_coo values con (Some x) None))
    by (intros; apply (get_hessian_of_constraint_ok nl_order_perm)).
  cbn [rbind].
  rewrite (mapE_ok _ (fun con => constraint_hessian_coo values con (Some x) (Some y)))
    by (intros; apply (get_hessian_of_constraint_ok nl_order_perm)).
  cbn [rbind].
  rewrite (mapE_ok _ (fun con => constraint_hessian_coo values con (Some y) None))
    by (intros; apply (get_hessian_of_constraint_ok nl_order_perm)).
  cbn [rbind].
  rewrite (mapE_map_ok _ _
             (fun con => term2_of dydx
                (constraint_hessian_block values con (Some x) (Some y))))
    by (intros; apply term2_ok).
  cbn [rbind].
  rewrite (mapE_map_ok _ _
             (fun con => term3_of dydx
                (constraint_hessian_block values con (Some y) None)))
    by (intros; apply term3_ok).
  cbn [rbind].
  unfold zip3. rewrite !combine_map_map.
  rewrite (mapE_map_ok _ _ (sum_of values s dydx))
    by (intros; apply sum_ok).
  cbn [rbind].
  rewrite entry_vectors_ok
    by (intros m Hm; apply in_map_iff in Hm; destruct Hm as (c & <- & _);
        apply sum_of_shape).
  cbn [rbind].
  rewrite (mapE2_ok _ (fun vector => lu_solve (lu_factors fact) vector)).
  2:{ intros vlist vector Hvl Hv. unfold solve.
      rewrite (entry_vectors_length _ _ _ _ Hvl Hv), length_map, Hg, Hn.
      now rewrite Nat.eqb_refl. }
  cbn [rbind].
  rewrite (mapE_ok _ (fun i => mneg (array2d (component_rows
             (map (fun vlist => map (fun vector => lu_solve (lu_factors fact) vector) vlist)
                  (entry_vectors nx (map (sum_of values s dydx) g))) i)))).
  2:{ intros i Hi. apply in_range in Hi.
      rewrite (component_rows_ok _ (n := ny)); [reflexivity| |exact Hi].
      intros vlist vec Hvl Hv.
      apply in_map_iff in Hvl. destruct Hvl as (vl & <- & Hvl).
      apply in_map_iff in Hv. destruct Hv as (v & <- & Hv).
      rewrite lu_solve_length;
        rewrite (entry_vectors_length _ _ _ _ Hvl Hv), length_map; exact Hg. }
  reflexivity.
Qed.

Lemma length_entry_vectors (n : nat) (ms : list (ndarray R)) :
  length (entry_vectors n ms) = n /\
  forall vlist, In vlist (entry_vectors n ms) -> length vlist = n.
Proof.
  unfold entry_vectors. split.
  - now rewrite length_map, length_range.
  - intros vlist Hvl. apply in_map_iff in Hvl. destruct Hvl as (i & <- & _).
    now rewrite length_map, length_range.
Qed.

(** Shape and entries of the matrix assembled from component [i] of the
    vectors [h] returns for the entry vectors of [ms]. *)
Lemma component_matrix_shape (h : vector R -> vector R) (n : nat)
    (ms : list (ndarray R)) (i : nat) :
  let m := array2d (component_rows
             (map (fun vlist => map (fun vector => h vector) vlist)
                  (entry_vectors n ms)) i) in
  nrow m = n /\ ncol m = n.
Proof.
  unfold array2d, component_rows, entry_vectors. cbn [nrow ncol].
  split.
  - now rewrite !length_map, length_range.
  - destruct n as [|n]; [reflexivity|].
    unfold range. cbn [seq map hd length]. now rewrite !length_map, length_seq.
Qed.

Lemma spec_second_order_ext (n : nat)
    (hxx hxy hyy hxx' hxy' hyy' j : nat -> nat -> R) :
  (forall a b, hxx a b = hxx' a b) ->
  (forall a b, hxy a b = hxy' a b) ->
  (forall a b, hyy a b = hyy' a b) ->
  forall a b,
    spec_second_order n hxx hxy hyy j a b
    = spec_second_order n hxx' hxy' hyy' j a b.
Proof.
  intros H1 H2 H3 a b.
  unfold spec_second_order, spec_add, spec_mul, spec_T.
  rewrite H1. f_equal; [f_equal; f_equal|];
    apply (f_equal rsum); apply map_ext; intros k.
  - now rewrite H2.
  - now rewrite H2.
  - f_equal. apply (f_equal rsum), map_ext. intros l. now rewrite H3.
Qed.

Lemma component_matrix_entry (h : vector R -> vector R) (n : nat)
    (ms : list (ndarray R)) (i a b : nat) :
  a < n -> b < n ->
  item (array2d (component_rows
          (map (fun vlist => map (fun vector => h vector) vlist)
               (entry_vectors n ms)) i)) a b
  = nth i (h (map (fun matrix => item matrix a b) ms)) r0.
Proof.
  intros Ha Hb. unfold array2d, component_rows, entry_vectors. cbn [item].
  rewrite !map_map. rewrite (nth_map_range _ _ Ha).
  rewrite !map_map. now rewrite (nth_map_range _ _ Hb).
Qed.

Lemma length_d2ydx2 : length (d2ydx2_of values s fact) = ny.
Proof. unfold d2ydx2_of. now rewrite length_map, length_range. Qed.

Lemma d2ydx2_shape (m : ndarray R) :
  In m (d2ydx2_of values s fact) -> nrow m = nx /\ ncol m = nx.
Proof.
  unfold d2ydx2_of. intros Hm. apply in_map_iff in Hm.
  destruct Hm as (i & <- & _). cbn [nrow ncol mneg].
  apply (component_matrix_shape (lu_solve (lu_factors fact))).
Qed.

Lemma d2ydx2_entry (d : ndarray R) (k a b : nat) :
  k < ny -> a < nx -> b < nx ->
  item (nth k (d2ydx2_of values s fact) d) a b
  = ropp (nth k (lu_solve (lu_factors fact)
                   (map (fun c => item (sum_of values s dydx c) a b) g)) r0).
Proof.
  intros Hk Ha Hb. unfold d2ydx2_of. rewrite (nth_map_range _ _ Hk).
  cbn [item mneg].
  rewrite (component_matrix_entry (lu_solve (lu_factors fact)) _ k Ha Hb).
  now rewrite map_map.
Qed.

(** The three-term block of a constraint, entry by entry, in the form the
    specification writes it. *)
Lemma sum_of_blocks (c : Constraint) (a b : nat) :
  (forall u v, rmul u v = rmul v u) ->
  item (sum_of values s dydx c) a b
  = spec_second_order ny
      (constraint_hessian values c (Some x) None)
      (constraint_hessian values c (Some x) (Some y))
      (constraint_hessian values c (Some y) None)
      (spec_dydx s fact) a b.
Proof.
  intros Hcomm.
  destruct (hxy_shape c) as [_ Hxy]. destruct (hyy_shape c) as [_ Hyy].
  destruct square as [Hg _].
  unfold sum_of, term2_of, term3_of, spec_second_order, spec_add, spec_mul,
    spec_T, constraint_hessian.
  cbn [item nrow ncol matadd matmul transpose]. rewrite Hxy, Hyy.
  replace (nrow dydx) with ny by (simpl; congruence).
  do 3 f_equal. apply (f_equal rsum). apply map_ext. intros k. apply Hcomm.
Qed.

Lemma sum_of_entry (c : Constraint) (a b : nat) :
  second_order_laws ->
  item (sum_of values s dydx c) a b = spec_three_terms values s fact c a b.
Proof.
  intros (add0l & add0r & mul1 & mul00 & Hcomm).
  rewrite (sum_of_blocks c a b Hcomm). unfold spec_three_terms.
  apply spec_second_order_ext; intros a' b'.
  - exact (constraint_hessian_entry nl_order_perm values c (Some x) None a' b'
             add0l add0r mul1 mul00).
  - exact (constraint_hessian_entry nl_order_perm values c (Some x) (Some y)
             a' b' add0l add0r mul1 mul00).
  - exact (constraint_hessian_entry nl_order_perm values c (Some y) None a' b'
             add0l add0r mul1 mul00).
Qed.

Lemma d2ydx2_spec (d : ndarray R) (k a b : nat) :
  second_order_laws ->
  k < ny -> a < nx -> b < nx ->
  item (nth k (d2ydx2_of values s fact) d) a b = spec_d2ydx2 values s fact k a b.
Proof.
  intros Hlaws Hk Ha Hb. rewrite (d2ydx2_entry d Hk Ha Hb).
  unfold spec_d2ydx2. do 3 f_equal. apply map_ext. intros c.
  now apply sum_of_entry.
Qed.

End SecondOrder.

Section Residuals.
Context {R : Type} {SR : Scalar R} {EV : Evaluator R} {SLU : SparseLU R}.

Hypothesis nl_order_perm : forall l, Permutation (nl_order l) l.

Variable w : World R.
Variable fact : SuperLU R.

Local Abbreviation s := (self w).
Local Abbreviation values := (var_values w).
Local Abbreviation x := (input_vars (self w)).
Local Abbreviation y := (external_vars (self w)).
Local Abbreviation f := (residual_cons (self w)).
Local Abbreviation g := (external_cons (self w)).
Local Abbreviation nx := (length (input_vars (self w))).
Local Abbreviation ny := (length (external_vars (self w))).
Local Abbreviation nf := (length (residual_cons (self w))).
Local Abbreviation dydx := (dydx_matrix (self w) fact).

Hypothesis evaluable_s : evaluable s.

Hypothesis factored : splu_factor (jac_gy s) = Ok fact.

Hypothesis lu_solve_length :
  forall b, length b = ny -> length (lu_solve (lu_factors fact) b) = length b.

Lemma term4_ok (i : nat) :
  i < nf ->
  (rows <- mapE (fun vlist => mapE (fun vec => vgetitem vec i) vlist)
             (map (fun vlist => map (fun vector => matvec (jac_fy s) vector) vlist)
                  (entry_vectors nx (d2ydx2_of values s fact))) ;;
   Ok (array2d rows))%err
  = Ok (array2d (component_rows
          (map (fun vlist => map (fun vector => matvec (jac_fy s) vector) vlist)
               (entry_vectors nx (d2ydx2_of values s fact))) i)).
Proof.
  intros Hi. rewrite (component_rows_ok _ (n := nf)); [reflexivity| |exact Hi].
  intros vlist vec Hvl Hv.
  apply in_map_iff in Hvl. destruct Hvl as (vl & <- & Hvl).
  apply in_map_iff in Hv. destruct Hv as (v & <- & Hv).
  unfold matvec. now rewrite length_map, length_range.
Qed.

Lemma d2fdx2_step (i : nat) :
  i < nf ->
  let c := nth i f (PyCon 0) in
  (s12 <- madd (constraint_hessian_block values c (Some x) None)
               (term2_of dydx (constraint_hessian_block values c (Some x) (Some y))) ;;
   s123 <- madd s12 (term3_of dydx (constraint_hessian_block values c (Some y) None)) ;;
   madd s123 (array2d (component_rows
          (map (fun vlist => map (fun vector => matvec (jac_fy s) vector) vlist)
               (entry_vectors nx (d2ydx2_of values s fact))) i)))%err
  = Ok (matadd (sum_of values s dydx c)
               (array2d (component_rows
          (map (fun vlist => map (fun vector => matvec (jac_fy s) vector) vlist)
               (entry_vectors nx (d2ydx2_of values s fact))) i))).
Proof.
  intros Hi c.
  pose proof (sum_ok nl_order_perm w factored c) as Hsum.
  destruct (sum_of_shape nl_order_perm w fact c) as [Hr Hc].
  destruct (madd (constraint_hessian_block values c (Some x) None)
               (term2_of dydx (constraint_hessian_block values c (Some x) (Some y))))
    as [s12|e]; [|discriminate].
  cbn [rbind] in *. rewrite Hsum. cbn [rbind].
  destruct (component_matrix_shape (matvec (jac_fy s)) nx
              (d2ydx2_of values s fact) i) as [Tr Tc].
  apply madd_ok; congruence.
Qed.

Lemma run_hessians_of_residuals :
  evaluate_hessians_of_residuals w
  = (Ok (d2fdx2_of values s fact), count_splu 2 w).
Proof.
  pose proof evaluable_s as [Hx Hy].
  unfold evaluate_hessians_of_residuals.
  rewrite bind_get_self. cbv zeta.
  rewrite (extract_submatrix_jacobian_known _ Hx), bind_lift_ok.
  rewrite (extract_submatrix_jacobian_known _ Hy), bind_lift_ok.
  fold (jac_fy s).
  unfold bind at 1.
  rewrite (run_jacobian_external_variables w evaluable_s factored).
  rewrite bind_get_values. cbn [var_values count_splu].
  rewrite (mapE_ok _ (fun con => constraint_hessian_coo values con (Some x) None))
    by (intros; apply (get_hessian_of_constraint_ok nl_order_perm)).
  rewrite bind_lift_ok.
  rewrite (mapE_ok _ (fun con => constraint_hessian_coo values con (Some x) (Some y)))
    by (intros; apply (get_hessian_of_constraint_ok nl_order_perm)).
  rewrite bind_lift_ok.
  rewrite (mapE_ok _ (fun con => constraint_hessian_coo values con (Some y) None))
    by (intros; apply (get_hessian_of_constraint_ok nl_order_perm)).
  rewrite bind_lift_ok.
  unfold bind at 1.
  rewrite (run_hessian_external_variables nl_order_perm
             (count_splu 1 w) evaluable_s factored lu_solve_length).
  cbn [self var_values count_splu]. unfold lift.
  rewrite (mapE_map_ok _ _
             (fun con => term2_of dydx
                (constraint_hessian_block values con (Some x) (Some y))))
    by (intros; apply (term2_ok nl_order_perm w factored)).
  cbn [rbind].
  rewrite (mapE_map_ok _ _
             (fun con => term3_of dydx
                (constraint_hessian_block values con (Some y) None)))
    by (intros; apply (term3_ok nl_order_perm w factored)).
  cbn [rbind].
  rewrite (entry_vectors_ok w)
    by (apply (d2ydx2_shape w fact)).
  cbn [rbind].
  rewrite (mapE2_ok _ (fun vector => matvec (jac_fy s) vector)).
  2:{ intros vlist vector Hvl Hv. apply dotv_ok.
      rewrite (entry_vectors_length _ _ _ _ Hvl Hv).
      now rewrite (length_d2ydx2 w fact). }
  cbn [rbind].
  rewrite (mapE_ok _ (fun i => array2d (component_rows
             (map (fun vlist => map (fun vector => matvec (jac_fy s) vector) vlist)
                  (entry_vectors nx (d2ydx2_of values s fact))) i)))
    by (intros i Hi; apply in_range in Hi; now apply term4_ok).
  cbn [rbind].
  unfold zip4, zip3. rewrite !combine_map_map.
  rewrite (combine_map_range _ _ (PyCon 0)).
  rewrite (mapE_map_ok _ _
             (fun i => matadd (sum_of values s dydx (nth i f (PyCon 0)))
                (array2d (component_rows
                   (map (fun vlist => map (fun vector => matvec (jac_fy s) vector) vlist)
                        (entry_vectors nx (d2ydx2_of values s fact))) i)))).
  2:{ intros i Hi. apply in_range in Hi. now apply d2fdx2_step. }
  reflexivity.
Qed.

Lemma length_d2fdx2 : length (d2fdx2_of values s fact) = nf.
Proof. unfold d2fdx2_of. now rewrite length_map, length_range. Qed.

Lemma d2fdx2_shape (m : ndarray R) :
  In m (d2fdx2_of values s fact) -> nrow m = nx /\ ncol m = nx.
Proof.
  unfold d2fdx2_of. intros Hm. apply in_map_iff in Hm.
  destruct Hm as (i & <- & _). cbn [nrow ncol matadd].
  apply (sum_of_shape nl_order_perm).
Qed.

Lemma d2fdx2_entry (d d' : ndarray R) (i a b : nat) :
  i < nf -> a < nx -> b < nx ->
  item (nth i (d2fdx2_of values s fact) d) a b
  = radd (item (sum_of values s dydx (nth i f (PyCon 0))) a b)
         (rsum (map (fun k =>
                       rmul (item (jac_fy s) i k)
                            (item (nth k (d2ydx2_of values s fact) d') a b))
                    (range ny))).
Proof.
  intros Hi Ha Hb. unfold d2fdx2_of. rewrite (nth_map_range _ _ Hi).
  cbn [item matadd]. f_equal.
  rewrite (component_matrix_entry (matvec (jac_fy s)) _ i Ha Hb).
  unfold matvec. rewrite nth_map_range by exact Hi.
  apply (f_equal rsum). apply map_ext_in. intros k Hk. apply in_range in Hk.
  f_equal.
  apply (nth_map_lt (fun matrix : ndarray R => item matrix a b)).
  rewrite (length_d2ydx2 w fact). exact Hk.
Qed.

Lemma d2fdx2_spec (d : ndarray R) (i a b : nat) :
  second_order_laws ->
  i < nf -> a < nx -> b < nx ->
  item (nth i (d2fdx2_of values s fact) d) a b = spec_d2fdx2 values s fact i a b.
Proof.
  intros Hlaws Hi Ha Hb. rewrite (d2fdx2_entry d d Hi Ha Hb).
  unfold spec_d2fdx2. f_equal.
  - now apply (sum_of_entry nl_order_perm w factored).
  - apply (f_equal rsum). apply map_ext_in. intros k Hk. apply in_range in Hk.
    f_equal. now apply (d2ydx2_spec nl_order_perm w factored).
Qed.

(** C2, as the code has it.  When the evaluator of the model knows every
    input and external variable, the factorization of [dg/dy] succeeds and
    the solve keeps the length of its right-hand side,
    [evaluate_hessian_external_variables] returns one matrix per external
    variable, whose entry [(a, b)] for variable [k] is minus the [k]-th
    component of the solve of the LU factors against the vector that
    collects, over the external equations, the three-term decomposition
    [H_xx + (H_xy.J + J^T.H_xy^T) + J^T.H_yy.J] at [(a, b)]; and
    [evaluate_hessians_of_residuals] returns one matrix per residual [i],
    equal to the same decomposition for [f_i] plus the fourth term
    [sum_k df_i/dy_k * d2y_k/dx2].  Here [J = dy/dx], and the [H] blocks are
    the second partial derivatives of the equation itself at the current
    values (at the last position of a variable listed twice).  With at least
    one input the matrices are [|x|]-by-[|x|].  The arithmetic is taken with
    neutral [0] and [1] and a commutative product. *)
Theorem hessians_second_order_decomposition :
  second_order_laws ->
  exists d2ydx2 d2fdx2,
    evaluate_hessian_external_variables w = (Ok d2ydx2, count_splu 1 w) /\
    evaluate_hessians_of_residuals w = (Ok d2fdx2, count_splu 2 w) /\
    length d2ydx2 = ny /\
    length d2fdx2 = nf /\
    (0 < nx ->
     forall m, In m d2ydx2 \/ In m d2fdx2 -> nrow m = nx /\ ncol m = nx) /\
    (forall d k a b, k < ny -> a < nx -> b < nx ->
       item (nth k d2ydx2 d) a b
       = ropp (nth k (lu_solve (lu_factors fact)
                        (map (fun c => spec_three_terms values s fact c a b) g))
                   r0)) /\
    (forall d i a b, i < nf -> a < nx -> b < nx ->
       item (nth i d2fdx2 d) a b
       = radd (spec_three_terms values s fact (nth i f (PyCon 0)) a b)
              (rsum (map (fun k =>
                            rmul (item (jac_fy s) i k)
                                 (item (nth k d2ydx2 d) a b))
                         (range ny)))) /\
    (forall c a b,
       spec_three_terms values s fact c a b
       = spec_second_order ny
           (spec_hessian values c x x) (spec_hessian values c x y)
           (spec_hessian values c y y) (spec_dydx s fact) a b) /\
    (forall c rows cols a b,
       NoDup rows -> NoDup cols -> a < length rows -> b < length cols ->
       spec_hessian values c rows cols a b
       = second_derivative c (nth a rows DummyVar) (nth b cols DummyVar)
                           values).
Proof.
  intros Hlaws.
  exists (d2ydx2_of values s fact), (d2fdx2_of values s fact).
  split; [apply (run_hessian_external_variables nl_order_perm w evaluable_s
                   factored lu_solve_length)|].
  split; [apply run_hessians_of_residuals|].
  split; [apply (length_d2ydx2 w fact)|].
  split; [apply length_d2fdx2|].
  split.
  { intros _ m [Hm | Hm];
      [now apply (d2ydx2_shape w fact) | now apply d2fdx2_shape]. }
  split.
  { intros d k a b Hk Ha Hb.
    now apply (d2ydx2_spec nl_order_perm w factored). }
  split.
  { intros d i a b Hi Ha Hb. rewrite (d2fdx2_entry d d Hi Ha Hb).
    f_equal. now apply (sum_of_entry nl_order_perm w factored). }
  split; [reflexivity|].
  intros c rows cols a b Hr Hc Ha Hb. now apply spec_hessian_NoDup.
Qed.

End Residuals.

(** ** The Hessian of the Lagrangian *)

Section Lagrangian.
Context {R : Type} {SR : Scalar R} {EV : Evaluator R} {SLU : SparseLU R}.

Lemma filter_map_comm {A B} (p : B -> bool) (h : A -> B) (l : list A) :
  filter p (map h l) = map h (filter (fun a => p (h a)) l).
Proof.
  induction l as [|a l IH]; simpl; [reflexivity|].
  destruct (p (h a)); simpl; now rewrite IH.
Qed.

Lemma tril_full_sparse (n : nat) (e : nat -> nat -> R) :
  tril (full_sparse n n e)
  = {| coo_shape := (n, n);
       coo_row := map fst (lower_triangle n);
       coo_col := map snd (lower_triangle n);
       coo_data := map (fun ij => e (fst ij) (snd ij)) (lower_triangle n) |}.
Proof.
  unfold tril. rewrite entries_full_sparse, filter_map_comm.
  unfold lower_triangle.
  rewrite (filter_ext (fun a : nat * nat => tril_keep (a, e (fst a) (snd a)))
                      (fun ij => snd ij <=? fst ij))
    by (intros [i j]; reflexivity).
  rewrite !map_map. reflexivity.
Qed.

Lemma in_lower_triangle (n i j : nat) :
  In (i, j) (lower_triangle n) <-> j <= i /\ i < n.
Proof.
  unfold lower_triangle. rewrite filter_In, in_product, !in_range.
  cbn [fst snd]. rewrite Nat.leb_le. lia.
Qed.

Lemma NoDup_lower_triangle (n : nat) : NoDup (lower_triangle n).
Proof.
  unfold lower_triangle. apply NoDup_filter.
  apply NoDup_product; apply NoDup_range.
Qed.

(** The builtin [sum] over multipliers that are all set and matrices of one
    shape, from an array accumulator. *)
Lemma py_sum_array (lam : list R) :
  forall (ms : list (ndarray R)) (acc : ndarray R),
    (forall m, In m ms -> nrow m = nrow acc /\ ncol m = ncol acc) ->
    exists r,
      py_sum (combine (map Some lam) ms) (PyArray acc) = Ok (PyArray r) /\
      nrow r = nrow acc /\ ncol r = ncol acc /\
      forall a b,
        item r a b
        = fold_left radd
            (map (fun p => rmul (fst p) (item (snd p) a b)) (combine lam ms))
            (item acc a b).
Proof.
  induction lam as [|l lam IH]; intros ms acc Hshape.
  - exists acc. simpl. auto.
  - destruct ms as [|m ms].
    + exists acc. simpl. auto.
    + destruct (Hshape m (or_introl eq_refl)) as [Hr Hc].
      cbn [map combine py_sum py_mul rbind py_add].
      rewrite madd_ok by (cbn [nrow ncol mscale]; congruence).
      destruct (IH ms (matadd acc (mscale l m))) as (r & Hsum & Hnr & Hnc & Hitem).
      { intros m' Hm'. cbn [nrow ncol matadd]. apply Hshape. now right. }
      exists r. split; [exact Hsum|]. split; [exact Hnr|]. split; [exact Hnc|].
      intros a b. rewrite Hitem. reflexivity.
Qed.

(** The same from the integer [0] the builtin starts with: with no term the
    result is that integer, otherwise an array. *)
Lemma py_sum_from_zero (lam : list R) (ms : list (ndarray R)) (n : nat) :
  lam <> [] -> ms <> [] ->
  (forall m, In m ms -> nrow m = n /\ ncol m = n) ->
  exists r,
    py_sum (combine (map Some lam) ms) PyInt0 = Ok (PyArray r) /\
    nrow r = n /\ ncol r = n /\
    forall a b, item r a b = spec_weighted_sum lam ms a b.
Proof.
  intros Hlam Hms Hshape.
  destruct lam as [|l lam]; [contradiction|].
  destruct ms as [|m ms]; [contradiction|].
  destruct (Hshape m (or_introl eq_refl)) as [Hr Hc].
  cbn [map combine py_sum py_mul rbind py_add].
  destruct (py_sum_array lam ms (zero_plus (mscale l m)))
    as (r & Hsum & Hnr & Hnc & Hitem).
  { intros m' Hm'. cbn [nrow ncol zero_plus mscale].
    destruct (Hshape m' (or_intror Hm')). split; congruence. }
  exists r. split; [exact Hsum|].
  cbn [nrow ncol zero_plus mscale] in Hnr, Hnc.
  split; [congruence|]. split; [congruence|].
  intros a b. rewrite Hitem. reflexivity.
Qed.

Hypothesis nl_order_perm : forall l, Permutation (nl_order l) l.

Variable w : World R.
Variable fact : SuperLU R.

Local Abbreviation s := (self w).
Local Abbreviation nx := (length (input_vars (self w))).
Local Abbreviation ny := (length (external_vars (self w))).
Local Abbreviation nf := (length (residual_cons (self w))).

Hypothesis evaluable_s : evaluable s.

Hypothesis factored : splu_factor (jac_gy s) = Ok fact.

Hypothesis lu_solve_length :
  forall b, length b = ny -> length (lu_solve (lu_factors fact) b) = length b.

(** Without residual equations the builtin [sum] returns the integer [0],
    which has no [shape]. *)
Lemma hessian_equality_constraints_no_residuals :
  residual_cons s = [] ->
  evaluate_hessian_equality_constraints w
  = (Raise AttributeError, count_splu 2 w).
Proof.
  intros Hnil. unfold evaluate_hessian_equality_constraints, bind.
  rewrite (run_hessians_of_residuals nl_order_perm w evaluable_s factored
             lu_solve_length).
  unfold get_self, lift. cbn [self count_splu].
  unfold d2fdx2_of. rewrite Hnil. cbn [length range seq map].
  destruct (residual_con_multipliers s); reflexivity.
Qed.

(** C3, as the code has it.  With at least one residual equation and every
    multiplier set, when the evaluator of the model knows every input and
    external variable, the factorization of [dg/dy] succeeds and the solve
    keeps the length of its right-hand side,
    [evaluate_hessian_equality_constraints] returns the lower triangle of
    the multiplier-weighted sum of the matrices
    [evaluate_hessians_of_residuals] returns, with one explicit entry at
    every lower-triangular coordinate of the [|x|]-by-[|x|] block; those
    matrices hold the second derivatives of the residuals given by the
    four-term decomposition. *)
Theorem hessian_equality_constraints_lower_triangle (lam : list R) :
  residual_con_multipliers s = map Some lam ->
  length lam = nf ->
  0 < nf ->
  exists hess d2fdx2,
    evaluate_hessians_of_residuals w = (Ok d2fdx2, count_splu 2 w) /\
    evaluate_hessian_equality_constraints w = (Ok hess, count_splu 2 w) /\
    coo_shape hess = (nx, nx) /\
    coords hess = lower_triangle nx /\
    length (coo_data hess) = length (lower_triangle nx) /\
    NoDup (coords hess) /\
    (forall i j, In (i, j) (coords hess) <-> j <= i /\ i < nx) /\
    (forall i j v,
        In (i, j, v) (entries hess)
        <-> j <= i /\ i < nx /\ v = spec_weighted_sum lam d2fdx2 i j) /\
    (second_order_laws ->
     forall d i a b, i < nf -> a < nx -> b < nx ->
       item (nth i d2fdx2 d) a b = spec_d2fdx2 (var_values w) s fact i a b).
Proof.
  intros Hmult Hlen Hpos.
  pose proof (run_hessians_of_residuals nl_order_perm w evaluable_s factored
                lu_solve_length)
    as Hrun.
  set (d2f := d2fdx2_of (var_values w) s fact) in *.
  assert (Hd2f : length d2f = nf) by apply length_d2fdx2.
  destruct (@py_sum_from_zero lam d2f nx) as (r & Hsum & Hnr & Hnc & Hitem).
  { intros ->. simpl in Hlen. lia. }
  { intros E. rewrite E in Hd2f. simpl in Hd2f. lia. }
  { intros m Hm. now apply (d2fdx2_shape nl_order_perm w fact). }
  exists (tril (full_sparse nx nx (item r))), d2f.
  split; [exact Hrun|].
  split.
  { unfold evaluate_hessian_equality_constraints, bind. rewrite Hrun.
    unfold get_self, lift. cbn [self count_splu]. rewrite Hmult, Hsum.
    cbn [rbind]. rewrite dense_to_full_sparse_eq, Hnr, Hnc. reflexivity. }
  rewrite tril_full_sparse.
  split; [reflexivity|].
  assert (Hcoords :
            coords {| coo_shape := (nx, nx);
                      coo_row := map fst (lower_triangle nx);
                      coo_col := map snd (lower_triangle nx);
                      coo_data := map (fun ij => item r (fst ij) (snd ij))
                                      (lower_triangle nx) |}
            = lower_triangle nx) by apply combine_fst_snd.
  split; [exact Hcoords|].
  split; [apply length_map|].
  split; [rewrite Hcoords; apply NoDup_lower_triangle|].
  split; [intros i j; rewrite Hcoords; apply in_lower_triangle|].
  split.
  { intros i j v. unfold entries. rewrite Hcoords. cbn [coo_data].
    rewrite combine_map_r, in_map_iff. split.
    - intros ([i' j'] & Heq & Hin). inversion Heq; subst.
      apply in_lower_triangle in Hin. cbn [fst snd]. rewrite Hitem. tauto.
    - intros (Hji & Hi & ->). exists (i, j). cbn [fst snd]. rewrite Hitem.
      split; [reflexivity|]. now apply in_lower_triangle. }
  intros Hlaws d i a b Hi Ha Hb.
  now apply (d2fdx2_spec nl_order_perm w factored).
Qed.

End Lagrangian.

(** ** Construction, input changes and the life of a factorization *)

Section Lifecycle.
Context {R : Type} {SR : Scalar R} {EV : Evaluator R} {SLU : SparseLU R}.

(** C6, as the code has it.  [__init__] builds the evaluator of the whole
    model before it compares the two numbers.  So a partition in which the
    number of external variables differs from the number of external
    equations is always refused: with the assertion error of the partition
    check when some variable appears in the equations, and with the
    [ValueError] of the evaluator, raised first, when none does.
    Construction succeeds only when the two numbers are equal (and some
    variable appears in the equations); it then keeps the partition it was
    given. *)
Theorem init_requires_square_partition
    (ipopt : Solver R) (values : Values R) (iv ev : list Var)
    (rc ec : list Constraint) (solver : option (Solver R)) :
  let block := create_subsystem_block (rc ++ ec) (iv ++ ev) in
  (length ev <> length ec ->
   exists e, __init__ ipopt values iv ev rc ec solver = Raise e /\
             (block_variables block <> [] -> e = AssertionError) /\
             (block_variables block = [] -> e = ValueError)) /\
  (block_variables block = [] ->
   __init__ ipopt values iv ev rc ec solver = Raise ValueError) /\
  (forall m, __init__ ipopt values iv ev rc ec solver = Ok m ->
             length ev = length ec /\ block_variables block <> [] /\
             _block m = block /\ _nlp m = PyomoNLP block values) /\
  (length ev = length ec -> block_variables block <> [] ->
   exists m, __init__ ipopt values iv ev rc ec solver = Ok m /\
             input_vars m = iv /\ external_vars m = ev /\
             residual_cons m = rc /\ external_cons m = ec).
Proof.
  intros block. unfold __init__. fold block. unfold write_nl.
  destruct (block_variables block) as [|v vs] eqn:Hvars; cbn [rbind].
  - split.
    { intros _. exists ValueError. split; [reflexivity|].
      split; [intros H; now contradiction H | reflexivity]. }
    split; [reflexivity|].
    split; [intros m Hm; discriminate|].
    intros _ H. now contradiction H.
  - destruct (Nat.eqb_spec (length ev) (length ec)) as [Heq | Hne].
    + split; [intros Hne; contradiction|].
      split; [discriminate|].
      split.
      { intros m Hm. inversion Hm; subst m. cbn [_block _nlp].
        repeat split; [assumption | discriminate]. }
      intros _ _. eexists. split; [reflexivity|]. simpl. auto.
    + split.
      { intros _. exists AssertionError. split; [reflexivity|].
        split; [reflexivity | discriminate]. }
      split; [discriminate|].
      split; [intros m Hm; discriminate|].
      intros Heq. contradiction.
Qed.

(** The queries have no failure mode of their own for a model whose inputs
    were never set: the residual query never raises. *)
Lemma evaluate_equality_constraints_total (w : World R) :
  evaluate_equality_constraints w
  = (Ok (extract_subvector_constraints (_nlp (self w)) (residual_cons (self w))),
     w).
Proof. reflexivity. Qed.

(** C8, as the code has it.  On a model that [__init__] has just built,
    before any call of [set_input_values], [evaluate_equality_constraints]
    does not raise: it
    returns the residuals at the values the variables had at construction,
    and leaves the world as it was. *)
Theorem fresh_model_evaluates_residuals
    (ipopt : Solver R) (values : Values R) (iv ev : list Var)
    (rc ec : list Constraint) (solver : option (Solver R))
    (m : ExternalPyomoModel R) (w : World R) :
  __init__ ipopt values iv ev rc ec solver = Ok m ->
  self w = m ->
  evaluate_equality_constraints w
  = (Ok (map (fun c => con_value c values) rc), w).
Proof.
  unfold __init__. intros Hinit Hself.
  rewrite evaluate_equality_constraints_total, Hself.
  destruct (write_nl _); [|discriminate]. cbn [rbind] in Hinit.
  destruct (length ev =? length ec); [|discriminate].
  inversion Hinit. reflexivity.
Qed.

(** *** Factorizations are made per query *)

Lemma factors_ret {A} (a : A) : factors 0 (ret (R := R) a).
Proof.
  intros w. exists 0. cbn [ret snd fst]. rewrite count_splu_0. auto.
Qed.

Lemma factors_lift {A} (c : result A) : factors 0 (lift (R := R) c).
Proof.
  intros w. exists 0. cbn [lift snd fst]. rewrite count_splu_0. auto.
Qed.

Lemma factors_get_self : factors 0 (get_self (R := R)).
Proof.
  intros w. exists 0. cbn [get_self snd fst]. rewrite count_splu_0. auto.
Qed.

Lemma factors_get_values : factors 0 (get_values (R := R)).
Proof.
  intros w. exists 0. cbn [get_values snd fst]. rewrite count_splu_0. auto.
Qed.

Lemma factors_splu (a : ndarray R) : factors 1 (splu a).
Proof. intros w. exists 1. cbn [splu snd fst]. auto. Qed.

Lemma factors_bind {A B} (n m : nat) (c : M R A) (k : A -> M R B) :
  factors n c -> (forall a, factors m (k a)) -> factors (n + m) (bind c k).
Proof.
  intros Hc Hk w. destruct (Hc w) as (k1 & Hw1 & Hle1 & Hok1).
  unfold bind. destruct (c w) as [[a | e] w1]; cbn [snd fst] in *; subst w1.
  - destruct (Hk a (count_splu k1 w)) as (k2 & Hw2 & Hle2 & Hok2).
    exists (k2 + k1). rewrite Hw2, count_splu_add.
    split; [reflexivity|].
    pose proof (Hok1 a eq_refl). split; [lia|].
    intros r Hr. pose proof (Hok2 r Hr). lia.
  - exists k1. split; [reflexivity|]. split; [lia|]. discriminate.
Qed.

Lemma factors_bind_pure {A B} (n : nat) (c : M R A) (k : A -> M R B) :
  factors 0 c -> (forall a, factors n (k a)) -> factors n (bind c k).
Proof. apply (factors_bind (n := 0)). Qed.

Lemma factors_bind_one {A B} (n : nat) (c : M R A) (k : A -> M R B) :
  factors 1 c -> (forall a, factors n (k a)) -> factors (S n) (bind c k).
Proof. apply (factors_bind (n := 1)). Qed.

(** Steps that make no factorization, up to the next one that does. *)
Ltac factors_pure :=
  cbv zeta;
  repeat (apply factors_bind_pure;
          [first [apply factors_lift | apply factors_get_self
                 | apply factors_get_values | apply factors_ret]
          | intro; cbv zeta]);
  try first [apply factors_lift | apply factors_ret].

Lemma factors_jacobian_equality_constraints :
  factors 1 evaluate_jacobian_equality_constraints.
Proof.
  unfold evaluate_jacobian_equality_constraints. factors_pure.
  apply factors_bind_one; [apply factors_splu | intro]. factors_pure.
Qed.

Lemma factors_jacobian_external_variables :
  factors 1 evaluate_jacobian_external_variables.
Proof.
  unfold evaluate_jacobian_external_variables. factors_pure.
  apply factors_bind_one; [apply factors_splu | intro]. factors_pure.
Qed.

Lemma factors_hessian_external_variables :
  factors 1 evaluate_hessian_external_variables.
Proof.
  unfold evaluate_hessian_external_variables. factors_pure.
  apply factors_bind_one; [apply factors_splu | intro]. factors_pure.
Qed.

Lemma factors_hessians_of_residuals :
  factors 2 evaluate_hessians_of_residuals.
Proof.
  unfold evaluate_hessians_of_residuals. factors_pure.
  apply factors_bind_one; [apply factors_jacobian_external_variables | intro].
  factors_pure.
  apply factors_bind_one; [apply factors_hessian_external_variables | intro].
  factors_pure.
Qed.

Lemma factors_hessian_equality_constraints :
  factors 2 evaluate_hessian_equality_constraints.
Proof.
  unfold evaluate_hessian_equality_constraints.
  apply (factors_bind (n := 2) (m := 0));
    [apply factors_hessians_of_residuals | intro].
  factors_pure.
Qed.

Lemma splu_calls_set_input_values (w : World R) (input_values : list R) :
  splu_calls (snd (set_input_values input_values w)) = splu_calls w.
Proof.
  unfold set_input_values, bind, get_self, get_values, put_values, put_self,
    solve_subsystem, lift, ret.
  cbn [self var_values splu_calls].
  destruct (forallb _ _); [|reflexivity].
  destruct (_solver (self w) _ _ _) as [[res | e] values']; reflexivity.
Qed.

(** C7, as the code has it.  No factorization is kept on the model: a
    Jacobian or Hessian query leaves the world as it found it but for the
    count of [splu] calls, so every query factors [dg/dy] anew.  A call of
    [evaluate_jacobian_equality_constraints],
    [evaluate_jacobian_external_variables] or
    [evaluate_hessian_external_variables] that returns has made exactly one
    call of [splu] (which, inside the last, serves [dy/dx] and every
    right-hand side), and one that raises has made at most one; a call of
    [evaluate_hessians_of_residuals] or
    [evaluate_hessian_equality_constraints] that returns has made exactly
    two, and one that raises at most two; [set_input_values] and
    [evaluate_equality_constraints] make none. *)
Theorem factorization_made_by_every_query :
  factors 1 evaluate_jacobian_equality_constraints /\
  factors 1 evaluate_jacobian_external_variables /\
  factors 1 evaluate_hessian_external_variables /\
  factors 2 evaluate_hessians_of_residuals /\
  factors 2 evaluate_hessian_equality_constraints /\
  (forall (w : World R) input_values,
      splu_calls (snd (set_input_values input_values w)) = splu_calls w) /\
  (forall w : World R, snd (evaluate_equality_constraints w) = w).
Proof.
  split; [apply factors_jacobian_equality_constraints|].
  split; [apply factors_jacobian_external_variables|].
  split; [apply factors_hessian_external_variables|].
  split; [apply factors_hessians_of_residuals|].
  split; [apply factors_hessian_equality_constraints|].
  split; [intros; apply splu_calls_set_input_values|].
  reflexivity.
Qed.

End Lifecycle.

(** ** Assigning the inputs and the nested solve *)

Section InputChange.
Context {R : Type} {SR : Scalar R} {EV : Evaluator R}.

Lemma set_value_same (s : Values R) (v : Var) (val : R) :
  set_value s v val v = val.
Proof. unfold set_value. destruct (Var_eq_dec v v); congruence. Qed.

Lemma set_value_other (s : Values R) (v u : Var) (val : R) :
  u <> v -> set_value s v val u = s u.
Proof. unfold set_value. intros H. destruct (Var_eq_dec u v); congruence. Qed.

Lemma in_firstn_in {A} (n : nat) (l : list A) (a : A) :
  In a (firstn n l) -> In a l.
Proof.
  intros H. rewrite <- (firstn_skipn n l). apply in_or_app. now left.
Qed.

Lemma assign_inputs_cons (v : Var) (vars : list Var) (val : R) (vals : list R)
    (s : Values R) :
  assign_inputs (v :: vars) (val :: vals) s
  = assign_inputs vars vals (set_value s v val).
Proof. reflexivity. Qed.

(** A variable outside the assigned prefix keeps its value. *)
Lemma assign_inputs_other (vars : list Var) :
  forall (vals : list R) (s : Values R) (u : Var),
    ~ In u (firstn (length vals) vars) ->
    assign_inputs vars vals s u = s u.
Proof.
  induction vars as [|v vars IH]; intros vals s u Hu.
  - reflexivity.
  - destruct vals as [|val vals]; [reflexivity|].
    rewrite assign_inputs_cons. cbn [length firstn] in Hu.
    rewrite IH by (intros Hin; apply Hu; now right).
    apply set_value_other. intros ->. apply Hu. now left.
Qed.

(** The [i]-th variable receives the [i]-th value when there is one. *)
Lemma assign_inputs_nth (vars : list Var) :
  NoDup vars ->
  forall (vals : list R) (s : Values R) (i : nat) (d : Var) (d' : R),
    i < length vars -> i < length vals ->
    assign_inputs vars vals s (nth i vars d) = nth i vals d'.
Proof.
  induction 1 as [|v vars Hv Hnd IH]; intros vals s i d d' Hi Hi'.
  - simpl in Hi. lia.
  - destruct vals as [|val vals]; [simpl in Hi'; lia|].
    rewrite assign_inputs_cons. destruct i as [|i]; cbn [nth].
    + rewrite assign_inputs_other.
      * apply set_value_same.
      * intros Hin. apply Hv. eapply in_firstn_in. exact Hin.
    + apply IH; simpl in Hi, Hi'; lia.
Qed.

(** The variables past the end of the values keep theirs. *)
Lemma assign_inputs_rest (vars : list Var) (vals : list R) (s : Values R)
    (i : nat) (d : Var) :
  NoDup vars -> length vals <= i -> i < length vars ->
  assign_inputs vars vals s (nth i vars d) = s (nth i vars d).
Proof.
  intros Hnd Hle Hi. apply assign_inputs_other. intros Hin.
  apply (In_nth _ _ d) in Hin. destruct Hin as (k & Hk & Heq).
  rewrite length_firstn in Hk.
  rewrite nth_firstn in Heq.
  assert (Hkl : k < length vals) by lia.
  apply Nat.ltb_lt in Hkl. rewrite Hkl in Heq.
  apply Nat.ltb_lt in Hkl.
  apply (proj1 (NoDup_nth vars d) Hnd) in Heq; lia.
Qed.

Lemma assign_inputs_outside (vars : list Var) (vals : list R) (s : Values R)
    (u : Var) :
  ~ In u vars -> assign_inputs vars vals s u = s u.
Proof.
  intros Hu. apply assign_inputs_other. intros Hin. apply Hu.
  eapply in_firstn_in. exact Hin.
Qed.

Lemma combine_app_ignore {A B} (l : list A) (l1 l2 : list B) :
  length l1 = length l -> combine l (l1 ++ l2) = combine l l1.
Proof.
  revert l1. induction l as [|a l IH]; intros [|b l1] Hlen; simpl in *;
    try reflexivity; try discriminate.
  f_equal. apply IH. lia.
Qed.

(** What [set_input_values] does, by cases on the assertion and on the
    outcome of the solver. *)
Lemma run_set_input_values (w : World R) (input_values : list R) :
  let s := self w in
  let assigned := assign_inputs (input_vars s) input_values (var_values w) in
  let _temp := create_subsystem_block (external_cons s) (external_vars s) in
  set_input_values input_values w
  = if forallb (fun var => var_in var (input_vars s)) (block_input_vars _temp)
    then match _solver s _temp (input_vars s) assigned with
         | (Ok _, values') =>
             (Ok tt, {| self := with_nlp s (PyomoNLP (_block s) values');
                        var_values := values';
                        splu_calls := splu_calls w |})
         | (Raise e, values') =>
             (Raise e, {| self := s; var_values := values';
                          splu_calls := splu_calls w |})
         end
    else (Raise AssertionError,
          {| self := s; var_values := assigned; splu_calls := splu_calls w |}).
Proof.
  intros s assigned _temp.
  unfold set_input_values, bind, get_self, get_values, put_values, put_self,
    solve_subsystem, lift, ret.
  cbn [self var_values splu_calls]. fold s. fold assigned. fold _temp.
  destruct (forallb _ _); [|reflexivity].
  cbn [self var_values splu_calls].
  destruct (_solver s _temp (input_vars s) assigned) as [[res | e] values'];
    reflexivity.
Qed.

(** After a call that returns, the evaluator of the model holds the values
    the variables have: the Jacobian blocks (taken from the evaluator) and
    the constraint Hessians (taken at the variables) are then at one and
    the same point.  The partition and the multipliers are as before. *)
Lemma set_input_values_ready (w w' : World R) (input_values : list R) :
  set_input_values input_values w = (Ok tt, w') ->
  nlp_primals (_nlp (self w')) = var_values w' /\
  input_vars (self w') = input_vars (self w) /\
  external_vars (self w') = external_vars (self w) /\
  residual_cons (self w') = residual_cons (self w) /\
  external_cons (self w') = external_cons (self w) /\
  residual_con_multipliers (self w') = residual_con_multipliers (self w).
Proof.
  rewrite run_set_input_values.
  destruct (forallb _ _); [|discriminate].
  destruct (_solver _ _ _ _) as [[res | e] values']; [|discriminate].
  intros H. inversion H; subst w'. simpl. auto 10.
Qed.

Lemma set_multipliers_loop_ok (vals : list R) :
  forall (w : World R) (done : list (option R)) (old : list (option R)),
    residual_con_multipliers (self w) = done ++ old ->
    length old = length vals ->
    set_multipliers_loop (length done) vals w
    = (Ok tt, {| self := with_multipliers (self w) (done ++ map Some vals);
                 var_values := var_values w;
                 splu_calls := splu_calls w |}).
Proof.
  assert (Hset : forall (done old : list (option R)) o val,
             list_setitem (done ++ o :: old) (length done) val
             = Ok (done ++ val :: old)).
  { induction done as [|d done IH]; intros old o val; simpl; [reflexivity|].
    now rewrite IH. }
  induction vals as [|val vals IH]; intros w done old Hms Hlen.
  - destruct old; [|discriminate]. simpl. rewrite app_nil_r in *.
    unfold ret. destruct w as [sf vs n]. destruct sf. simpl in *.
    now subst.
  - destruct old as [|o old]; [discriminate|].
    cbn [set_multipliers_loop]. unfold bind, get_self, lift, put_self.
    rewrite Hms, Hset.
    replace (S (length done)) with (length (done ++ [Some val]))
      by (rewrite length_app; simpl; lia).
    rewrite (IH _ (done ++ [Some val]) old).
    + cbn [self var_values splu_calls with_multipliers map].
      now rewrite <- app_assoc.
    + cbn [self with_multipliers residual_con_multipliers].
      now rewrite <- app_assoc.
    + simpl in Hlen. lia.
Qed.

(** Setting one multiplier per residual equation stores them all. *)
Lemma run_set_equality_constraint_multipliers (w : World R) (lam : list R) :
  length lam = length (residual_con_multipliers (self w)) ->
  set_equality_constraint_multipliers lam w
  = (Ok tt, {| self := with_multipliers (self w) (map Some lam);
               var_values := var_values w;
               splu_calls := splu_calls w |}).
Proof.
  intros Hlen. unfold set_equality_constraint_multipliers.
  apply (set_multipliers_loop_ok lam w [] (residual_con_multipliers (self w)));
    [reflexivity | now symmetry].
Qed.

(** C9, as the code has it.  When the nested solve raises, [set_input_values]
    raises the same exception; the evaluator and the multipliers of the
    model are the ones from before the call, but the variables are left at
    the values the solver left them at, so that (for a solver that does not
    touch the variables it was told to hold fixed) every input variable that
    received a new value keeps it.  When the solver returns without raising,
    its results are not inspected: the evaluator is rebuilt at the values it
    left, whether or not it reports convergence. *)
Theorem set_input_values_solver_outcome
    (w : World R) (input_values : list R) :
  let s := self w in
  let assigned := assign_inputs (input_vars s) input_values (var_values w) in
  let _temp := create_subsystem_block (external_cons s) (external_vars s) in
  forallb (fun var => var_in var (input_vars s)) (block_input_vars _temp) = true ->
  (forall e values',
      _solver s _temp (input_vars s) assigned = (Raise e, values') ->
      set_input_values input_values w
      = (Raise e, {| self := s; var_values := values';
                     splu_calls := splu_calls w |}) /\
      (NoDup (input_vars s) ->
       (forall v, In v (input_vars s) -> values' v = assigned v) ->
       forall i, i < length input_values -> i < length (input_vars s) ->
         values' (nth i (input_vars s) DummyVar) = nth i input_values r0)) /\
  (forall res values',
      _solver s _temp (input_vars s) assigned = (Ok res, values') ->
      set_input_values input_values w
      = (Ok tt, {| self := with_nlp s (PyomoNLP (_block s) values');
                   var_values := values';
                   splu_calls := splu_calls w |})).
Proof.
  intros s assigned _temp Hassert.
  pose proof (run_set_input_values w input_values) as Hrun.
  cbv zeta in Hrun. fold s in Hrun. fold assigned in Hrun. fold _temp in Hrun.
  rewrite Hassert in Hrun.
  split.
  - intros e values' Hsolve. rewrite Hsolve in Hrun. split; [exact Hrun|].
    intros Hnd Hfixed i Hi Hi'.
    rewrite Hfixed by (apply nth_In; exact Hi').
    unfold assigned. now apply assign_inputs_nth.
  - intros res values' Hsolve. now rewrite Hsolve in Hrun.
Qed.

(** C10. A call with fewer values than inputs raises no length error: the
    first [len(input_values)] input variables take the new values, the other
    input variables (and every other variable) keep the value they had, and
    the call goes on to the assertion and the nested solve with these mixed
    values, its outcome being the solver's.  Values beyond [n_inputs()] are
    ignored. *)
Theorem set_input_values_short_input (w : World R) (input_values : list R) :
  let s := self w in
  length input_values < n_inputs s ->
  NoDup (input_vars s) ->
  let mixed := assign_inputs (input_vars s) input_values (var_values w) in
  let _temp := create_subsystem_block (external_cons s) (external_vars s) in
  (forall i, i < length input_values ->
     mixed (nth i (input_vars s) DummyVar) = nth i input_values r0) /\
  (forall i, length input_values <= i -> i < n_inputs s ->
     mixed (nth i (input_vars s) DummyVar)
     = var_values w (nth i (input_vars s) DummyVar)) /\
  (forall v, ~ In v (input_vars s) -> mixed v = var_values w v) /\
  set_input_values input_values w
  = (if forallb (fun var => var_in var (input_vars s)) (block_input_vars _temp)
     then match _solver s _temp (input_vars s) mixed with
          | (Ok _, values') =>
              (Ok tt, {| self := with_nlp s (PyomoNLP (_block s) values');
                         var_values := values';
                         splu_calls := splu_calls w |})
          | (Raise e, values') =>
              (Raise e, {| self := s; var_values := values';
                           splu_calls := splu_calls w |})
          end
     else (Raise AssertionError,
           {| self := s; var_values := mixed; splu_calls := splu_calls w |})) /\
  (forall full extra, length full = n_inputs s ->
     set_input_values (full ++ extra) w = set_input_values full w).
Proof.
  intros s Hshort Hnd mixed _temp. unfold n_inputs in *.
  split.
  { intros i Hi. unfold mixed. apply assign_inputs_nth; [assumption|lia|lia]. }
  split.
  { intros i Hle Hi. unfold mixed. now apply assign_inputs_rest. }
  split.
  { intros v Hv. unfold mixed. now apply assign_inputs_outside. }
  split.
  { apply run_set_input_values. }
  intros full extra Hfull.
  rewrite !run_set_input_values. fold s.
  unfold assign_inputs. now rewrite combine_app_ignore.
Qed.

End InputChange.

(** ** Names of inputs and residuals *)

Section NameFacts.
Context {R : Type}.

Lemma append_inj_l (p a b : string) :
  String.append p a = String.append p b -> a = b.
Proof.
  induction p as [|c p IH]; simpl; intros H; [assumption|].
  inversion H. auto.
Qed.

Lemma format_index_inj (prefix : string) (i j : nat) :
  format_index prefix i = format_index prefix j -> i = j.
Proof.
  unfold format_index. intros H. apply append_inj_l in H.
  apply (f_equal DecimalString.NilEmpty.uint_of_string) in H.
  rewrite !DecimalString.NilEmpty.usu in H. inversion H as [H'].
  apply (f_equal Nat.of_uint) in H'.
  now rewrite !DecimalNat.Unsigned.of_to in H'.
Qed.

Lemma NoDup_map_range {B} (h : nat -> B) (n : nat) :
  (forall i j, h i = h j -> i = j) -> NoDup (map h (range n)).
Proof.
  intros Hinj. apply Finite.Injective_map_NoDup; [exact Hinj | apply NoDup_range].
Qed.

Lemma nth_error_map_range {B} (h : nat -> B) (n i : nat) :
  i < n -> nth_error (map h (range n)) i = Some (h i).
Proof.
  intros Hi. rewrite nth_error_map. unfold range.
  rewrite nth_error_nth' with (d := 0) by now rewrite length_seq.
  now rewrite seq_nth.
Qed.

(** X1. [input_names] and [equality_constraint_names] give one name per
    input and per residual equation; the name at position [i] is the prefix
    followed by the decimal digits of [i]; no name is given twice, and no
    input shares its name with a residual. *)
Theorem names_are_positional_and_distinct (s : ExternalPyomoModel R) :
  length (input_names s) = n_inputs s /\
  length (equality_constraint_names s) = n_equality_constraints s /\
  (forall i, i < n_inputs s ->
     nth_error (input_names s) i = Some (format_index "input_" i)) /\
  (forall i, i < n_equality_constraints s ->
     nth_error (equality_constraint_names s) i
     = Some (format_index "residual_" i)) /\
  NoDup (input_names s) /\
  NoDup (equality_constraint_names s) /\
  (forall a b, In a (input_names s) -> In b (equality_constraint_names s) ->
               a <> b).
Proof.
  unfold input_names, equality_constraint_names.
  split; [now rewrite length_map, length_range|].
  split; [now rewrite length_map, length_range|].
  split; [intros i Hi; now apply nth_error_map_range|].
  split; [intros i Hi; now apply nth_error_map_range|].
  split; [apply NoDup_map_range; intros i j; apply format_index_inj|].
  split; [apply NoDup_map_range; intros i j; apply format_index_inj|].
  intros a b Ha Hb. apply in_map_iff in Ha, Hb.
  destruct Ha as (i & <- & _). destruct Hb as (j & <- & _).
  unfold format_index. simpl. discriminate.
Qed.

End NameFacts.

(** ** Queries write nothing *)

Section ReadOnly.
Context {R : Type} {SR : Scalar R} {EV : Evaluator R} {SLU : SparseLU R}.

Lemma read_only_ret {A} (a : A) : read_only (ret (R := R) a).
Proof. intros s v. exists (Ok a), 0. reflexivity. Qed.

Lemma read_only_lift {A} (c : result A) : read_only (lift (R := R) c).
Proof. intros s v. exists c, 0. reflexivity. Qed.

Lemma read_only_get_self : read_only (get_self (R := R)).
Proof. intros s v. exists (Ok s), 0. reflexivity. Qed.

Lemma read_only_get_values : read_only (get_values (R := R)).
Proof. intros s v. exists (Ok v), 0. reflexivity. Qed.

Lemma read_only_splu (a : ndarray R) : read_only (splu a).
Proof. intros s v. exists (splu_factor a), 1. reflexivity. Qed.

Lemma read_only_bind {A B} (c : M R A) (k : A -> M R B) :
  read_only c -> (forall a, read_only (k a)) -> read_only (bind c k).
Proof.
  intros Hc Hk s v. destruct (Hc s v) as (r & k1 & Hr).
  destruct r as [a | e].
  - destruct (Hk a s v) as (r2 & k2 & Hr2).
    exists r2, (k2 + k1). intros n. unfold bind. rewrite Hr, Hr2.
    now rewrite Nat.add_assoc.
  - exists (Raise e), k1. intros n. unfold bind. now rewrite Hr.
Qed.

(** Building the property along the [bind]s of a method. *)
Ltac read_only_steps :=
  repeat first
    [ apply read_only_ret | apply read_only_lift | apply read_only_get_self
    | apply read_only_get_values | apply read_only_splu | assumption
    | apply read_only_bind; [| intros ?; cbv zeta] ].

Lemma read_only_equality_constraints :
  read_only (evaluate_equality_constraints (R := R)).
Proof. unfold evaluate_equality_constraints. read_only_steps. Qed.

Lemma read_only_jacobian_equality_constraints :
  read_only (evaluate_jacobian_equality_constraints (R := R)).
Proof. unfold evaluate_jacobian_equality_constraints. read_only_steps. Qed.

Lemma read_only_jacobian_external_variables :
  read_only (evaluate_jacobian_external_variables (R := R)).
Proof. unfold evaluate_jacobian_external_variables. read_only_steps. Qed.

Lemma read_only_hessian_external_variables :
  read_only (evaluate_hessian_external_variables (R := R)).
Proof. unfold evaluate_hessian_external_variables. read_only_steps. Qed.

Lemma read_only_hessians_of_residuals :
  read_only (evaluate_hessians_of_residuals (R := R)).
Proof.
  pose proof read_only_jacobian_external_variables.
  pose proof read_only_hessian_external_variables.
  unfold evaluate_hessians_of_residuals. read_only_steps.
Qed.

Lemma read_only_hessian_equality_constraints :
  read_only (evaluate_hessian_equality_constraints (R := R)).
Proof.
  pose proof read_only_hessians_of_residuals.
  unfold evaluate_hessian_equality_constraints. read_only_steps.
Qed.

(** What a read-only method leaves behind, and what it returns after
    another one. *)
Lemma read_only_world {A} (c : M R A) (w : World R) :
  read_only c ->
  exists k, snd (c w) = count_splu k w.
Proof.
  intros Hc. destruct w as [s v n]. destruct (Hc s v) as (r & k & Hr).
  exists k. now rewrite Hr.
Qed.

Lemma read_only_result {A} (c : M R A) (w : World R) (k : nat) :
  read_only c -> fst (c (count_splu k w)) = fst (c w).
Proof.
  intros Hc. destruct w as [s v n]. destruct (Hc s v) as (r & k' & Hr).
  unfold count_splu. cbn [self var_values splu_calls]. now rewrite !Hr.
Qed.

(** X2. The six evaluation queries write nothing but the count of
    factorizations: each leaves the instance and the values of the variables
    as they are, and what a query returns is the same whatever queries ran
    before it (so asking twice gives the same answer twice). *)
Theorem queries_are_read_only :
  read_only (evaluate_equality_constraints (R := R)) /\
  read_only (evaluate_jacobian_equality_constraints (R := R)) /\
  read_only (evaluate_jacobian_external_variables (R := R)) /\
  read_only (evaluate_hessian_external_variables (R := R)) /\
  read_only (evaluate_hessians_of_residuals (R := R)) /\
  read_only (evaluate_hessian_equality_constraints (R := R)) /\
  (forall A B (q1 : M R A) (q2 : M R B) (w : World R),
      read_only q1 -> read_only q2 ->
      self (snd (q1 w)) = self w /\
      var_values (snd (q1 w)) = var_values w /\
      fst (q2 (snd (q1 w))) = fst (q2 w) /\
      fst (q1 (snd (q1 w))) = fst (q1 w)).
Proof.
  split; [apply read_only_equality_constraints|].
  split; [apply read_only_jacobian_equality_constraints|].
  split; [apply read_only_jacobian_external_variables|].
  split; [apply read_only_hessian_external_variables|].
  split; [apply read_only_hessians_of_residuals|].
  split; [apply read_only_hessian_equality_constraints|].
  intros A B q1 q2 w H1 H2.
  destruct (read_only_world w H1) as [k Hk]. rewrite Hk.
  repeat split; try reflexivity; now apply read_only_result.
Qed.

End ReadOnly.

(** ** Setting the multipliers *)

Section Multipliers.
Context {R : Type} {SR : Scalar R} {EV : Evaluator R} {SLU : SparseLU R}.

Lemma list_setitem_middle {A} (done old : list A) (o val : A) :
  list_setitem (done ++ o :: old) (length done) val = Ok (done ++ val :: old).
Proof.
  induction done as [|d done IH]; simpl; [reflexivity|]. now rewrite IH.
Qed.

Lemma list_setitem_end {A} (l : list A) (val : A) :
  list_setitem l (length l) val = Raise IndexError.
Proof.
  induction l as [|a l IH]; simpl; [reflexivity|]. now rewrite IH.
Qed.

Lemma world_eta (w : World R) (ms : list (option R)) :
  residual_con_multipliers (self w) = ms ->
  w = {| self := with_multipliers (self w) ms;
         var_values := var_values w; splu_calls := splu_calls w |}.
Proof. destruct w as [[] ? ?]. simpl. now intros ->. Qed.

(** The loop over [enumerate(eq_con_multipliers)], from any position:
    it stores values while there are slots, and raises at the first value
    that has none. *)
Lemma set_multipliers_loop_run (vals : list R) :
  forall (w : World R) (done old : list (option R)),
    residual_con_multipliers (self w) = done ++ old ->
    set_multipliers_loop (length done) vals w
    = (if length vals <=? length old then Ok tt else Raise IndexError,
       {| self := with_multipliers (self w)
                    (done ++ map Some (firstn (length old) vals)
                          ++ skipn (length vals) old);
          var_values := var_values w;
          splu_calls := splu_calls w |}).
Proof.
  induction vals as [|val vals IH]; intros w done old Hms.
  - cbn [set_multipliers_loop length Nat.leb map firstn skipn app].
    rewrite firstn_nil. cbn [map app]. unfold ret. f_equal.
    now apply world_eta.
  - cbn [set_multipliers_loop]. unfold bind, get_self, lift, put_self.
    rewrite Hms. destruct old as [|o old].
    + rewrite app_nil_r, list_setitem_end.
      cbn [length Nat.leb firstn map skipn app]. rewrite app_nil_r.
      f_equal. apply world_eta. now rewrite Hms, app_nil_r.
    + rewrite list_setitem_middle.
      replace (S (length done)) with (length (done ++ [Some val]))
        by (rewrite length_app; simpl; lia).
      rewrite (IH _ (done ++ [Some val]) old)
        by (cbn [self with_multipliers residual_con_multipliers];
            now rewrite <- app_assoc).
      cbn [self var_values splu_calls with_multipliers length Nat.leb firstn
           skipn map].
      now rewrite <- app_assoc.
Qed.

Lemma run_set_multipliers (w : World R) (lam : list R) :
  let old := residual_con_multipliers (self w) in
  set_equality_constraint_multipliers lam w
  = (if length lam <=? length old then Ok tt else Raise IndexError,
     {| self := with_multipliers (self w)
                  (map Some (firstn (length old) lam) ++ skipn (length lam) old);
        var_values := var_values w;
        splu_calls := splu_calls w |}).
Proof.
  intros old. unfold set_equality_constraint_multipliers.
  apply (set_multipliers_loop_run lam w [] old). reflexivity.
Qed.

(** X3. [set_equality_constraint_multipliers] with no more values than
    there are multipliers returns normally; it overwrites the first
    [len(values)] multipliers, keeps the later ones as they were, and changes
    nothing else: the evaluator, the variables and the count of
    factorizations are untouched. *)
Theorem set_multipliers_overwrites_prefix (w : World R) (lam : list R) :
  length lam <= length (residual_con_multipliers (self w)) ->
  set_equality_constraint_multipliers lam w
  = (Ok tt,
     {| self := with_multipliers (self w)
                  (map Some lam
                   ++ skipn (length lam) (residual_con_multipliers (self w)));
        var_values := var_values w;
        splu_calls := splu_calls w |}).
Proof.
  intros Hle. rewrite run_set_multipliers.
  apply Nat.leb_le in Hle. rewrite Hle. apply Nat.leb_le in Hle.
  now rewrite firstn_all2.
Qed.

(** X4. With more values than there are multipliers the call raises
    [IndexError], and by then every multiplier has been overwritten by the
    value at its position: the values that fit are stored, not rolled
    back. *)
Theorem set_multipliers_too_many (w : World R) (lam : list R) :
  length (residual_con_multipliers (self w)) < length lam ->
  set_equality_constraint_multipliers lam w
  = (Raise IndexError,
     {| self := with_multipliers (self w)
                  (map Some (firstn (length (residual_con_multipliers (self w)))
                                    lam));
        var_values := var_values w;
        splu_calls := splu_calls w |}).
Proof.
  intros Hlt. rewrite run_set_multipliers.
  replace (length lam <=? length (residual_con_multipliers (self w)))
    with false by (symmetry; apply Nat.leb_gt; exact Hlt).
  rewrite skipn_all2 by lia. now rewrite app_nil_r.
Qed.

(** What the derivative queries read: the evaluator, the partition and,
    for the second-order ones, the values of the variables. *)
Lemma fst_bind_congr {A B} (c1 c2 : M R A) (k1 k2 : A -> M R B)
    (w1 w2 : World R) :
  fst (c1 w1) = fst (c2 w2) ->
  (forall a, fst (k1 a (snd (c1 w1))) = fst (k2 a (snd (c2 w2)))) ->
  fst (bind c1 k1 w1) = fst (bind c2 k2 w2).
Proof.
  unfold bind.
  destruct (c1 w1) as [[a | e] w1'], (c2 w2) as [[a' | e'] w2'];
    cbn [fst snd]; intros H Hk; inversion H; subst; auto.
Qed.

(** Steps whose result does not depend on the world. *)
Ltac reads_steps :=
  repeat (apply fst_bind_congr; [reflexivity | intro; cbn [snd lift splu]]);
  try reflexivity.

Lemma factors_keeps {A} (n : nat) (c : M R A) (w : World R) :
  factors n c ->
  self (snd (c w)) = self w /\ var_values (snd (c w)) = var_values w.
Proof.
  intros Hc. destruct (Hc w) as (k & -> & _). now split.
Qed.

Lemma jacobian_equality_constraints_reads (w1 w2 : World R) :
  _nlp (self w1) = _nlp (self w2) ->
  input_vars (self w1) = input_vars (self w2) ->
  external_vars (self w1) = external_vars (self w2) ->
  residual_cons (self w1) = residual_cons (self w2) ->
  external_cons (self w1) = external_cons (self w2) ->
  fst (evaluate_jacobian_equality_constraints w1)
  = fst (evaluate_jacobian_equality_constraints w2).
Proof.
  intros Hn Hx Hy Hf Hg.
  unfold evaluate_jacobian_equality_constraints.
  rewrite !bind_get_self. cbv zeta.
  rewrite Hn, Hx, Hy, Hf, Hg. reads_steps.
Qed.

Lemma jacobian_external_variables_reads (w1 w2 : World R) :
  _nlp (self w1) = _nlp (self w2) ->
  input_vars (self w1) = input_vars (self w2) ->
  external_vars (self w1) = external_vars (self w2) ->
  external_cons (self w1) = external_cons (self w2) ->
  fst (evaluate_jacobian_external_variables w1)
  = fst (evaluate_jacobian_external_variables w2).
Proof.
  intros Hn Hx Hy Hg.
  unfold evaluate_jacobian_external_variables.
  rewrite !bind_get_self. cbv zeta.
  rewrite Hn, Hx, Hy, Hg. reads_steps.
Qed.

Lemma hessian_external_variables_reads (w1 w2 : World R) :
  _nlp (self w1) = _nlp (self w2) ->
  input_vars (self w1) = input_vars (self w2) ->
  external_vars (self w1) = external_vars (self w2) ->
  external_cons (self w1) = external_cons (self w2) ->
  var_values w1 = var_values w2 ->
  fst (evaluate_hessian_external_variables w1)
  = fst (evaluate_hessian_external_variables w2).
Proof.
  intros Hn Hx Hy Hg Hv.
  unfold evaluate_hessian_external_variables.
  rewrite !bind_get_self. cbv zeta.
  rewrite Hn, Hx, Hy, Hg. reads_steps.
  rewrite !bind_get_values. cbn [var_values]. now rewrite Hv.
Qed.

Lemma hessians_of_residuals_reads (w1 w2 : World R) :
  _nlp (self w1) = _nlp (self w2) ->
  input_vars (self w1) = input_vars (self w2) ->
  external_vars (self w1) = external_vars (self w2) ->
  residual_cons (self w1) = residual_cons (self w2) ->
  external_cons (self w1) = external_cons (self w2) ->
  var_values w1 = var_values w2 ->
  fst (evaluate_hessians_of_residuals w1)
  = fst (evaluate_hessians_of_residuals w2).
Proof.
  intros Hn Hx Hy Hf Hg Hv.
  unfold evaluate_hessians_of_residuals. rewrite !bind_get_self. cbv zeta.
  rewrite Hn, Hx, Hf.
  apply fst_bind_congr; [reflexivity | intros jfx; cbn [snd lift]].
  rewrite Hy.
  apply fst_bind_congr; [reflexivity | intros jfy; cbn [snd lift]].
  apply fst_bind_congr;
    [apply jacobian_external_variables_reads; congruence | intros dydx].
  destruct (factors_keeps w1 factors_jacobian_external_variables) as [Hs1 Hv1].
  destruct (factors_keeps w2 factors_jacobian_external_variables) as [Hs2 Hv2].
  rewrite !bind_get_values, Hv1, Hv2, Hv.
  apply fst_bind_congr; [reflexivity | intros hfxx; cbn [snd lift]].
  apply fst_bind_congr; [reflexivity | intros hfxy; cbn [snd lift]].
  apply fst_bind_congr; [reflexivity | intros hfyy; cbn [snd lift]].
  apply fst_bind_congr; [|intros d2ydx2; reflexivity].
  apply hessian_external_variables_reads; rewrite ?Hs1, ?Hs2; congruence.
Qed.

(** X5. The multipliers matter to [evaluate_hessian_equality_constraints]
    only: whatever [set_equality_constraint_multipliers] is given, and
    whether it returns or raises, the residuals, the Jacobian, [dy/dx],
    [d2y/dx2] and the Hessians of the residuals are afterwards what they
    were before. *)
Theorem multipliers_leave_other_queries (w : World R) (lam : list R) :
  let w' := snd (set_equality_constraint_multipliers lam w) in
  fst (evaluate_equality_constraints w')
  = fst (evaluate_equality_constraints w) /\
  fst (evaluate_jacobian_equality_constraints w')
  = fst (evaluate_jacobian_equality_constraints w) /\
  fst (evaluate_jacobian_external_variables w')
  = fst (evaluate_jacobian_external_variables w) /\
  fst (evaluate_hessian_external_variables w')
  = fst (evaluate_hessian_external_variables w) /\
  fst (evaluate_hessians_of_residuals w')
  = fst (evaluate_hessians_of_residuals w).
Proof.
  intros w'. unfold w'. rewrite run_set_multipliers. cbn [snd].
  split; [reflexivity|].
  split; [now apply jacobian_equality_constraints_reads|].
  split; [now apply jacobian_external_variables_reads|].
  split; [now apply hessian_external_variables_reads|].
  now apply hessians_of_residuals_reads.
Qed.

End Multipliers.

(** ** Error paths of the Hessian of the Lagrangian and of the factorization *)

(** ** Error paths of the Hessian of the Lagrangian and of the factorization *)

Section ErrorPaths.
Context {R : Type} {SR : Scalar R} {EV : Evaluator R} {SLU : SparseLU R}.

(** The builtin [sum] stops at the first multiplier that is still [None]. *)
Lemma py_sum_unset (ms : list (option R)) :
  forall (hs : list (ndarray R)) (acc : pyobj R) (n k : nat),
    (forall h, In h hs -> nrow h = n /\ ncol h = n) ->
    match acc with
    | PyInt0 => True
    | PyArray a => nrow a = n /\ ncol a = n
    end ->
    nth_error ms k = Some None ->
    k < length hs ->
    py_sum (combine ms hs) acc = Raise TypeError.
Proof.
  induction ms as [|m ms IH]; intros hs acc n k Hshape Hacc Hk Hlt.
  - destruct k; discriminate.
  - destruct hs as [|h hs]; [simpl in Hlt; lia|].
    destruct (Hshape h (or_introl eq_refl)) as [Hr Hc].
    destruct k as [|k].
    + simpl in Hk. inversion Hk; subst m. reflexivity.
    + destruct m as [c|]; [|reflexivity].
      cbn [combine py_sum py_mul rbind].
      assert (Hadd : exists a, py_add acc (mscale c h) = Ok (PyArray a) /\
                               nrow a = n /\ ncol a = n).
      { destruct acc as [|a]; cbn [py_add].
        - eexists. split; [reflexivity|]. now cbn [nrow ncol zero_plus mscale].
        - destruct Hacc as [Har Hac].
          rewrite madd_ok by (cbn [nrow ncol mscale]; congruence).
          eexists. split; [reflexivity|]. now cbn [nrow ncol matadd]. }
      destruct Hadd as (a & -> & Har & Hac). cbn [rbind].
      apply (IH hs (PyArray a) n k).
      * intros h' Hh'. apply Hshape. now right.
      * now split.
      * exact Hk.
      * simpl in Hlt. lia.
Qed.

Hypothesis nl_order_perm : forall l, Permutation (nl_order l) l.

(** X6. [evaluate_hessian_equality_constraints] needs every multiplier:
    when the evaluator knows every input and external variable, the
    factorization of [dg/dy] succeeds and the multiplier of some residual
    equation is still the initial [None] (as all are until
    [set_equality_constraint_multipliers] is called), it raises
    [TypeError], after the two factorizations. *)
Theorem hessian_equality_constraints_unset_multiplier
    (w : World R) (fact : SuperLU R) (k : nat) :
  evaluable (self w) ->
  splu_factor (jac_gy (self w)) = Ok fact ->
  (forall b, length b = length (external_vars (self w)) ->
             length (lu_solve (lu_factors fact) b) = length b) ->
  k < n_equality_constraints (self w) ->
  nth_error (residual_con_multipliers (self w)) k = Some None ->
  evaluate_hessian_equality_constraints w = (Raise TypeError, count_splu 2 w).
Proof.
  intros Hev Hf Hlen Hk Hnone.
  unfold evaluate_hessian_equality_constraints, bind.
  rewrite (run_hessians_of_residuals nl_order_perm w Hev Hf Hlen).
  unfold get_self, lift. cbn [self count_splu].
  rewrite (py_sum_unset (residual_con_multipliers (self w))
             (d2fdx2_of (var_values w) (self w) fact) PyInt0
             (n := length (input_vars (self w))) (k := k)).
  - reflexivity.
  - intros h Hh. now apply (d2fdx2_shape nl_order_perm w fact).
  - exact I.
  - exact Hnone.
  - now rewrite (length_d2fdx2 w fact).
Qed.

(** X7. A model that [__init__] accepts has a square inner system, so the
    only way its factorization fails is the [RuntimeError] of a singular
    [dg/dy]; then, the evaluator knowing every input and external variable,
    every derivative query raises that [RuntimeError] after one [splu]
    call, while [evaluate_equality_constraints] still returns the
    residuals. *)
Theorem singular_jacobian_raises (w : World R) :
  evaluable (self w) ->
  length (external_vars (self w)) = length (external_cons (self w)) ->
  lu_factor (jac_gy (self w)) = None ->
  evaluate_jacobian_equality_constraints w
  = (Raise RuntimeError, count_splu 1 w) /\
  evaluate_jacobian_external_variables w
  = (Raise RuntimeError, count_splu 1 w) /\
  evaluate_hessian_external_variables w
  = (Raise RuntimeError, count_splu 1 w) /\
  evaluate_hessians_of_residuals w = (Raise RuntimeError, count_splu 1 w) /\
  evaluate_hessian_equality_constraints w
  = (Raise RuntimeError, count_splu 1 w) /\
  exists values, evaluate_equality_constraints w = (Ok values, w) /\
                 length values = n_equality_constraints (self w).
Proof.
  intros Hev Hsq Hsing. pose proof Hev as [Hx Hy].
  assert (Hf : splu_factor (jac_gy (self w)) = Raise RuntimeError).
  { unfold splu_factor. rewrite Hsing.
    cbn [nrow ncol jac_gy submatrix_jacobian]. now rewrite Hsq, Nat.eqb_refl. }
  assert (Hjac : evaluate_jacobian_external_variables w
                 = (Raise RuntimeError, count_splu 1 w))
    by now apply run_jacobian_external_variables_singular.
  assert (Hres : evaluate_hessians_of_residuals w
                 = (Raise RuntimeError, count_splu 1 w)).
  { unfold evaluate_hessians_of_residuals. rewrite bind_get_self. cbv zeta.
    rewrite (extract_submatrix_jacobian_known _ Hx), bind_lift_ok.
    rewrite (extract_submatrix_jacobian_known _ Hy), bind_lift_ok.
    unfold bind at 1. now rewrite Hjac. }
  split; [now apply run_jacobian_equality_constraints_singular|].
  split; [exact Hjac|].
  split.
  { unfold evaluate_hessian_external_variables. rewrite bind_get_self.
    cbv zeta.
    rewrite (extract_submatrix_jacobian_known _ Hx), bind_lift_ok.
    rewrite (extract_submatrix_jacobian_known _ Hy), bind_lift_ok.
    rewrite bind_splu. fold (jac_gy (self w)). now rewrite Hf. }
  split; [exact Hres|].
  split.
  { unfold evaluate_hessian_equality_constraints. unfold bind at 1.
    now rewrite Hres. }
  eexists. split; [reflexivity|].
  unfold extract_subvector_constraints, n_equality_constraints.
  apply length_map.
Qed.

End ErrorPaths.

(** ** After an input change *)

Section AfterInputChange.
Context {R : Type} {SR : Scalar R} {EV : Evaluator R} {SLU : SparseLU R}.

(** X8. After a [set_input_values] that returns, the evaluator of the
    model stands at the values the variables now have: the residuals are
    the constraint bodies, and the Jacobian blocks are those of the
    evaluator at those values, which hold the partial derivatives of the
    equations when no variable or equation is listed twice; the partition
    and the multipliers are the ones from before.  If the input variables
    are distinct, one value was given per input, and the solver left the
    variables it was told to hold fixed alone, the input variables hold
    exactly the given values. *)
Theorem set_input_values_success_is_consistent
    (w w' : World R) (input_values : list R) :
  set_input_values input_values w = (Ok tt, w') ->
  let s := self w in
  let s' := self w' in
  nlp_primals (_nlp s') = var_values w' /\
  evaluate_equality_constraints w'
  = (Ok (map (fun c => con_value c (var_values w')) (residual_cons s)), w') /\
  (jac_fx s'
   = submatrix_jacobian (var_values w') (input_vars s) (residual_cons s) /\
   jac_gy s'
   = submatrix_jacobian (var_values w') (external_vars s) (external_cons s) /\
   (forall i j,
      NoDup (residual_cons s) -> NoDup (input_vars s) ->
      i < length (residual_cons s) -> j < length (input_vars s) ->
      item (jac_fx s') i j
      = first_derivative (nth i (residual_cons s) (PyCon 0))
                         (nth j (input_vars s) DummyVar) (var_values w')) /\
   (forall i j,
      NoDup (external_cons s) -> NoDup (external_vars s) ->
      i < length (external_cons s) -> j < length (external_vars s) ->
      item (jac_gy s') i j
      = first_derivative (nth i (external_cons s) (PyCon 0))
                         (nth j (external_vars s) DummyVar) (var_values w'))) /\
  input_vars s' = input_vars s /\
  external_vars s' = external_vars s /\
  residual_cons s' = residual_cons s /\
  external_cons s' = external_cons s /\
  residual_con_multipliers s' = residual_con_multipliers s /\
  splu_calls w' = splu_calls w /\
  (NoDup (input_vars s) ->
   length input_values = n_inputs s ->
   (forall v, In v (input_vars s) ->
      var_values w' v
      = assign_inputs (input_vars s) input_values (var_values w) v) ->
   forall i, i < n_inputs s ->
     var_values w' (nth i (input_vars s) DummyVar) = nth i input_values r0).
Proof.
  rewrite run_set_input_values.
  destruct (forallb _ _); [|discriminate].
  destruct (_solver _ _ _ _) as [[res | e] values']; [|discriminate].
  intros H. inversion H; subst w'. clear H. cbv zeta.
  unfold jac_fx, jac_gy.
  cbn [self var_values splu_calls with_nlp _nlp PyomoNLP nlp_primals
       input_vars external_vars residual_cons external_cons
       residual_con_multipliers].
  split; [reflexivity|]. split; [reflexivity|].
  split.
  { split; [reflexivity|]. split; [reflexivity|].
    split; intros; now apply submatrix_jacobian_entry. }
  repeat (split; [reflexivity|]).
  intros Hnd Hlen Hfixed i Hi. unfold n_inputs in *.
  rewrite Hfixed by now apply nth_In.
  apply assign_inputs_nth; [assumption | assumption | lia].
Qed.

(** X9. After a [set_input_values] that raises, whatever it raises, the
    instance is the one from before the call: the residuals, the Jacobian
    and [dy/dx] are what they were, although the variables may not be. *)
Theorem set_input_values_failure_keeps_evaluator
    (w w' : World R) (input_values : list R) (e : PyError) :
  set_input_values input_values w = (Raise e, w') ->
  self w' = self w /\
  splu_calls w' = splu_calls w /\
  fst (evaluate_equality_constraints w')
  = fst (evaluate_equality_constraints w) /\
  fst (evaluate_jacobian_equality_constraints w')
  = fst (evaluate_jacobian_equality_constraints w) /\
  fst (evaluate_jacobian_external_variables w')
  = fst (evaluate_jacobian_external_variables w).
Proof.
  rewrite run_set_input_values. intros H.
  assert (Hs : self w' = self w /\ splu_calls w' = splu_calls w).
  { destruct (forallb _ _).
    - destruct (_solver _ _ _ _) as [[res | e'] values']; [discriminate|].
      inversion H. auto.
    - inversion H. auto. }
  destruct Hs as [Hs Hc].
  split; [exact Hs|]. split; [exact Hc|].
  split.
  { rewrite !evaluate_equality_constraints_total. cbn [fst]. now rewrite Hs. }
  split.
  - apply jacobian_equality_constraints_reads; now rewrite Hs.
  - apply jacobian_external_variables_reads; now rewrite Hs.
Qed.

(** X10. When an external equation mentions a variable that is neither an
    external nor an input variable, [set_input_values] raises
    [AssertionError]: by then the inputs have been assigned, the solver has
    not been called and the evaluator has not been rebuilt. *)
Theorem set_input_values_foreign_variable
    (w : World R) (input_values : list R) (v : Var) :
  let s := self w in
  In v (block_input_vars
          (create_subsystem_block (external_cons s) (external_vars s))) ->
  ~ In v (input_vars s) ->
  set_input_values input_values w
  = (Raise AssertionError,
     {| self := s;
        var_values := assign_inputs (input_vars s) input_values (var_values w);
        splu_calls := splu_calls w |}).
Proof.
  intros s Hin Hout. rewrite run_set_input_values. fold s.
  replace (forallb _ _) with false; [reflexivity|].
  symmetry. apply not_true_is_false. intros Hall.
  rewrite forallb_forall in Hall. specialize (Hall v Hin).
  unfold var_in in Hall. destruct (in_dec Var_eq_dec v (input_vars s));
    [contradiction | discriminate].
Qed.

End AfterInputChange.

(** ** The calling modes of [get_hessian_of_constraint] *)

Section CallingModes.
Context {R : Type} {SR : Scalar R} {EV : Evaluator R}.
Hypothesis nl_order_perm : forall l, Permutation (nl_order l) l.

(** X11. With one variable list given, [get_hessian_of_constraint] uses it
    for the rows and for the columns, whichever of the two arguments it is
    passed as; with none given, it uses the variables of the constraint's
    own expression.  In an arithmetic where [0] and [1] are neutral, the
    coordinate matrix it returns, read densely, holds the second partial
    derivatives of the constraint alone (at the last position of a variable
    listed twice). *)
Theorem get_hessian_of_constraint_default_variables
    (values : Values R) (id : nat) (wrt : list Var) :
  (forall a, radd r0 a = a) ->
  (forall a, radd a r0 = a) ->
  (forall a, rmul r1 a = a) ->
  rmul r0 r0 = r0 ->
  let c := PyCon id in
  get_hessian_of_constraint values c None (Some wrt)
  = get_hessian_of_constraint values c (Some wrt) None /\
  (exists h,
      get_hessian_of_constraint values c (Some wrt) None = Ok h /\
      coo_shape h = (length wrt, length wrt) /\
      (forall i j, item (toarray h) i j = spec_hessian values c wrt wrt i j) /\
      (forall i j, NoDup wrt -> i < length wrt -> j < length wrt ->
         item (toarray h) i j
         = second_derivative c (nth i wrt DummyVar) (nth j wrt DummyVar)
                             values)) /\
  (exists h,
      get_hessian_of_constraint values c None None = Ok h /\
      coo_shape h = (length (con_vars id), length (con_vars id)) /\
      (forall i j,
         item (toarray h) i j
         = spec_hessian values c (con_vars id) (con_vars id) i j) /\
      (forall i j, NoDup (con_vars id) ->
         i < length (con_vars id) -> j < length (con_vars id) ->
         item (toarray h) i j
         = second_derivative c (nth i (con_vars id) DummyVar)
                             (nth j (con_vars id) DummyVar) values)).
Proof.
  intros H0l H0r H1l H00 c.
  split; [reflexivity|]. split.
  - destruct (get_hessian_of_constraint_run nl_order_perm values c
                (Some wrt) None) as (nlp & Hnlp & Hrun).
    cbn [resolve_wrt fst snd] in Hrun.
    assert (Hd : forall i j,
               item (toarray (submatrix_hessian_lag nlp wrt wrt)) i j
               = spec_hessian values c wrt wrt i j).
    { intros i j.
      pose proof (constraint_hessian_entry nl_order_perm values c (Some wrt)
                    None i j H0l H0r H1l H00) as H.
      unfold constraint_hessian, constraint_hessian_block,
        constraint_hessian_coo in H.
      rewrite Hrun in H. exact H. }
    eexists. split; [exact Hrun|]. split; [reflexivity|].
    split; [exact Hd|].
    intros i j Hn Hi Hj. rewrite Hd. now apply spec_hessian_NoDup.
  - destruct (get_hessian_of_constraint_run nl_order_perm values c None None)
      as (nlp & Hnlp & Hrun).
    cbn [resolve_wrt fst snd identify_variables] in Hrun.
    assert (Hd : forall i j,
               item (toarray (submatrix_hessian_lag nlp (con_vars id)
                                                    (con_vars id))) i j
               = spec_hessian values c (con_vars id) (con_vars id) i j).
    { intros i j.
      pose proof (constraint_hessian_entry nl_order_perm values c None None
                    i j H0l H0r H1l H00) as H.
      unfold constraint_hessian, constraint_hessian_block,
        constraint_hessian_coo in H.
      rewrite Hrun in H. exact H. }
    eexists. split; [exact Hrun|]. split; [reflexivity|].
    split; [exact Hd|].
    intros i j Hn Hi Hj. rewrite Hd. now apply spec_hessian_NoDup.
Qed.

End CallingModes.

(** ** The order and the size of the explicit structure *)

Section SparseOrder.
Context {R : Type} {SR : Scalar R}.

Lemma nth_error_product_seq {B} (ys : list B) (nr : nat) :
  forall a i j y, i < nr -> nth_error ys j = Some y ->
    nth_error (product (seq a nr) ys) (i * length ys + j) = Some (a + i, y).
Proof.
  unfold product.
  induction nr as [|nr IH]; intros a i j y Hi Hj; [lia|].
  assert (Hjl : j < length ys) by (apply nth_error_Some; congruence).
  cbn [seq flat_map].
  destruct i as [|i].
  - cbn [Nat.mul Nat.add]. rewrite nth_error_app1 by now rewrite length_map.
    rewrite nth_error_map, Hj. cbn. now rewrite Nat.add_0_r.
  - rewrite nth_error_app2 by (rewrite length_map; cbn; lia).
    rewrite length_map.
    replace (S i * length ys + j - length ys) with (i * length ys + j)
      by (cbn; lia).
    rewrite (IH (S a) i j y) by (assumption || lia).
    do 2 f_equal. lia.
Qed.

Lemma nth_error_product_range (nr nc i j : nat) :
  i < nr -> j < nc ->
  nth_error (product (range nr) (range nc)) (i * nc + j) = Some (i, j).
Proof.
  intros Hi Hj. unfold range.
  pose proof (@nth_error_product_seq nat (seq 0 nc) nr 0 i j j Hi) as H.
  rewrite length_seq in H. cbn [Nat.add] in H. apply H.
  rewrite nth_error_nth' with (d := 0) by now rewrite length_seq.
  now rewrite seq_nth.
Qed.

(** X12. [_dense_to_full_sparse] stores the entries in row-major order:
    the slot [i * ncol + j] of the three arrays holds [i], [j] and
    [matrix[i, j]].  The row and column arrays depend on the shape of the
    matrix alone, so two matrices of one shape get the same structure. *)
Theorem dense_to_full_sparse_row_major (m : ndarray R) :
  exists s,
    _dense_to_full_sparse (PyArray m) = Ok s /\
    (forall i j, i < nrow m -> j < ncol m ->
       nth_error (coo_row s) (i * ncol m + j) = Some i /\
       nth_error (coo_col s) (i * ncol m + j) = Some j /\
       nth_error (coo_data s) (i * ncol m + j) = Some (item m i j)) /\
    (forall (m' : ndarray R) (s' : coo_matrix R),
       shape m' = shape m ->
       _dense_to_full_sparse (PyArray m') = Ok s' ->
       coo_shape s' = coo_shape s /\
       coo_row s' = coo_row s /\
       coo_col s' = coo_col s).
Proof.
  exists (full_sparse (nrow m) (ncol m) (item m)).
  split; [apply dense_to_full_sparse_eq|]. split.
  - intros i j Hi Hj. unfold full_sparse.
    cbn [coo_row coo_col coo_data].
    rewrite !nth_error_map, nth_error_product_range by assumption.
    now cbn.
  - intros m' s' Hshape Hrun. rewrite dense_to_full_sparse_eq in Hrun.
    inversion Hrun; subst s'. unfold shape in Hshape.
    inversion Hshape as [[Hr Hc]]. now rewrite Hr, Hc.
Qed.

Lemma length_flat_map_seq {B} (g : nat -> list B) (h : nat -> nat) (n : nat) :
  forall a, (forall i, a <= i < a + n -> length (g i) = h i) ->
    length (flat_map g (seq a n)) = list_sum (map h (seq a n)).
Proof.
  induction n as [|n IH]; intros a Hg; [reflexivity|].
  cbn [seq flat_map map list_sum]. rewrite length_app, Hg by lia.
  rewrite (IH (S a)); [reflexivity|]. intros i Hi. apply Hg. lia.
Qed.

Lemma filter_none {A} (p : A -> bool) (l : list A) :
  (forall x, In x l -> p x = false) -> filter p l = [].
Proof.
  induction l as [|x l IH]; intros Hp; [reflexivity|].
  cbn [filter]. rewrite Hp by now left.
  apply IH. intros z Hz. apply Hp. now right.
Qed.

Lemma filter_leb_seq (i n : nat) :
  i < n -> filter (fun j => j <=? i) (seq 0 n) = seq 0 (S i).
Proof.
  intros Hi. replace n with (S i + (n - S i)) by lia.
  rewrite seq_app, filter_app. cbn [Nat.add].
  rewrite forallb_filter_id, filter_none.
  - apply app_nil_r.
  - intros j Hj. apply in_seq in Hj. apply Nat.leb_gt. lia.
  - apply forallb_forall. intros j Hj. apply in_seq in Hj.
    apply Nat.leb_le. lia.
Qed.

Lemma list_sum_succ_seq (n : nat) :
  2 * list_sum (map S (seq 0 n)) = n * (n + 1).
Proof.
  induction n as [|n IH]; [reflexivity|].
  rewrite seq_S, map_app, list_sum_app.
  change (list_sum (map S [0 + n])) with (S n + 0). nia.
Qed.

Lemma length_lower_triangle (n : nat) :
  2 * length (lower_triangle n) = n * (n + 1).
Proof.
  rewrite <- list_sum_succ_seq. f_equal.
  unfold lower_triangle, product, range.
  rewrite flat_map_concat_map, <- concat_filter_map, map_map,
    <- flat_map_concat_map.
  apply length_flat_map_seq. intros i Hi.
  rewrite filter_map_swap. cbn [snd fst]. rewrite length_map.
  rewrite filter_leb_seq by lia. now rewrite length_seq.
Qed.

(** X13. The lower triangle of the full structure of a square matrix: of
    the [n * n] entries [_dense_to_full_sparse] stores, [tril] keeps
    [n * (n + 1) / 2], each of them on or below the diagonal and holding
    the entry of the matrix at its coordinate. *)
Theorem tril_of_full_structure (m : ndarray R) :
  nrow m = ncol m ->
  exists s,
    _dense_to_full_sparse (PyArray m) = Ok s /\
    length (coo_data s) = nrow m * nrow m /\
    2 * length (coo_data (tril s)) = nrow m * (nrow m + 1) /\
    length (coo_row (tril s)) = length (coo_data (tril s)) /\
    length (coo_col (tril s)) = length (coo_data (tril s)) /\
    coo_shape (tril s) = (nrow m, nrow m) /\
    (forall i j v, In (i, j, v) (entries (tril s)) ->
       j <= i /\ i < nrow m /\ v = item m i j).
Proof.
  intros Hsq.
  exists (full_sparse (nrow m) (ncol m) (item m)).
  split; [apply dense_to_full_sparse_eq|].
  rewrite <- Hsq. rewrite tril_full_sparse.
  cbn [coo_data coo_row coo_col coo_shape].
  split.
  { unfold full_sparse. cbn [coo_data].
    now rewrite length_map, length_product, !length_range. }
  rewrite !length_map.
  split; [apply length_lower_triangle|].
  split; [reflexivity|]. split; [reflexivity|]. split; [reflexivity|].
  intros i j v Hin. unfold entries, coords in Hin.
  cbn [coo_data coo_row coo_col] in Hin.
  rewrite combine_fst_snd, combine_map_r in Hin.
  apply in_map_iff in Hin. destruct Hin as ([i' j'] & Heq & Hin).
  inversion Heq; subst. apply in_lower_triangle in Hin. cbn [fst snd]. tauto.
Qed.

End SparseOrder.

(** ** The two computations of [dy/dx], and excess input values *)

Section Agreement.
Context {R : Type} {SR : Scalar R} {EV : Evaluator R} {SLU : SparseLU R}.

(** X14. [evaluate_jacobian_equality_constraints] computes [dy/dx] with
    its own copy of the code of [evaluate_jacobian_external_variables]; the
    two agree: when the latter returns [dydx], an array with one row per
    external equation and one column per input, the former returns the
    full structure of [jfx + jfy.dot(dydx)] for that same [dydx], and when
    the latter raises, the former raises the same exception. *)
Theorem jacobian_uses_same_dydx (w : World R) :
  let s := self w in
  match fst (evaluate_jacobian_external_variables w) with
  | Ok dydx =>
      nrow dydx = length (external_cons s) /\
      ncol dydx = n_inputs s /\
      fst (evaluate_jacobian_equality_constraints w)
      = (prod <- dot (jac_fy s) dydx ;;
         dfdx <- madd (jac_fx s) prod ;;
         _dense_to_full_sparse (PyArray dfdx))%err
  | Raise e => fst (evaluate_jacobian_equality_constraints w) = Raise e
  end.
Proof.
  intros s. destruct (evaluable_dec s) as [[Hx Hy] | Hne].
  - unfold evaluate_jacobian_external_variables,
      evaluate_jacobian_equality_constraints.
    rewrite !bind_get_self. fold s. cbv zeta.
    rewrite !(extract_submatrix_jacobian_known _ Hx).
    rewrite !(extract_submatrix_jacobian_known _ Hy).
    rewrite !bind_lift_ok, !bind_splu.
    unfold lift. fold (jac_gy s) (jac_gx s) (jac_fy s) (jac_fx s).
    destruct (splu_factor (jac_gy s)) as [fact | e]; cbn [fst snd];
      [|reflexivity].
    unfold solve_matrix.
    destruct (nrow (jac_gx s) =? lu_n fact); cbn [rbind fst]; [|reflexivity].
    repeat split.
  - rewrite (run_jacobian_external_variables_unknown w Hne).
    now rewrite (run_jacobian_equality_constraints_unknown w Hne).
Qed.

(** X15. [set_input_values] pairs the inputs with the values by [zip] and
    checks no length: it reads the first [n_inputs()] values and ignores
    any value beyond them. *)
Theorem set_input_values_ignores_excess
    (w : World R) (input_values : list R) :
  set_input_values input_values w
  = set_input_values (firstn (n_inputs (self w)) input_values) w.
Proof.
  rewrite !run_set_input_values. cbv zeta.
  unfold assign_inputs, n_inputs. now rewrite <- combine_firstn_l.
Qed.

End Agreement.

(** ** What every sequence of calls preserves *)

Section Reachable.
Context {R : Type} {SR : Scalar R} {EV : Evaluator R} {SLU : SparseLU R}.

Lemma run_call_self (c : call) (w : World R) :
  let s := self w in
  let s' := self (run_call c w) in
  _solver s' = _solver s /\
  _block s' = _block s /\
  input_vars s' = input_vars s /\
  external_vars s' = external_vars s /\
  residual_cons s' = residual_cons s /\
  external_cons s' = external_cons s /\
  length (residual_con_multipliers s') = length (residual_con_multipliers s) /\
  (nlp_cons (_nlp s) = nl_order (block_cons (_block s)) ->
   nlp_cons (_nlp s') = nl_order (block_cons (_block s))).
Proof.
  assert (Hq : forall A (q : M R A), read_only q ->
             self (snd (q w)) = self w).
  { intros A q Hq. destruct (read_only_world w Hq) as [k Hk]. now rewrite Hk. }
  destruct c as [x | lam | | | | | |]; cbv zeta; cbn [run_call].
  - rewrite run_set_input_values. cbv zeta.
    destruct (forallb _ _); [|cbn; auto 10].
    destruct (_solver _ _ _ _) as [[res | e] values']; cbn; auto 10.
  - rewrite run_set_multipliers. cbv zeta. cbn.
    repeat (split; [reflexivity|]). split; [|auto].
    rewrite length_app, length_map, length_firstn, length_skipn. lia.
  - rewrite (Hq _ _ read_only_equality_constraints). auto 10.
  - rewrite (Hq _ _ read_only_jacobian_equality_constraints). auto 10.
  - rewrite (Hq _ _ read_only_jacobian_external_variables). auto 10.
  - rewrite (Hq _ _ read_only_hessian_external_variables). auto 10.
  - rewrite (Hq _ _ read_only_hessians_of_residuals). auto 10.
  - rewrite (Hq _ _ read_only_hessian_equality_constraints). auto 10.
Qed.

(** The block of an instance [__init__] has built is one the evaluator
    accepts, and stays so through every sequence of calls: the rebuild at
    the end of [set_input_values] is never refused. *)
Lemma rebuild_is_accepted
    (ipopt : Solver R) (values : Values R)
    (x y : list Var) (f g : list Constraint) (solver : option (Solver R))
    (m : ExternalPyomoModel R) (calls : list call) (w : World R) :
  __init__ ipopt values x y f g solver = Ok m ->
  self w = m ->
  write_nl (_block (self (run_calls calls w))) = Ok tt.
Proof.
  intros Hinit Hself.
  assert (H0 : write_nl (_block (self w)) = Ok tt).
  { rewrite Hself. unfold __init__ in Hinit.
    destruct (write_nl _) as [[]|] eqn:Hw; [|discriminate].
    cbn [rbind] in Hinit.
    destruct (length y =? length g); [|discriminate].
    inversion Hinit. exact Hw. }
  clear Hinit Hself. revert w H0. unfold run_calls.
  induction calls as [|c calls IH]; intros w H0; cbn [fold_left];
    [exact H0|].
  apply IH. destruct (run_call_self c w) as (_ & Hb & _). now rewrite Hb.
Qed.

(** X16. The instance [__init__] builds keeps its shape through every
    sequence of calls, whether they return or raise: the four lists are
    the ones given to [__init__], as many external variables as external
    equations, one multiplier slot per residual equation, the block and
    the solver of the construction, and an evaluator on the equations of
    that block. *)
Theorem calls_preserve_partition
    (ipopt : Solver R) (values : Values R)
    (x y : list Var) (f g : list Constraint) (solver : option (Solver R))
    (m : ExternalPyomoModel R) (calls : list call) (w : World R) :
  __init__ ipopt values x y f g solver = Ok m ->
  self w = m ->
  let s := self (run_calls calls w) in
  input_vars s = x /\
  external_vars s = y /\
  residual_cons s = f /\
  external_cons s = g /\
  length (external_vars s) = length (external_cons s) /\
  length (residual_con_multipliers s) = n_equality_constraints s /\
  _solver s = match solver with None => ipopt | Some sv => sv end /\
  _block s = create_subsystem_block (f ++ g) (x ++ y) /\
  nlp_cons (_nlp s) = nl_order (f ++ g).
Proof.
  intros Hinit Hself. cbv zeta.
  unfold __init__ in Hinit.
  destruct (write_nl _); [|discriminate]. cbn [rbind] in Hinit.
  destruct (length y =? length g) eqn:Hsq; [|discriminate].
  apply Nat.eqb_eq in Hsq. inversion Hinit as [Hm]. clear Hinit.
  assert (H0 : input_vars (self w) = x /\ external_vars (self w) = y /\
               residual_cons (self w) = f /\ external_cons (self w) = g /\
               length (residual_con_multipliers (self w)) = length f /\
               _solver (self w)
               = match solver with None => ipopt | Some sv => sv end /\
               _block (self w) = create_subsystem_block (f ++ g) (x ++ y) /\
               nlp_cons (_nlp (self w)) = nl_order (f ++ g)).
  { rewrite Hself, <- Hm. cbn. rewrite length_map. auto 10. }
  clear Hself Hm m.
  revert w H0. unfold run_calls.
  induction calls as [|c calls IH]; intros w H0; cbn [fold_left].
  - destruct H0 as (Hx & Hy & Hf & Hg & Hl & Hs & Hb & Hn).
    unfold n_equality_constraints. rewrite Hx, Hy, Hf, Hg. auto 10.
  - apply IH.
    destruct H0 as (Hx & Hy & Hf & Hg & Hl & Hs & Hb & Hn).
    destruct (run_call_self c w)
      as (Hs' & Hb' & Hx' & Hy' & Hf' & Hg' & Hl' & Hn').
    rewrite Hs', Hb', Hx', Hy', Hf', Hg', Hl'.
    repeat (split; [assumption|]).
    rewrite Hn'; rewrite Hb; [reflexivity | exact Hn].
Qed.

End Reachable.

(** ** The theorems at the concrete instance *)

Section Instance.
Import Toy.

Lemma toy_order_perm : forall l : list Constraint, Permutation (nl_order l) l.
Proof. intros l. apply Permutation_refl. Qed.

Lemma toy_factored : splu_factor (jac_gy (self w_ready)) = Ok fact1.
Proof. reflexivity. Qed.

Lemma toy_solve_length (b : list Z) :
  length b = length (external_vars (self w_ready)) ->
  length (lu_solve (lu_factors fact1) b) = length b.
Proof. intros _. apply length_map. Qed.

Lemma toy_evaluable : evaluable (self w_ready).
Proof.
  split; intros v Hv; vm_compute in Hv; vm_compute; intuition.
Qed.

Lemma toy_laws : second_order_laws (R := Z).
Proof.
  repeat split; intros; cbn [r0 r1 radd rmul ZScalar]; lia.
Qed.

Lemma jacobian_equality_constraints_implicit_witness :
  evaluable (self w_ready) /\
  splu_factor (jac_gy (self w_ready)) = Ok fact1 /\
  exists jac,
    evaluate_jacobian_equality_constraints w_ready
    = (Ok jac, count_splu 1 w_ready) /\
    coo_shape jac = (1, 2) /\
    (forall i j v,
        In (i, j, v) (entries jac)
        <-> i < 1 /\ j < 2 /\
            v = spec_add (item (jac_fx (self w_ready)))
                  (spec_mul 1 (item (jac_fy (self w_ready)))
                     (spec_dydx (self w_ready) fact1)) i j).
Proof.
  split; [exact toy_evaluable|].
  split; [reflexivity|].
  destruct (jacobian_equality_constraints_implicit w_ready toy_evaluable
              toy_factored)
    as (jac & Hrun & Hshape & _ & _ & Hentries & _).
  exists jac. split; [exact Hrun|]. split; [exact Hshape|]. exact Hentries.
Defined.

(** A model whose inputs are set, with an input that no equation mentions,
    has no Jacobian: the evaluator does not know that input, and the query
    raises [KeyError] before any factorization.  So has none a model whose
    [dg/dy] is singular where its inputs were set: the factorization raises
    [RuntimeError]. *)
Lemma jacobian_equality_constraints_counterexample :
  fst (set_input_values [2%Z; 5%Z; 7%Z] (fresh_world model_unused)) = Ok tt /\
  In x3 (input_vars (self w_unused)) /\
  ~ In x3 (nlp_vars (_nlp (self w_unused))) /\
  evaluate_jacobian_equality_constraints w_unused = (Raise KeyError, w_unused) /\
  fst (set_input_values [0%Z; 5%Z] (fresh_world model_root)) = Ok tt /\
  item (jac_gy (self w_singular)) 0 0 = 0%Z /\
  evaluate_jacobian_equality_constraints w_singular
  = (Raise RuntimeError, count_splu 1 w_singular).
Proof.
  split; [reflexivity|].
  split; [vm_compute; tauto|].
  split; [vm_compute; intuition discriminate|].
  repeat split.
Qed.

Lemma hessians_second_order_decomposition_witness :
  (forall l : list Constraint, Permutation (nl_order l) l) /\
  evaluable (self w_ready) /\
  splu_factor (jac_gy (self w_ready)) = Ok fact1 /\
  (forall b : list Z,
      length b = length (external_vars (self w_ready)) ->
      length (lu_solve (lu_factors fact1) b) = length b) /\
  second_order_laws (R := Z) /\
  exists d2ydx2 d2fdx2,
    evaluate_hessian_external_variables w_ready
    = (Ok d2ydx2, count_splu 1 w_ready) /\
    evaluate_hessians_of_residuals w_ready
    = (Ok d2fdx2, count_splu 2 w_ready) /\
    length d2ydx2 = 1 /\
    length d2fdx2 = 1.
Proof.
  split; [exact toy_order_perm|].
  split; [exact toy_evaluable|].
  split; [reflexivity|].
  split; [exact toy_solve_length|].
  split; [exact toy_laws|].
  destruct (hessians_second_order_decomposition
              toy_order_perm w_ready toy_evaluable toy_factored
              toy_solve_length toy_laws)
    as (d2y & d2f & H1 & H2 & H3 & H4 & _).
  exists d2y, d2f. auto.
Defined.

(** On the model with the unused input both second-order queries raise
    [KeyError] without factoring, and on the model with the singular
    [dg/dy] they raise [RuntimeError] at the first factorization. *)
Lemma hessians_second_order_counterexample :
  fst (set_input_values [2%Z; 5%Z; 7%Z] (fresh_world model_unused)) = Ok tt /\
  ~ In x3 (nlp_vars (_nlp (self w_unused))) /\
  evaluate_hessian_external_variables w_unused = (Raise KeyError, w_unused) /\
  evaluate_hessians_of_residuals w_unused = (Raise KeyError, w_unused) /\
  fst (set_input_values [0%Z; 5%Z] (fresh_world model_root)) = Ok tt /\
  evaluate_hessian_external_variables w_singular
  = (Raise RuntimeError, count_splu 1 w_singular) /\
  evaluate_hessians_of_residuals w_singular
  = (Raise RuntimeError, count_splu 1 w_singular).
Proof.
  split; [reflexivity|].
  split; [vm_compute; intuition discriminate|].
  repeat split.
Qed.

Lemma hessian_equality_constraints_lower_triangle_witness :
  (forall l : list Constraint, Permutation (nl_order l) l) /\
  evaluable (self w_ready) /\
  splu_factor (jac_gy (self w_ready)) = Ok fact1 /\
  (forall b : list Z,
      length b = length (external_vars (self w_ready)) ->
      length (lu_solve (lu_factors fact1) b) = length b) /\
  residual_con_multipliers (self w_ready) = map Some [3%Z] /\
  length [3%Z] = length (residual_cons (self w_ready)) /\
  0 < length (residual_cons (self w_ready)) /\
  exists hess d2fdx2,
    evaluate_hessians_of_residuals w_ready
    = (Ok d2fdx2, count_splu 2 w_ready) /\
    evaluate_hessian_equality_constraints w_ready
    = (Ok hess, count_splu 2 w_ready) /\
    coo_shape hess = (2, 2) /\
    coords hess = [(0, 0); (1, 0); (1, 1)].
Proof.
  split; [exact toy_order_perm|].
  split; [exact toy_evaluable|].
  split; [reflexivity|].
  split; [exact toy_solve_length|].
  split; [reflexivity|]. split; [reflexivity|]. split; [simpl; lia|].
  destruct (hessian_equality_constraints_lower_triangle
              toy_order_perm w_ready toy_evaluable toy_factored
              toy_solve_length [3%Z] eq_refl eq_refl)
    as (hess & d2f & H1 & H2 & H3 & H4 & _).
  { simpl. lia. }
  exists hess, d2f. auto.
Defined.

(** With every multiplier set, the Hessian of the Lagrangian is not
    returned by the model with the unused input ([KeyError], no
    factorization) nor by the model with the singular [dg/dy]
    ([RuntimeError], one factorization). *)
Lemma hessian_equality_constraints_counterexample :
  fst (set_input_values [2%Z; 5%Z; 7%Z] (fresh_world model_unused)) = Ok tt /\
  residual_con_multipliers (self w_unused) = [Some 3%Z] /\
  n_equality_constraints (self w_unused) = 1 /\
  ~ In x3 (nlp_vars (_nlp (self w_unused))) /\
  evaluate_hessian_equality_constraints w_unused = (Raise KeyError, w_unused) /\
  fst (set_input_values [0%Z; 5%Z] (fresh_world model_root)) = Ok tt /\
  residual_con_multipliers (self w_singular) = [Some 3%Z] /\
  evaluate_hessian_equality_constraints w_singular
  = (Raise RuntimeError, count_splu 1 w_singular).
Proof.
  split; [reflexivity|]. split; [reflexivity|]. split; [reflexivity|].
  split; [vm_compute; intuition discriminate|].
  repeat split.
Qed.

(** Without residual equations the builtin [sum] has nothing to add up and
    the Hessian query raises. *)
Example hessian_equality_constraints_without_residuals :
  fst (set_input_values [2%Z] (fresh_world model_no_residuals)) = Ok tt /\
  n_equality_constraints (self w_no_residuals) = 0 /\
  residual_con_multipliers (self w_no_residuals) = map Some [] /\
  evaluable (self w_no_residuals) /\
  splu_factor (jac_gy (self w_no_residuals)) = Ok fact1 /\
  evaluate_hessian_equality_constraints w_no_residuals
  = (Raise AttributeError, count_splu 2 w_no_residuals).
Proof.
  split; [reflexivity|]. split; [reflexivity|]. split; [reflexivity|].
  split.
  { split; intros v Hv; vm_compute in Hv; vm_compute; intuition. }
  repeat split.
Qed.

Lemma hessian_of_constraint_isolates_equation_witness :
  (forall l : list Constraint, Permutation (nl_order l) l) /\
  (forall a : Z, radd r0 a = a) /\
  (forall a : Z, radd a r0 = a) /\
  (forall a : Z, rmul r1 a = a) /\
  rmul r0 r0 = (r0 : Z) /\
  exists h,
    get_hessian_of_constraint (var_values w_ready) g
      (Some [x0; x1]) (Some [x0; y]) = Ok h /\
    coo_shape h = (2, 2) /\
    item (toarray h) 0 0 = second_derivative g x0 x0 (var_values w_ready) /\
    item (toarray h) 1 0 = r0.
Proof.
  assert (H0l : forall a : Z, radd r0 a = a) by (intros a; reflexivity).
  assert (H0r : forall a : Z, radd a r0 = a) by (intros a; apply Z.add_0_r).
  assert (H1l : forall a : Z, rmul r1 a = a) by (intros a; apply Z.mul_1_l).
  assert (H00 : rmul r0 r0 = (r0 : Z)) by reflexivity.
  split; [exact toy_order_perm|].
  repeat (split; [assumption|]).
  destruct (hessian_of_constraint_isolates_equation
              toy_order_perm (var_values w_ready) g [x0; x1] [x0; y]
              H0l H0r H1l H00)
    as (_ & _ & nlp & h & _ & _ & _ & _ & Hh & Hshape & _ & _ & _ & Hd & _
        & Hzero).
  exists h. split; [exact Hh|]. split; [exact Hshape|].
  split.
  - rewrite Hd. reflexivity.
  - apply (Hzero 1 0). left. simpl. intros [H | [H | []]]; discriminate.
Defined.

(** The matrix returned for [g = y - x0*x0] with respect to [(x0, y)] twice
    stores one entry, at [(x0, x0)]: the three other pairs have none. *)
Lemma hessian_of_constraint_counterexample :
  exists h,
    get_hessian_of_constraint values0 g (Some [x0; y]) (Some [x0; y]) = Ok h /\
    coo_shape h = (2, 2) /\
    entries h = [(0, 0, (-2)%Z)] /\
    ~ In (1, 1) (coords h).
Proof.
  eexists. split; [reflexivity|]. split; [reflexivity|].
  split; [reflexivity|]. vm_compute. intuition discriminate.
Qed.

(** A partition with one external variable and no external equation, in a
    model without equations: the evaluator refuses the model before the
    two numbers are compared. *)
Lemma init_counterexample :
  length [y] <> length (@nil Constraint) /\
  __init__ toy_solver values0 [x0] [y] [] [] None = Raise ValueError.
Proof. split; [discriminate | reflexivity]. Qed.

Lemma fresh_model_evaluates_residuals_witness :
  __init__ toy_solver values0 [x0; x1] [y] [f] [g] None = Ok (self w_fresh) /\
  self w_fresh = self w_fresh /\
  evaluate_equality_constraints w_fresh
  = (Ok (map (fun c => con_value c values0) [f]), w_fresh).
Proof.
  split; [reflexivity|]. split; [reflexivity|].
  apply (@fresh_model_evaluates_residuals
           Z _ _ toy_solver values0 [x0; x1] [y] [f] [g] None
           (self w_fresh) w_fresh);
    reflexivity.
Defined.

(** A query on a model whose inputs were never set returns a number. *)
Lemma uninitialized_query_counterexample :
  model0 = Ok (self w_fresh) /\
  var_values w_fresh = values0 /\
  evaluate_equality_constraints w_fresh = (Ok [3%Z], w_fresh) /\
  fst (evaluate_jacobian_equality_constraints w_fresh)
  = Ok {| coo_shape := (1, 2); coo_row := [0; 0]; coo_col := [0; 1];
          coo_data := [8%Z; 1%Z] |}.
Proof. repeat split. Qed.

(** Two Jacobian queries in a row, with no input change in between, factor
    twice. *)
Lemma factorization_cached_counterexample :
  let w1 := snd (evaluate_jacobian_equality_constraints w_ready) in
  let w2 := snd (evaluate_jacobian_equality_constraints w1) in
  splu_calls w_ready = 0 /\
  splu_calls w1 = 1 /\
  splu_calls w2 = 2 /\
  fst (evaluate_jacobian_equality_constraints w_ready)
  = fst (evaluate_jacobian_equality_constraints w1) /\
  self w2 = self w_ready.
Proof. repeat split. Qed.

Lemma toy_inputs_nodup : NoDup (input_vars (self w_ready)).
Proof.
  simpl. repeat constructor; simpl; [intros [H | []]; discriminate | tauto].
Qed.

Lemma set_input_values_solver_outcome_witness :
  forallb (fun var => var_in var (input_vars (self w_ready)))
          (block_input_vars
             (create_subsystem_block (external_cons (self w_ready))
                                     (external_vars (self w_ready)))) = true /\
  set_input_values [(-3)%Z] w_ready
  = (Raise (SolverFailure 1),
     {| self := self w_ready;
        var_values := assign_inputs [x0; x1] [(-3)%Z] (var_values w_ready);
        splu_calls := 0 |}) /\
  assign_inputs [x0; x1] [(-3)%Z] (var_values w_ready) x0 = (-3)%Z.
Proof.
  split; [reflexivity|].
  assert (Hassert :
            forallb (fun var => var_in var (input_vars (self w_ready)))
              (block_input_vars
                 (create_subsystem_block (external_cons (self w_ready))
                                         (external_vars (self w_ready)))) = true)
    by reflexivity.
  destruct (set_input_values_solver_outcome w_ready [(-3)%Z] Hassert)
    as [Hraise _].
  destruct (Hraise (SolverFailure 1)
              (assign_inputs [x0; x1] [(-3)%Z] (var_values w_ready)))
    as [Hrun Hkept]; [reflexivity|].
  split; [exact Hrun|].
  apply (Hkept toy_inputs_nodup (fun _ _ => eq_refl) 0); simpl; lia.
Defined.

(** A failed nested solve leaves the new input value on the variable. *)
Lemma set_input_values_atomic_counterexample :
  fst (set_input_values [(-3)%Z] w_ready) = Raise (SolverFailure 1) /\
  var_values w_ready x0 = 2%Z /\
  var_values (snd (set_input_values [(-3)%Z] w_ready)) x0 = (-3)%Z /\
  fst (evaluate_equality_constraints (snd (set_input_values [(-3)%Z] w_ready)))
  = fst (evaluate_equality_constraints w_ready).
Proof. repeat split. Qed.

Lemma set_input_values_short_input_witness :
  length [7%Z] < n_inputs (self w_ready) /\
  NoDup (input_vars (self w_ready)) /\
  fst (set_input_values [7%Z] w_ready) = Ok tt /\
  var_values (snd (set_input_values [7%Z] w_ready)) x0 = 7%Z /\
  var_values (snd (set_input_values [7%Z] w_ready)) x1 = 5%Z /\
  assign_inputs [x0; x1] [7%Z] (var_values w_ready) x1 = var_values w_ready x1 /\
  set_input_values [7%Z; 5%Z; 9%Z] w_ready = set_input_values [7%Z; 5%Z] w_ready.
Proof.
  assert (Hshort : length [7%Z] < n_inputs (self w_ready)) by (vm_compute; lia).
  split; [exact Hshort|]. split; [exact toy_inputs_nodup|].
  destruct (set_input_values_short_input w_ready [7%Z] Hshort toy_inputs_nodup)
    as (_ & Hrest & _ & Hrun & Hextra).
  split; [rewrite Hrun; reflexivity|].
  split; [rewrite Hrun; reflexivity|].
  split; [rewrite Hrun; reflexivity|].
  split.
  - apply (Hrest 1); vm_compute; lia.
  - apply (Hextra [7%Z; 5%Z] [9%Z]). reflexivity.
Defined.

(** A solver that returns without converging is not noticed. *)
Example lazy_solver_unnoticed :
  fst (set_input_values [2%Z; 5%Z] (fresh_world model_lazy)) = Ok tt /\
  fst (evaluate_equality_constraints
         (snd (set_input_values [2%Z; 5%Z] (fresh_world model_lazy))))
  = Ok [13%Z].
Proof. repeat split. Qed.

Lemma set_multipliers_overwrites_prefix_witness :
  length [3%Z] <= length (residual_con_multipliers (self w_fresh)) /\
  fst (set_equality_constraint_multipliers [3%Z] w_fresh) = Ok tt /\
  residual_con_multipliers
    (self (snd (set_equality_constraint_multipliers [3%Z] w_fresh)))
  = [Some 3%Z].
Proof.
  assert (H : length [3%Z] <= length (residual_con_multipliers (self w_fresh)))
    by (vm_compute; lia).
  split; [exact H|].
  rewrite (set_multipliers_overwrites_prefix w_fresh [3%Z] H).
  split; reflexivity.
Defined.

Lemma set_multipliers_too_many_witness :
  length (residual_con_multipliers (self w_fresh)) < length [3%Z; 4%Z] /\
  fst (set_equality_constraint_multipliers [3%Z; 4%Z] w_fresh)
  = Raise IndexError /\
  residual_con_multipliers
    (self (snd (set_equality_constraint_multipliers [3%Z; 4%Z] w_fresh)))
  = [Some 3%Z].
Proof.
  assert (H : length (residual_con_multipliers (self w_fresh))
              < length [3%Z; 4%Z]) by (vm_compute; lia).
  split; [exact H|].
  rewrite (set_multipliers_too_many w_fresh [3%Z; 4%Z] H).
  split; reflexivity.
Defined.

Lemma hessian_equality_constraints_unset_multiplier_witness :
  let w := snd (set_input_values [2%Z; 5%Z] w_fresh) in
  (forall l : list Constraint, Permutation (nl_order l) l) /\
  evaluable (self w) /\
  splu_factor (jac_gy (self w)) = Ok fact1 /\
  (forall b : list Z, length b = length (external_vars (self w)) ->
     length (lu_solve (lu_factors fact1) b) = length b) /\
  0 < n_equality_constraints (self w) /\
  nth_error (residual_con_multipliers (self w)) 0 = Some None /\
  evaluate_hessian_equality_constraints w = (Raise TypeError, count_splu 2 w).
Proof.
  intros w.
  assert (Hev : evaluable (self w)) by exact toy_evaluable.
  assert (Hf : splu_factor (jac_gy (self w)) = Ok fact1) by reflexivity.
  assert (Hl : forall b : list Z, length b = length (external_vars (self w)) ->
                 length (lu_solve (lu_factors fact1) b) = length b)
    by (intros b _; apply length_map).
  assert (Hk : 0 < n_equality_constraints (self w)) by (vm_compute; lia).
  assert (Hn : nth_error (residual_con_multipliers (self w)) 0 = Some None)
    by reflexivity.
  split; [exact toy_order_perm|]. split; [exact Hev|].
  split; [exact Hf|]. split; [exact Hl|]. split; [exact Hk|].
  split; [exact Hn|].
  exact (hessian_equality_constraints_unset_multiplier
           toy_order_perm w Hev Hf Hl Hk Hn).
Defined.

(** The partition that takes [x0] for the external variable, with the
    inputs set where [x0 = 0]: [dg/dx0 = -2*x0] is the singular [[0]]. *)
Lemma singular_jacobian_raises_witness :
  evaluable (self w_singular) /\
  length (external_vars (self w_singular))
  = length (external_cons (self w_singular)) /\
  lu_factor (jac_gy (self w_singular)) = None /\
  item (jac_gy (self w_singular)) 0 0 = 0%Z /\
  evaluate_jacobian_equality_constraints w_singular
  = (Raise RuntimeError, count_splu 1 w_singular) /\
  evaluate_hessian_equality_constraints w_singular
  = (Raise RuntimeError, count_splu 1 w_singular) /\
  fst (evaluate_equality_constraints w_singular) = Ok [0%Z].
Proof.
  assert (Hev : evaluable (self w_singular))
    by (split; intros v Hv; vm_compute in Hv; vm_compute; intuition).
  assert (Hsq : length (external_vars (self w_singular))
                = length (external_cons (self w_singular))) by reflexivity.
  assert (Hnone : lu_factor (jac_gy (self w_singular)) = None) by reflexivity.
  split; [exact Hev|]. split; [exact Hsq|]. split; [exact Hnone|].
  split; [reflexivity|].
  destruct (singular_jacobian_raises w_singular Hev Hsq Hnone)
    as (Hj & _ & _ & _ & Hh & _).
  split; [exact Hj|]. split; [exact Hh|]. reflexivity.
Defined.

Lemma set_input_values_success_is_consistent_witness :
  let w' := snd (set_input_values [2%Z; 5%Z] w_fresh) in
  set_input_values [2%Z; 5%Z] w_fresh = (Ok tt, w') /\
  nlp_primals (_nlp (self w')) = var_values w' /\
  evaluate_equality_constraints w' = (Ok [34%Z], w') /\
  var_values w' x1 = 5%Z.
Proof.
  intros w'.
  assert (Hrun : set_input_values [2%Z; 5%Z] w_fresh = (Ok tt, w'))
    by reflexivity.
  split; [exact Hrun|].
  destruct (set_input_values_success_is_consistent w_fresh [2%Z; 5%Z] Hrun)
    as (Hp & Hr & _ & _ & _ & _ & _ & _ & _ & Hin).
  split; [exact Hp|]. split; [exact Hr|].
  assert (Hfixed : forall v, In v (input_vars (self w_fresh)) ->
            var_values w' v
            = assign_inputs (input_vars (self w_fresh)) [2%Z; 5%Z]
                            (var_values w_fresh) v)
    by (intros v [<- | [<- | []]]; reflexivity).
  apply (Hin toy_inputs_nodup eq_refl Hfixed 1).
  vm_compute; lia.
Defined.

Lemma set_input_values_failure_keeps_evaluator_witness :
  let w' := snd (set_input_values [(-1)%Z; 5%Z] w_ready) in
  set_input_values [(-1)%Z; 5%Z] w_ready = (Raise (SolverFailure 1), w') /\
  var_values w' x0 = (-1)%Z /\
  nlp_primals (_nlp (self w')) x0 = 2%Z /\
  fst (evaluate_equality_constraints w')
  = fst (evaluate_equality_constraints w_ready) /\
  fst (evaluate_jacobian_equality_constraints w')
  = fst (evaluate_jacobian_equality_constraints w_ready).
Proof.
  intros w'.
  assert (Hrun : set_input_values [(-1)%Z; 5%Z] w_ready
                 = (Raise (SolverFailure 1), w')) by reflexivity.
  split; [exact Hrun|].
  split; [reflexivity|]. split; [reflexivity|].
  destruct (set_input_values_failure_keeps_evaluator w_ready [(-1)%Z; 5%Z] Hrun)
    as (_ & _ & Hr & Hj & _).
  split; [exact Hr | exact Hj].
Defined.

(** The partition that leaves [x0] out of the inputs, although the
    external equation mentions it. *)
Lemma set_input_values_foreign_variable_witness :
  let w := fresh_world (__init__ toy_solver values0 [x1] [y] [f] [g] None) in
  In x0 (block_input_vars
           (create_subsystem_block (external_cons (self w))
                                   (external_vars (self w)))) /\
  ~ In x0 (input_vars (self w)) /\
  fst (set_input_values [5%Z] w) = Raise AssertionError /\
  var_values (snd (set_input_values [5%Z] w)) x1 = 5%Z.
Proof.
  intros w.
  assert (Hin : In x0 (block_input_vars
                  (create_subsystem_block (external_cons (self w))
                                          (external_vars (self w)))))
    by (left; reflexivity).
  assert (Hout : ~ In x0 (input_vars (self w)))
    by (intros [H | []]; discriminate).
  split; [exact Hin|]. split; [exact Hout|].
  rewrite (set_input_values_foreign_variable w [5%Z] x0 Hin Hout).
  split; reflexivity.
Defined.

Lemma get_hessian_of_constraint_default_variables_witness :
  (forall l : list Constraint, Permutation (nl_order l) l) /\
  (forall a : Z, radd r0 a = a) /\
  (forall a : Z, radd a r0 = a) /\
  (forall a : Z, rmul r1 a = a) /\
  rmul r0 r0 = (r0 : Z) /\
  get_hessian_of_constraint (var_values w_ready) g None (Some [y; x0])
  = get_hessian_of_constraint (var_values w_ready) g (Some [y; x0]) None /\
  exists h,
    get_hessian_of_constraint (var_values w_ready) g None None = Ok h /\
    coo_shape h = (2, 2) /\
    item (toarray h) 0 0 = (-2)%Z.
Proof.
  assert (H0l : forall a : Z, radd r0 a = a) by (intros a; reflexivity).
  assert (H0r : forall a : Z, radd a r0 = a) by (intros a; apply Z.add_0_r).
  assert (H1l : forall a : Z, rmul r1 a = a) by (intros a; apply Z.mul_1_l).
  assert (H00 : rmul r0 r0 = (r0 : Z)) by reflexivity.
  split; [exact toy_order_perm|].
  repeat (split; [assumption|]).
  destruct (get_hessian_of_constraint_default_variables
              toy_order_perm (var_values w_ready) 1 [y; x0]
              H0l H0r H1l H00)
    as (Heq & _ & h & Hh & Hshape & Hitem & _).
  split; [exact Heq|].
  exists h. split; [exact Hh|]. split; [exact Hshape|].
  rewrite Hitem. reflexivity.
Defined.

(** A variable listed twice has its derivatives in its last column only. *)
Example repeated_input_keeps_last_column :
  let jac := submatrix_jacobian (var_values w_ready) [x0; x0; x1] [f] in
  (item jac 0 0, item jac 0 1, item jac 0 2) = (0%Z, 9%Z, 2%Z).
Proof. reflexivity. Qed.

Lemma tril_of_full_structure_witness :
  let m := {| nrow := 2; ncol := 2;
              item := fun i j => Z.of_nat (i + j) |} in
  nrow m = ncol m /\
  exists s,
    _dense_to_full_sparse (PyArray m) = Ok s /\
    length (coo_data s) = 4 /\
    2 * length (coo_data (tril s)) = 6.
Proof.
  intros m.
  assert (Hsq : nrow m = ncol m) by reflexivity.
  split; [exact Hsq|].
  destruct (tril_of_full_structure m Hsq) as (s & Hs & Hn & Ht & _).
  exists s. split; [exact Hs|]. split; [exact Hn | exact Ht].
Defined.

Lemma calls_preserve_partition_witness :
  let calls := [CallSetInputValues [2%Z; 5%Z];
                CallHessianEqualityConstraints;
                CallSetMultipliers [3%Z; 4%Z];
                CallSetInputValues [(-1)%Z]] in
  __init__ toy_solver values0 [x0; x1] [y] [f] [g] None
  = Ok (self w_fresh) /\
  input_vars (self (run_calls calls w_fresh)) = [x0; x1] /\
  length (residual_con_multipliers (self (run_calls calls w_fresh))) = 1.
Proof.
  intros calls.
  assert (Hinit : __init__ toy_solver values0 [x0; x1] [y] [f] [g] None
                  = Ok (self w_fresh)) by reflexivity.
  split; [exact Hinit|].
  destruct (calls_preserve_partition toy_solver values0 [x0; x1] [y] [f] [g]
              None calls w_fresh Hinit eq_refl)
    as (Hx & _ & _ & _ & _ & Hm & _).
  split; [exact Hx | exact Hm].
Defined.

End Instance.
